(** * potatriangle: the colouring search engine of [App.tsx]

    A shallow embedding of the combinatorial core of the triangle-colouring
    application: the adjacency rule, the cyclic colour difference, the signed
    matrix, the determinant by Gaussian elimination, the minor evaluation,
    the connected-component counter and the two search strategies; and of
    what surrounds it: the click and randomize handlers, the JSON export and
    import, the result table, the matrix panel and the drawn grid.

    The repository holds two versions of the application file.  The line
    numbers below are those of the full version (exhaustive and randomized
    search, component counter).  The shorter [src/App.tsx] has the same
    [relativeColorNum], [areAdjacent], [determinant] and [computeMinorDets],
    word for word, and its own [randomizeColors] and [handleSearch],
    embedded in [SrcApp] and [SrcSearch].

    Conventions.
    - JavaScript numbers that hold integers (coordinates, colours, matrix
      entries before elimination, counters, indices) are [Z] or [nat]; the
      numbers the determinant computes with are IEEE-754 binary64 values,
      Rocq's primitive [float].  The integer reading is exact as long as the
      numbers stay below 2^53 in magnitude: coordinates of [safeCell]s, and
      the indices of shapes of at most 33 cells (3^33 < 2^53).  The theorems
      that depend on it carry these bounds; [Binary64] has the index loop and
      the component counter on binary64 numbers and string keys, to show
      what happens beyond them.
    - A [Map<string, Color>] is an association list in insertion order.  Its
      keys are the strings [getKey] prints; the embedding names a key by the
      cell it encodes, and [KeyCodec] shows that [parseKey] after [getKey] is
      the identity on safe cells.
    - An array is a list; where a claim is about which array object a write
      reaches, [Heap] has the arrays as objects with addresses. *)

From Stdlib Require Import Ascii String DecimalString DecimalPos DecimalZ.
From Stdlib Require Import ZArith List Bool Lia PrimFloat Permutation Sorted.
From Stdlib Require FloatOps SpecFloat.
From stdpp Require Import base decidable countable relations gmap list.

Open Scope Z_scope.

(** ** Geometry *)

Record TriangleCoord := mkCoord { x : Z; y : Z; isUp : bool }.

(** Colours: 0 transparent, 1 white, 2 black, 3 gray. *)
Abbreviation Color := Z (only parsing).

(** [relativeColorNum]: JavaScript's [%] is the truncated remainder. *)
Definition relativeColorNum (a b : Z) : Z :=
  let diff := Z.rem ((b - 1) - (a - 1) + 3) 3 in
  diff.

Definition areAdjacent (a b : TriangleCoord) : bool :=
  let dx := x b - x a in
  let dy := y b - y a in
  if isUp a then
    if negb (isUp b) then
      if (dx =? -1) && (dy =? 0) then true
      else if (dx =? 1) && (dy =? 0) then true
      else if (dx =? 0) && (dy =? -1) then true
      else false
    else false
  else
    if isUp b then
      if (dx =? -1) && (dy =? 0) then true
      else if (dx =? 1) && (dy =? 0) then true
      else if (dx =? 0) && (dy =? 1) then true
      else false
    else false.

#[global] Instance TriangleCoord_eq_dec : EqDecision TriangleCoord.
Proof. solve_decision. Defined.

(** The integers a JavaScript number counts exactly
    ([Number.MIN_SAFE_INTEGER] to [Number.MAX_SAFE_INTEGER]): on them [+ 1]
    and [- 1] are exact, a template literal prints the plain decimal text,
    and [parseInt] reads it back. *)
Definition safeInt (z : Z) : Prop := - 2 ^ 53 < z < 2 ^ 53.

Definition safeCell (c : TriangleCoord) : Prop :=
  safeInt (x c) /\ safeInt (y c).

#[global] Instance safeInt_dec z : Decision (safeInt z).
Proof. unfold safeInt. apply _. Defined.

#[global] Instance safeCell_dec c : Decision (safeCell c).
Proof. unfold safeCell. apply _. Defined.

(** ** The colour map

    [Map<string, Color>] with JavaScript's insertion-order iteration:
    [set] on a present key overwrites in place, on a new key appends. *)

Abbreviation ColorMap := (list (TriangleCoord * Color)).

(** A colouring of safe cells: on it naming a key by its cell is exact. *)
Definition safeColors (m : ColorMap) : Prop :=
  Forall (fun e : TriangleCoord * Color => safeCell e.1) m.

Fixpoint map_get (m : ColorMap) (k : TriangleCoord) : option Color :=
  match m with
  | [] => None
  | (k', c) :: m' => if decide (k' = k) then Some c else map_get m' k
  end.

Fixpoint map_set (m : ColorMap) (k : TriangleCoord) (c : Color) : ColorMap :=
  match m with
  | [] => [(k, c)]
  | (k', c') :: m' =>
      if decide (k' = k) then (k', c) :: m' else (k', c') :: map_set m' k c
  end.

(** ** The signed matrix ([computeMinorDets], lines 275-298) *)

Record ColoredTri := mkTri { coord : TriangleCoord; color : Color }.

(** [colorMap.forEach]: the cells with a colour other than 0, in map order.
    The source takes [parseKey(key)]: the cell of the key, for safe cells. *)
Definition coloredTriangles (colorMap : ColorMap) : list ColoredTri :=
  omap (fun '(key, c) => if c =? 0 then None else Some (mkTri key c)) colorMap.

Abbreviation Matrix := (list (list Z)).

Definition mat_get (mat : Matrix) (i j : nat) : Z :=
  nth j (nth i mat []) 0.

(** [mat[i][j] = v] *)
Definition mat_set (mat : Matrix) (i j : nat) (v : Z) : Matrix :=
  alter (fun row => <[j := v]> row) i mat.

(** [Array(n).fill(null).map(() => Array(n).fill(0))] *)
Definition zeroMatrix (n : nat) : Matrix := replicate n (replicate n 0).

(** The body of the inner loop at indices [i], [j]. *)
Definition fillEntry (ts : list ColoredTri) (i : nat) (mat : Matrix) (j : nat)
  : Matrix :=
  if negb (i =? j)%nat then
    match ts !! i, ts !! j with
    | Some ti, Some tj =>
        if areAdjacent (coord ti) (coord tj) then
          let rel := relativeColorNum (color ti) (color tj) in
          let mat1 := mat_set mat i j (- rel) in
          mat_set mat1 i i (mat_get mat1 i i + rel)
        else mat
    | _, _ => mat
    end
  else mat.

Definition buildMatrix (ts : list ColoredTri) : Matrix :=
  let n := length ts in
  fold_left
    (fun mat i => fold_left (fillEntry ts i) (seq 0 n) mat)
    (seq 0 n) (zeroMatrix n).

Definition sumZ (l : list Z) : Z := fold_right Z.add 0 l.

(** Row-level reading of [fillEntry]: what it does to row [i]. *)
Definition fillRow (ts : list ColoredTri) (i : nat) (row : list Z) (j : nat)
  : list Z :=
  if negb (i =? j)%nat then
    match ts !! i, ts !! j with
    | Some ti, Some tj =>
        if areAdjacent (coord ti) (coord tj) then
          let rel := relativeColorNum (color ti) (color tj) in
          let row1 := <[j := - rel]> row in
          <[i := nth i row1 0 + rel]> row1
        else row
    | _, _ => row
    end
  else row.

(** The weight of the pair (i, j): the colour difference when the two cells
    are adjacent, 0 otherwise. *)
Definition weight (ts : list ColoredTri) (i j : nat) : Z :=
  match ts !! i, ts !! j with
  | Some ti, Some tj =>
      if areAdjacent (coord ti) (coord tj)
      then relativeColorNum (color ti) (color tj) else 0
  | _, _ => 0
  end.

(** Row [i] after the inner loop has handled the columns below [m]. *)
Definition rowAfter (ts : list ColoredTri) (i m n : nat) : list Z :=
  (fun k => if (k =? i)%nat then sumZ (map (weight ts i) (seq 0 m))
            else if (k <? m)%nat then - weight ts i k else 0)
  <$> seq 0 n.

(** ** The determinant ([determinant], lines 48-84)

    Matrices of binary64 numbers.  An index past the end of a row reads
    [undefined], which arithmetic turns into NaN. *)

Abbreviation FMatrix := (list (list float)).

Definition fget (m : FMatrix) (r c : nat) : float := nth c (nth r m []) nan.

(** [row[c] = v]: an index past the end extends the array, and the holes
    read as [undefined]. *)
Definition arraySet (row : list float) (c : nat) (v : float) : list float :=
  if (c <? length row)%nat then <[c := v]> row
  else row ++ replicate (c - length row) nan ++ [v].

(** [m[r][c] = v] *)
Definition fset (m : FMatrix) (r c : nat) (v : float) : FMatrix :=
  alter (fun row => arraySet row c v) r m.

#[warnings="-inexact-float"]
Definition eps_pivot : float := 1e-10%float.

(** The pivot search: [maxRow] after the loop over [k = i+1 .. n-1]. *)
Definition findMaxRow (m : FMatrix) (i n : nat) : nat :=
  fold_left
    (fun maxRow k =>
       if (abs (fget m maxRow i) <? abs (fget m k i))%float then k else maxRow)
    (seq (S i) (n - S i)) i.

(** [[m[i], m[maxRow]] = [m[maxRow], m[i]]] *)
Definition swapRows (m : FMatrix) (i maxRow : nat) : FMatrix :=
  let ri := nth i m [] in
  let rmax := nth maxRow m [] in
  <[maxRow := ri]> (<[i := rmax]> m).

(** The elimination of row [k] with pivot row [i]. *)
Definition eliminateRow (i n : nat) (m : FMatrix) (k : nat) : FMatrix :=
  let factor := (fget m k i / fget m i i)%float in
  fold_left
    (fun m j => fset m k j (fget m k j - factor * fget m i j)%float)
    (seq i (n - i)) m.

(** One iteration of the outer loop; [None] is the early [return 0]. *)
Definition detStep (n i : nat) (st : FMatrix * float) : option (FMatrix * float) :=
  let '(m, det) := st in
  let maxRow := findMaxRow m i n in
  if (abs (fget m maxRow i) <? eps_pivot)%float then None
  else
    let '(m, det) :=
      if negb (maxRow =? i)%nat
      then (swapRows m i maxRow, (det * (- one))%float)
      else (m, det) in
    let det := (det * fget m i i)%float in
    let m := fold_left (eliminateRow i n) (seq (S i) (n - S i)) m in
    Some (m, det).

Fixpoint detLoop (n : nat) (is_ : list nat) (st : FMatrix * float) : float :=
  match is_ with
  | [] => snd st
  | i :: rest =>
      match detStep n i st with
      | None => zero
      | Some st' => detLoop n rest st'
      end
  end.

(** [matrix.map(row => [...row])] copies the rows; as a value the copy is
    the matrix itself.  The heap reading of the copy is in [Heap] below. *)
Definition determinant (matrix : FMatrix) : float :=
  let n := length matrix in
  if (n =? 0)%nat then one
  else if (n =? 1)%nat then fget matrix 0 0
  else detLoop n (seq 0 n) (matrix, one).

(** The state at the head of iteration [i] of the outer loop, when the loop
    gets there. *)
Fixpoint detRun (n : nat) (is_ : list nat) (st : FMatrix * float)
  : option (FMatrix * float) :=
  match is_ with
  | [] => Some st
  | i :: rest =>
      match detStep n i st with
      | None => None
      | Some st' => detRun n rest st'
      end
  end.

(** ** The minors and the pass predicate ([computeMinorDets], lines 274-306) *)

(** The matrix entries are integers of small magnitude, which binary64
    holds exactly. *)
Fixpoint float_of_pos (p : positive) : float :=
  match p with
  | xH => one
  | xO q => (two * float_of_pos q)%float
  | xI q => (two * float_of_pos q + one)%float
  end.

Definition float_of_Z (z : Z) : float :=
  match z with
  | Z0 => zero
  | Zpos p => float_of_pos p
  | Zneg p => (- float_of_pos p)%float
  end.

(** [l.filter((_, ri) => p(ri))], the indices counted from [start]. *)
Fixpoint filterIdx {A} (p : nat -> bool) (start : nat) (l : list A) : list A :=
  match l with
  | [] => []
  | a :: l' =>
      if p start then a :: filterIdx p (S start) l'
      else filterIdx p (S start) l'
  end.

Definition minorOf {A} (mat : list (list A)) (i : nat) : list (list A) :=
  map (fun row => filterIdx (fun ci => negb (ci =? i)%nat) 0 row)
      (filterIdx (fun ri => negb (ri =? i)%nat) 0 mat).

(** The signed matrix as the numbers the determinant gets.  Where the
    source stores [-rel] with [rel = 0] the number is the negative zero; it
    equals 0 in every comparison and has the same absolute value, and the
    embedding has 0 there. *)
Definition toFloats (mat : Matrix) : FMatrix := map (map float_of_Z) mat.

Definition computeMinorDets (colorMap : ColorMap) : list (nat * float) :=
  let coloredTriangles := coloredTriangles colorMap in
  let n := length coloredTriangles in
  if (n <=? 1)%nat then []
  else
    let mat := toFloats (buildMatrix coloredTriangles) in
    imap (fun i _ => (i, determinant (minorOf mat i))) mat.

#[warnings="-inexact-float"]
Definition eps_nonzero : float := 0.0001%float.

(** [dets.length > 0 && dets.every(d => Math.abs(d.det) > 0.0001)] *)
Definition allNonZero (dets : list (nat * float)) : bool :=
  (0 <? length dets)%nat
  && forallb (fun d => (eps_nonzero <? abs (snd d))%float) dets.

Definition passes (colorMap : ColorMap) : bool :=
  allNonZero (computeMinorDets colorMap).

(** The spec's minor: the determinant of the signed matrix of the coloured
    cells with row [i] and column [i] deleted. *)
Definition signedMatrix (colorMap : ColorMap) : FMatrix :=
  toFloats (buildMatrix (coloredTriangles colorMap)).

Definition Minor (colorMap : ColorMap) (i : nat) : float :=
  determinant (map (delete i) (delete i (signedMatrix colorMap))).

(** ** The string keys ([getKey], [parseKey], lines 169-176)

    The maps of the program are keyed by the strings [getKey] prints.  The
    rest of the development names a key by its cell, which
    [parseKey_getKey] justifies for integer cells. *)

Module KeyCodec.

(** The decimal text of an integer, as a template literal prints the
    number that holds it.  That is the source's text for integers below
    10^21 in magnitude; from 10^21 on the source prints the exponent form
    ([1e+21]), which this embedding does not have.  The statements about
    keys are about [safeCell]s. *)
Definition showZ (z : Z) : string := NilZero.string_of_int (Z.to_int z).

Definition getKey (x y : Z) (isUp : bool) : string :=
  String.append (showZ x)
    (String "," (String.append (showZ y)
                   (String "," (if isUp then "u"%string else "d"%string)))).

(** [key.split(',')] *)
Fixpoint split (s : string) : list string :=
  match s with
  | EmptyString => [EmptyString]
  | String c rest =>
      if Ascii.eqb c ","%char then EmptyString :: split rest
      else match split rest with
           | part :: parts => String c part :: parts
           | [] => [String c EmptyString]
           end
  end.

Definition isDigit (c : ascii) : bool :=
  (48 <=? nat_of_ascii c)%nat && (nat_of_ascii c <=? 57)%nat.

Fixpoint digitsPrefix (s : string) : string :=
  match s with
  | EmptyString => EmptyString
  | String c rest =>
      if isDigit c then String c (digitsPrefix rest) else EmptyString
  end.

(** White space among the code units below 256: tab, line feed, vertical
    tab, form feed, carriage return, space and no-break space. *)
Definition isSpace (c : ascii) : bool :=
  let n := nat_of_ascii c in
  ((9 <=? n)%nat && (n <=? 13)%nat) || (n =? 32)%nat || (n =? 160)%nat.

Fixpoint trimStart (s : string) : string :=
  match s with
  | EmptyString => EmptyString
  | String c rest => if isSpace c then trimStart rest else s
  end.

Definition hexDigit (c : ascii) : option Z :=
  let n := nat_of_ascii c in
  if (48 <=? n)%nat && (n <=? 57)%nat then Some (Z.of_nat n - 48)
  else if (97 <=? n)%nat && (n <=? 102)%nat then Some (Z.of_nat n - 87)
  else if (65 <=? n)%nat && (n <=? 70)%nat then Some (Z.of_nat n - 55)
  else None.

(** The value of the longest prefix of hexadecimal digits, [acc] holding
    the digits read so far; [None] when there is none. *)
Fixpoint hexValue (s : string) (acc : option Z) : option Z :=
  match s with
  | EmptyString => acc
  | String c rest =>
      match hexDigit c with
      | Some d => hexValue rest (Some (16 * default 0 acc + d))
      | None => acc
      end
  end.

(** [parseInt] without a radix: leading white space is skipped, then an
    optional sign, then either [0x] or [0X] and hexadecimal digits, or
    decimal digits, up to the first other character; [None] is NaN.  The
    result is the integer read; the source's number is that integer when it
    is below 2^53 in magnitude. *)
Definition parseInt (s : string) : option Z :=
  let s := trimStart s in
  let '(negative, body) :=
    match s with
    | String c rest =>
        if Ascii.eqb c "-"%char then (true, rest)
        else if Ascii.eqb c "+"%char then (false, rest)
        else (false, s)
    | EmptyString => (false, s)
    end in
  let hex :=
    match body with
    | String c0 (String c1 rest) =>
        if Ascii.eqb c0 "0"%char
           && (Ascii.eqb c1 "x"%char || Ascii.eqb c1 "X"%char)
        then Some rest else None
    | _ => None
    end in
  match hex with
  | Some digits =>
      option_map (fun v => if negative then - v else v) (hexValue digits None)
  | None =>
      let numeral :=
        if negative then String "-" (digitsPrefix body)
        else digitsPrefix body in
      option_map Z.of_int (NilZero.int_of_string numeral)
  end.

(** [parseKey]; [None] when a coordinate is NaN. *)
Definition parseKey (key : string) : option TriangleCoord :=
  let parts := split key in
  match parseInt (nth 0 parts EmptyString),
        parseInt (nth 1 parts EmptyString) with
  | Some px, Some py =>
      Some (mkCoord px py (String.eqb (nth 2 parts EmptyString) "u"))
  | _, _ => None
  end.

Fixpoint allDigits (s : string) : bool :=
  match s with
  | EmptyString => true
  | String c rest => isDigit c && allDigits rest
  end.

Fixpoint noComma (s : string) : bool :=
  match s with
  | EmptyString => true
  | String c rest => negb (Ascii.eqb c ","%char) && noComma rest
  end.

End KeyCodec.

(** ** The determinant on the heap

    The arrays as objects: an address is an index into the heap, allocation
    appends.  A matrix is an array of addresses of number arrays.  [None] is
    a [TypeError] (an index applied to [undefined]). *)

Module Heap.

Inductive obj :=
| Nums (elems : list float)
| Refs (elems : list nat).

Abbreviation heap := (list obj).

Definition alloc (o : obj) (h : heap) : heap * nat := (h ++ [o], length h).

Definition readNums (h : heap) (a : nat) : option (list float) :=
  match h !! a with
  | Some (Nums elems) => Some elems
  | _ => None
  end.

Definition readRefs (h : heap) (a : nat) : option (list nat) :=
  match h !! a with
  | Some (Refs elems) => Some elems
  | _ => None
  end.

(** [m[r][c]] *)
Definition readEntry (h : heap) (m r c : nat) : option float :=
  rows ← readRefs h m;
  row ← rows !! r;
  elems ← readNums h row;
  Some (nth c elems nan).

(** [m[r][c] = v] *)
Definition writeEntry (h : heap) (m r c : nat) (v : float) : option heap :=
  rows ← readRefs h m;
  row ← rows !! r;
  elems ← readNums h row;
  Some (<[row := Nums (arraySet elems c v)]> h).

(** [rows.map(row => f(row))] for a callback that builds a new array: one
    allocation per row, in order. *)
Fixpoint mapRows (f : list float -> list float) (h : heap) (rows : list nat)
  : option (heap * list nat) :=
  match rows with
  | [] => Some (h, [])
  | row :: rest =>
      elems ← readNums h row;
      let '(h1, a) := alloc (Nums (f elems)) h in
      '(h2, images) ← mapRows f h1 rest;
      Some (h2, a :: images)
  end.

(** [row => [...row]] *)
Definition copyRows : heap -> list nat -> option (heap * list nat) :=
  mapRows (fun row => row).

(** [matrix.map(row => [...row])] *)
Definition copyMatrix (h : heap) (matrix : nat) : option (heap * nat) :=
  rows ← readRefs h matrix;
  '(h1, copies) ← copyRows h rows;
  Some (alloc (Refs copies) h1).

Definition findMaxRow (h : heap) (m i n : nat) : option nat :=
  fold_left
    (fun acc k =>
       maxRow ← acc;
       a ← readEntry h m k i;
       b ← readEntry h m maxRow i;
       Some (if (abs b <? abs a)%float then k else maxRow))
    (seq (S i) (n - S i)) (Some i).

(** [[m[i], m[maxRow]] = [m[maxRow], m[i]]] *)
Definition swapRows (h : heap) (m i maxRow : nat) : option heap :=
  rows ← readRefs h m;
  ri ← rows !! i;
  rmax ← rows !! maxRow;
  Some (<[m := Refs (<[maxRow := ri]> (<[i := rmax]> rows))]> h).

Definition eliminateRow (i n m : nat) (h : heap) (k : nat) : option heap :=
  a ← readEntry h m k i;
  p ← readEntry h m i i;
  let factor := (a / p)%float in
  fold_left
    (fun acc j =>
       h ← acc;
       x ← readEntry h m k j;
       y ← readEntry h m i j;
       writeEntry h m k j (x - factor * y)%float)
    (seq i (n - i)) (Some h).

(** One iteration of the outer loop: the heap after it, and the running
    determinant, or [None] for the early [return 0]. *)
Definition detStep (n i m : nat) (h : heap) (det : float)
  : option (heap * option float) :=
  maxRow ← findMaxRow h m i n;
  p ← readEntry h m maxRow i;
  if (abs p <? eps_pivot)%float then Some (h, None)
  else
    '(h, det) ← (if negb (maxRow =? i)%nat
                 then h' ← swapRows h m i maxRow; Some (h', (det * (- one))%float)
                 else Some (h, det));
    d ← readEntry h m i i;
    let det := (det * d)%float in
    h ← fold_left (fun acc k => h ← acc; eliminateRow i n m h k)
          (seq (S i) (n - S i)) (Some h);
    Some (h, Some det).

Fixpoint detLoop (n : nat) (is_ : list nat) (m : nat) (h : heap) (det : float)
  : option (float * heap) :=
  match is_ with
  | [] => Some (det, h)
  | i :: rest =>
      '(h, next) ← detStep n i m h det;
      match next with
      | None => Some (zero, h)
      | Some det => detLoop n rest m h det
      end
  end.

Definition determinant (h : heap) (matrix : nat) : option (float * heap) :=
  rows ← readRefs h matrix;
  let n := length rows in
  if (n =? 0)%nat then Some (one, h)
  else if (n =? 1)%nat then v ← readEntry h matrix 0 0; Some (v, h)
  else
    '(h, m) ← copyMatrix h matrix;
    detLoop n (seq 0 n) m h one.

(** [row => row.filter((_, ci) => ci !== i)] *)
Definition filterRows (h : heap) (rows : list nat) (i : nat)
  : option (heap * list nat) :=
  mapRows (filterIdx (fun ci => negb (ci =? i)%nat) 0) h rows.

(** [mat.filter((_, ri) => ri !== i).map(row => row.filter(...))] *)
Definition buildMinor (h : heap) (mat i : nat) : option (heap * nat) :=
  rows ← readRefs h mat;
  let '(h1, kept) :=
    alloc (Refs (filterIdx (fun ri => negb (ri =? i)%nat) 0 rows)) h in
  kept_rows ← readRefs h1 kept;
  '(h2, filtered) ← filterRows h1 kept_rows i;
  Some (alloc (Refs filtered) h2).

(** The callback of [mat.map((_, i) => ...)], index after index. *)
Fixpoint minorLoop (h : heap) (mat : nat) (is_ : list nat)
  : option (list (nat * float) * heap) :=
  match is_ with
  | [] => Some ([], h)
  | i :: rest =>
      '(h1, minor) ← buildMinor h mat i;
      '(det, h2) ← determinant h1 minor;
      '(dets, h3) ← minorLoop h2 mat rest;
      Some ((i, det) :: dets, h3)
  end.

Definition minorDets (h : heap) (mat : nat)
  : option (list (nat * float) * heap) :=
  rows ← readRefs h mat;
  minorLoop h mat (seq 0 (length rows)).

(** The transposition of the indices [i] and [j]. *)
Definition transpose (i j k : nat) : nat :=
  if (k =? j)%nat then i else if (k =? i)%nat then j else k.

(** [h'] has every object of [h] at its address, unchanged, and possibly
    new objects after them. *)
Definition extends (h h' : heap) : Prop := take (length h) h' = h.

(** The matrix of numbers an address denotes. *)
Definition matrixAt (h : heap) (matrix : nat) (M : FMatrix) : Prop :=
  exists rows, readRefs h matrix = Some rows
               /\ Forall2 (fun a row => readNums h a = Some row) rows M.

(** The working copy [m] of a call that started in heap [h0]: its arrays are
    new, pairwise distinct, and hold [M]; the part of the heap that was
    there at the call is as it was. *)
Definition owns (h0 : heap) (m : nat) (h : heap) (M : FMatrix) : Prop :=
  extends h0 h
  /\ (length h0 <= m)%nat
  /\ exists rows, readRefs h m = Some rows
                  /\ NoDup rows
                  /\ Forall (fun a => (length h0 <= a)%nat /\ a <> m) rows
                  /\ Forall2 (fun a row => readNums h a = Some row) rows M.

End Heap.

(** ** The component counter ([computeConnectedComponents], lines 87-141) *)

#[global] Instance TriangleCoord_countable : Countable TriangleCoord.
Proof.
  refine (inj_countable' (fun c => (x c, y c, isUp c))
            (fun t => mkCoord t.1.1 t.1.2 t.2) _).
  intros []; reflexivity.
Defined.

Record Counts := mkCounts { white : nat; black : nat; gray : nat }.

(** The three cells the flood fill looks at from [coord], which the source
    gets as [parseKey(key)] and whose keys it prints with [getKey].  The
    sums and differences are those of the program for a safe cell; from
    2^53 on the program's [x + 1] and [x - 1] round ([Binary64]). *)
Definition neighbors (coord : TriangleCoord) : list TriangleCoord :=
  if isUp coord then
    [ mkCoord (x coord - 1) (y coord) false;
      mkCoord (x coord + 1) (y coord) false;
      mkCoord (x coord) (y coord - 1) false ]
  else
    [ mkCoord (x coord - 1) (y coord) true;
      mkCoord (x coord + 1) (y coord) true;
      mkCoord (x coord) (y coord + 1) true ].

(** [colorMap.get(key) === targetColor] *)
Definition hasColor (colorMap : ColorMap) (key : TriangleCoord) (targetColor : Color)
  : bool :=
  match map_get colorMap key with
  | Some c => c =? targetColor
  | None => false
  end.

(** The [while (stack.length > 0)] loop of [dfs].  The head of the list is
    the top of the stack.  [fuel] bounds the number of iterations; [None]
    means the bound was hit with cells still on the stack. *)
Fixpoint dfsLoop (fuel : nat) (colorMap : ColorMap) (targetColor : Color)
    (stack : list TriangleCoord) (visited : gset TriangleCoord)
  : option (gset TriangleCoord) :=
  match stack with
  | [] => Some visited
  | key :: stack =>
      match fuel with
      | O => None
      | S fuel =>
          if bool_decide (key ∈ visited) then
            dfsLoop fuel colorMap targetColor stack visited
          else if negb (hasColor colorMap key targetColor) then
            dfsLoop fuel colorMap targetColor stack visited
          else
            let visited := {[key]} ∪ visited in
            let pushed :=
              List.filter
                (fun n => negb (bool_decide (n ∈ visited))
                          && hasColor colorMap n targetColor)
                (neighbors key) in
            dfsLoop fuel colorMap targetColor (rev pushed ++ stack) visited
      end
  end.

(** Every iteration either drops a cell from the stack or marks a cell of
    the map and pushes at most three, so [1 + 3 * colorMap.size] iterations
    empty the stack ([dfs_total]); the default is never taken. *)
Definition dfs (colorMap : ColorMap) (visited : gset TriangleCoord)
    (startKey : TriangleCoord) (targetColor : Color) : gset TriangleCoord :=
  default visited
    (dfsLoop (1 + 3 * length colorMap) colorMap targetColor [startKey] visited).

Definition bump (color : Color) (result : Counts) : Counts :=
  if color =? 1 then mkCounts (S (white result)) (black result) (gray result)
  else if color =? 2 then mkCounts (white result) (S (black result)) (gray result)
  else if color =? 3 then mkCounts (white result) (black result) (S (gray result))
  else result.

(** One iteration of [for (const [key, color] of colorMap)]. *)
Definition countEntry (colorMap : ColorMap)
    (st : gset TriangleCoord * Counts) (entry : TriangleCoord * Color)
  : gset TriangleCoord * Counts :=
  let '(visited, result) := st in
  let '(key, color) := entry in
  if (color =? 0) || bool_decide (key ∈ visited) then st
  else (dfs colorMap visited key color, bump color result).

Definition computeConnectedComponents (colorMap : ColorMap) : Counts :=
  snd (fold_left (countEntry colorMap) colorMap (∅, mkCounts 0 0 0)).

(** [computePriorityScore] *)
Definition computePriorityScore (connected : Counts) : nat :=
  (white connected * black connected * gray connected)%nat.

(** ** The searches ([handleSearch], lines 336-469) *)

Record SearchResult := mkResult {
  colors : ColorMap;
  dets : list (nat * float);
  attempt : nat;
  connected : Counts
}.

Inductive Status := Running | Completed | Cancelled.

(** *** Exhaustive mode *)

(** The loop of [indexToColors]: [remaining] is the index still to expand.
    The natural numbers are the program's numbers below 2^53, on which [%],
    the division and [Math.floor] are exact. *)
Fixpoint indexToColorsLoop (targetShape : list TriangleCoord) (remaining : nat)
    (newColors : ColorMap) : ColorMap :=
  match targetShape with
  | [] => newColors
  | coord :: rest =>
      let colorValue := Z.of_nat (remaining mod 3) + 1 in
      indexToColorsLoop rest (remaining / 3) (map_set newColors coord colorValue)
  end.

Definition indexToColors (index : nat) (targetShape : list TriangleCoord)
  : ColorMap :=
  indexToColorsLoop targetShape index [].

(** The state the frames of the exhaustive search share.  [tested] is a ghost
    field: the indices handed to [indexToColors], in order. *)
Record ExhaustiveState := mkExh {
  currentIndex : nat;
  results : list SearchResult;
  tested : list nat
}.

(** The body of the batch loop, with its [currentIndex++]. *)
Definition exhaustiveCandidate (targetShape : list TriangleCoord)
    (st : ExhaustiveState) : ExhaustiveState :=
  let testColors := indexToColors (currentIndex st) targetShape in
  let dets := computeMinorDets testColors in
  let allNonZero := allNonZero dets in
  let results :=
    if allNonZero then
      let connected := computeConnectedComponents testColors in
      results st ++ [mkResult testColors dets (currentIndex st + 1) connected]
    else results st in
  mkExh (S (currentIndex st)) results (tested st ++ [currentIndex st]).

(** [for (let i = 0; i < batchSize && currentIndex < total; i++, currentIndex++)] *)
Fixpoint exhaustiveBatch (targetShape : list TriangleCoord) (total : nat)
    (batchSize : nat) (st : ExhaustiveState) : ExhaustiveState :=
  match batchSize with
  | O => st
  | S batchSize =>
      if (currentIndex st <? total)%nat
      then exhaustiveBatch targetShape total batchSize
             (exhaustiveCandidate targetShape st)
      else st
  end.

(** One animation frame of the exhaustive search; [stop] is
    [stopSearchRef.current] as the frame reads it.  [total] and the index
    are natural numbers: the program's [Math.pow(3, N)] and [currentIndex++]
    are these for N up to 33, where 3^N is below 2^53; from 34 cells on
    they are not ([Binary64]). *)
Definition exhaustiveStep (targetShape : list TriangleCoord) (stop : bool)
    (st : ExhaustiveState) : ExhaustiveState * Status :=
  let total := (3 ^ length targetShape)%nat in
  if stop then (st, Cancelled)
  else
    let batchSize := Nat.min 1000 (total - currentIndex st) in
    let st := exhaustiveBatch targetShape total batchSize st in
    if (currentIndex st <? total)%nat then (st, Running) else (st, Completed).

(** The frames the host runs while nobody asks to stop: each [Running]
    frame schedules the next one. *)
Fixpoint exhaustiveRun (frames : nat) (targetShape : list TriangleCoord)
    (st : ExhaustiveState) : ExhaustiveState * Status :=
  match frames with
  | O => (st, Running)
  | S frames =>
      match exhaustiveStep targetShape false st with
      | (st', Running) => exhaustiveRun frames targetShape st'
      | done => done
      end
  end.

Definition exhaustiveStart : ExhaustiveState := mkExh 0 [] [].

(** What the search stores for index [index] when its colouring passes. *)
Definition resultAt (targetShape : list TriangleCoord) (index : nat)
  : option SearchResult :=
  let testColors := indexToColors index targetShape in
  if passes testColors then
    Some (mkResult testColors (computeMinorDets testColors) (index + 1)
            (computeConnectedComponents testColors))
  else None.

(** The state in which exactly the indices below [i] have been handled. *)
Definition exhaustiveAt (targetShape : list TriangleCoord) (i : nat)
  : ExhaustiveState :=
  mkExh i (omap (resultAt targetShape) (seq 0 i)) (seq 0 i).

(** Digit [i], least significant first, of the base-3 expansion of [index]. *)
Definition digit3 (i index : nat) : nat := ((index / 3 ^ i) mod 3)%nat.

(** The colours [indexToColors] gives to the first [n] cells. *)
Fixpoint colorsOfIndex (n index : nat) : list Color :=
  match n with
  | O => []
  | S n => (Z.of_nat (index mod 3) + 1) :: colorsOfIndex n (index / 3)
  end.

(** *** Randomized mode *)

(** [Math.floor(Math.random() * 3)]: one of 0, 1, 2.  The random source is
    the stream of these values; [pos] counts the calls made so far. *)
Inductive Draw := Draw0 | Draw1 | Draw2.

Definition drawValue (d : Draw) : Z :=
  match d with Draw0 => 0 | Draw1 => 1 | Draw2 => 2 end.

Abbreviation Rng := (nat -> Draw).

(** [randomizeColors(targetShape, currentColors)], lines 245-257. *)
Fixpoint randomizeColorsLoop (rng : Rng) (targetShape : list TriangleCoord)
    (currentColors : ColorMap) (pos : nat) (newColors : ColorMap)
  : ColorMap * nat :=
  match targetShape with
  | [] => (newColors, pos)
  | coord :: rest =>
      match map_get currentColors coord with
      | None => randomizeColorsLoop rng rest currentColors pos newColors
      | Some currentColor =>
          if currentColor =? 0
          then randomizeColorsLoop rng rest currentColors pos newColors
          else
            let randomColor := drawValue (rng pos) + 1 in
            randomizeColorsLoop rng rest currentColors (S pos)
              (map_set newColors coord randomColor)
      end
  end.

Definition randomizeColors (rng : Rng) (targetShape : list TriangleCoord)
    (currentColors : ColorMap) (pos : nat) : ColorMap * nat :=
  randomizeColorsLoop rng targetShape currentColors pos [].

(** A cell the session's current colouring colours: present, and not 0. *)
Definition currentlyColored (currentColors : ColorMap) (coord : TriangleCoord)
  : bool :=
  match map_get currentColors coord with
  | Some currentColor => negb (currentColor =? 0)
  | None => false
  end.

(** The colours of [k] successive draws starting at call [pos]. *)
Definition drawnColors (rng : Rng) (pos k : nat) : list Color :=
  map (fun j => drawValue (rng (pos + j)%nat) + 1) (seq 0 k).

(** The one-argument [randomizeColors] of [src/App.tsx], lines 184-192. *)
Module SrcApp.

Fixpoint randomizeColorsLoop (rng : Rng) (targetShape : list TriangleCoord)
    (pos : nat) (newColors : ColorMap) : ColorMap * nat :=
  match targetShape with
  | [] => (newColors, pos)
  | coord :: rest =>
      let randomColor := drawValue (rng pos) + 1 in
      randomizeColorsLoop rng rest (S pos) (map_set newColors coord randomColor)
  end.

Definition randomizeColors (rng : Rng) (targetShape : list TriangleCoord)
    (pos : nat) : ColorMap * nat :=
  randomizeColorsLoop rng targetShape pos [].

End SrcApp.

Record Candidate := mkCandidate {
  candColors : ColorMap;
  candConnected : Counts;
  priority : nat;
  candAttempt : nat
}.

Record RandomState := mkRandom {
  attempts : nat;
  evaluated : nat;
  found : list SearchResult;
  rngPos : nat
}.

(** Step 1 of [searchStep]: the generation loop. *)
Fixpoint generateCandidates (rng : Rng) (targetShape : list TriangleCoord)
    (currentColors : ColorMap) (batchSize : nat) (attempts pos : nat)
    (candidates : list Candidate) : list Candidate * nat * nat :=
  match batchSize with
  | O => (candidates, attempts, pos)
  | S batchSize =>
      let attempts := S attempts in
      let '(testColors, pos) :=
        randomizeColors rng targetShape currentColors pos in
      let connected := computeConnectedComponents testColors in
      let priority := computePriorityScore connected in
      generateCandidates rng targetShape currentColors batchSize attempts pos
        (candidates ++ [mkCandidate testColors connected priority attempts])
  end.

(** Step 2: [candidates.sort((a, b) => a.priority - b.priority)].  The sort
    of an array is stable, so its result is the stable insertion sort. *)
Fixpoint insertCandidate (c : Candidate) (sorted : list Candidate)
  : list Candidate :=
  match sorted with
  | [] => [c]
  | d :: rest =>
      if (priority c <=? priority d)%nat then c :: d :: rest
      else d :: insertCandidate c rest
  end.

Definition sortCandidates (candidates : list Candidate) : list Candidate :=
  fold_right insertCandidate [] candidates.

(** Step 3: the body of [for (const candidate of candidates)]. *)
Definition evaluateCandidate (st : nat * list SearchResult)
    (candidate : Candidate) : nat * list SearchResult :=
  let '(evaluated, results) := st in
  let evaluated := S evaluated in
  let dets := computeMinorDets (candColors candidate) in
  let allNonZero := allNonZero dets in
  if allNonZero then
    (evaluated,
     results ++ [mkResult (candColors candidate) dets (candAttempt candidate)
                   (candConnected candidate)])
  else (evaluated, results).

(** One animation frame of the randomized search, for a batch size. *)
Definition searchStepWith (batchSize : nat) (rng : Rng)
    (targetShape : list TriangleCoord) (currentColors : ColorMap)
    (stop : bool) (st : RandomState) : RandomState * Status :=
  if stop then (st, Cancelled)
  else
    let '(candidates, attempts, pos) :=
      generateCandidates rng targetShape currentColors batchSize
        (attempts st) (rngPos st) [] in
    let candidates := sortCandidates candidates in
    let '(evaluated, results) :=
      fold_left evaluateCandidate candidates (evaluated st, found st) in
    (mkRandom attempts evaluated results pos, Running).

(** [const batchSize = 1000] *)
Definition searchStep := searchStepWith 1000.


(** The result a passing candidate leaves in the list. *)
Definition resultOf (candidate : Candidate) : SearchResult :=
  mkResult (candColors candidate) (computeMinorDets (candColors candidate))
    (candAttempt candidate) (candConnected candidate).

(** *** Specification vocabulary for the flood fill *)

(** Two cells of the map with the same colour, the second among the three
    neighbours of the first. *)
Definition edge (colorMap : ColorMap) (k n : TriangleCoord) : Prop :=
  In n (neighbors k)
  /\ exists c, map_get colorMap k = Some c /\ map_get colorMap n = Some c.

(** Connected through cells of one colour. *)
Definition conn (colorMap : ColorMap) : relation TriangleCoord :=
  rtc (edge colorMap).

(** A visited set that is a union of whole components. *)
Definition closed (colorMap : ColorMap) (V : gset TriangleCoord) : Prop :=
  forall k n, k ∈ V -> edge colorMap k n -> n ∈ V.

(** The cells of colour [c] not yet visited: the termination measure. *)
Definition unvisited (colorMap : ColorMap) (c : Color) (W : gset TriangleCoord)
  : nat :=
  length (List.filter
            (fun e : TriangleCoord * Color =>
               negb (bool_decide (e.1 ∈ W)) && (e.2 =? c))
            colorMap).

(** The invariant of the [while] loop: [V] the visited set at the call,
    [s] the start cell, [S] the stack and [W] the current visited set. *)
Definition dfsInv (colorMap : ColorMap) (c : Color) (V : gset TriangleCoord)
    (s : TriangleCoord) (S : list TriangleCoord) (W : gset TriangleCoord) : Prop :=
  V ⊆ W
  /\ (forall k, k ∈ W -> k ∈ V \/ conn colorMap s k)
  /\ (forall k, In k S -> conn colorMap s k /\ map_get colorMap k = Some c)
  /\ (forall k n, k ∈ W -> edge colorMap k n -> n ∈ W \/ In n S)
  /\ (s ∈ W \/ In s S).

(** ** Editing and serialization ([handleClick], [generateJSON],
    [handleJsonImport], [handleSaveShape], lines 178-242) *)

(** [Map.delete] *)
Fixpoint map_delete (m : ColorMap) (k : TriangleCoord) : ColorMap :=
  match m with
  | [] => []
  | (k', c) :: m' =>
      if decide (k' = k) then m' else (k', c) :: map_delete m' k
  end.

(** The state update of [handleClick]: the next colouring after a click on
    the cell [key]. *)
Definition handleClick (prev : ColorMap) (key : TriangleCoord) : ColorMap :=
  let currentColor := default 0 (map_get prev key) in
  let nextColor := Z.rem (currentColor + 1) 4 in
  if nextColor =? 0 then map_delete prev key
  else map_set prev key nextColor.

(** A colouring as the editor keeps it: one entry per key, colours 1, 2, 3. *)
Definition wfColors (m : ColorMap) : Prop :=
  NoDup (map fst m) /\ Forall (fun e : TriangleCoord * Color => 1 <= e.2 <= 3) m.

(** [Array.prototype.sort] with a comparator.  The sort is stable, and for a
    consistent comparator its result is that of the stable insertion sort. *)
Fixpoint insertWith {A} (cmp : A -> A -> Z) (a : A) (sorted : list A) : list A :=
  match sorted with
  | [] => [a]
  | b :: rest =>
      if cmp a b <=? 0 then a :: b :: rest else b :: insertWith cmp a rest
  end.

Definition sortWith {A} (cmp : A -> A -> Z) (l : list A) : list A :=
  fold_right (insertWith cmp) [] l.

Definition COLOR_NAMES : list string :=
  ["transparent"%string; "white"%string; "black"%string; "gray"%string].

(** [COLOR_NAMES[color]]; [None] is [undefined]. *)
Definition colorNameOf (c : Color) : option string :=
  if c <? 0 then None else COLOR_NAMES !! Z.to_nat c.

Fixpoint indexOfFrom (name : string) (names : list string) (i : Z) : Z :=
  match names with
  | [] => -1
  | n :: rest =>
      if String.eqb n name then i else indexOfFrom name rest (i + 1)
  end.

(** [COLOR_NAMES.indexOf(item.color)]; a colour that is no string is [None]. *)
Definition indexOfName (name : option string) : Z :=
  match name with
  | Some s => indexOfFrom s COLOR_NAMES 0
  | None => -1
  end.

Module Serial.

(** [ColoredTriangle], the element of the exported array. *)
Record ColoredTriangle := mkItem { coord : TriangleCoord; color : option string }.

(** The comparator of [generateJSON]. *)
Definition compareItems (a b : ColoredTriangle) : Z :=
  if negb (y (coord a) =? y (coord b)) then y (coord b) - y (coord a)
  else if negb (x (coord a) =? x (coord b)) then x (coord a) - x (coord b)
  else if isUp (coord a) then -1 else 1.

(** The array [generateJSON] has before it sorts.  The source pushes
    [parseKey(key)], which is the cell of the key for safe cells. *)
Definition exportItems (colors : ColorMap) : list ColoredTriangle :=
  omap (fun '(key, c) => if c =? 0 then None else Some (mkItem key (colorNameOf c)))
    colors.

Definition generateJSON (colors : ColorMap) : list ColoredTriangle :=
  sortWith compareItems (exportItems colors).

(** The body of [data.forEach] in [handleJsonImport]. *)
Definition importItem (newColors : ColorMap) (item : ColoredTriangle) : ColorMap :=
  let colorIndex := indexOfName (color item) in
  if 0 <? colorIndex then map_set newColors (coord item) colorIndex
  else newColors.

(** [handleJsonImport] on the parsed array. *)
Definition handleJsonImport (data : list ColoredTriangle) : ColorMap :=
  fold_left importItem data [].

(** The order of the exported array: [y] descending, then [x] ascending, then
    the upward cell before the downward one. *)
Definition canonLt (a b : ColoredTriangle) : Prop :=
  y (coord b) < y (coord a)
  \/ (y (coord a) = y (coord b)
      /\ (x (coord a) < x (coord b)
          \/ (x (coord a) = x (coord b)
              /\ isUp (coord a) = true /\ isUp (coord b) = false))).

End Serial.

(** [handleSaveShape]: [parseKey] of the keys, in map order; for safe cells
    the cells of the keys. *)
Definition handleSaveShape (colors : ColorMap) : list TriangleCoord :=
  map fst colors.

(** [handleRandomize], lines 259-271, on the pair (shape, colors) of the
    session; with nothing saved and nothing drawn it only sets a message. *)
Record Session := mkSession {
  sessShape : list TriangleCoord;
  sessColors : ColorMap
}.

(** The shape [handleRandomize] and [handleSearch] work on: the saved one,
    or [parseKey] of the keys of the current colouring when none is saved
    (the cells of the keys, for safe cells); [None] when there is
    neither. *)
Definition targetShapeOf (s : Session) : option (list TriangleCoord) :=
  if (length (sessShape s) =? 0)%nat && (length (sessColors s) =? 0)%nat
  then None
  else if (length (sessShape s) =? 0)%nat then Some (map fst (sessColors s))
       else Some (sessShape s).

Definition handleRandomize (rng : Rng) (pos : nat) (s : Session)
  : Session * nat :=
  match targetShapeOf s with
  | None => (s, pos)
  | Some targetShape =>
      let '(newColors, pos) :=
        randomizeColors rng targetShape (sessColors s) pos in
      (mkSession targetShape newColors, pos)
  end.

(** [totalPatterns], lines 315-319.  The power is the program's
    [Math.pow(3, n)] for n up to 33. *)
Definition totalPatterns (s : Session) : nat :=
  let n := if (0 <? length (sessShape s))%nat then length (sessShape s)
           else length (sessColors s) in
  if (n =? 0)%nat then 0%nat else (3 ^ n)%nat.

(** The frames of the randomized search while nobody asks to stop. *)
Fixpoint searchRunWith (batchSize frames : nat) (rng : Rng)
    (targetShape : list TriangleCoord) (currentColors : ColorMap)
    (st : RandomState) : RandomState * Status :=
  match frames with
  | O => (st, Running)
  | S frames =>
      match searchStepWith batchSize rng targetShape currentColors false st with
      | (st', Running) =>
          searchRunWith batchSize frames rng targetShape currentColors st'
      | done => done
      end
  end.

Definition searchRun := searchRunWith 1000.

(** ** The result table ([sortedResults], [handleSort], lines 476-510) *)

Inductive SortKey := ByAttempt | ByWhite | ByBlack | ByGray | ByTotal.

#[global] Instance SortKey_eq_dec : EqDecision SortKey.
Proof. solve_decision. Defined.

(** The number the comparator takes from a result for a sort key. *)
Definition sortValue (sortKey : SortKey) (r : SearchResult) : Z :=
  match sortKey with
  | ByAttempt => Z.of_nat (attempt r)
  | ByWhite => Z.of_nat (white (connected r))
  | ByBlack => Z.of_nat (black (connected r))
  | ByGray => Z.of_nat (gray (connected r))
  | ByTotal =>
      Z.of_nat (white (connected r)) + Z.of_nat (black (connected r))
      + Z.of_nat (gray (connected r))
  end.

Definition compareResults (sortKey : SortKey) (sortAsc : bool)
    (a b : SearchResult) : Z :=
  let cmp := sortValue sortKey a - sortValue sortKey b in
  if sortAsc then cmp else - cmp.

Definition sortedResults (foundResults : list SearchResult)
    (sortKey : SortKey) (sortAsc : bool) : list SearchResult :=
  sortWith (compareResults sortKey sortAsc) foundResults.

(** [handleSort] on the pair (sortKey, sortAsc). *)
Definition handleSort (st : SortKey * bool) (key : SortKey) : SortKey * bool :=
  if decide (st.1 = key) then (st.1, negb st.2) else (key, true).

(** The order of the table: non-decreasing values when ascending,
    non-increasing when descending. *)
Definition tableOrder (sortKey : SortKey) (sortAsc : bool)
    (a b : SearchResult) : Prop :=
  if sortAsc then sortValue sortKey a <= sortValue sortKey b
  else sortValue sortKey b <= sortValue sortKey a.

(** ** The matrix panel (lines 512-557) *)

(** The [matrix] of the panel: empty when nothing is coloured. *)
Definition displayMatrix (colors : ColorMap) : Matrix :=
  let coloredTriangles := coloredTriangles colors in
  let n := length coloredTriangles in
  if (n =? 0)%nat then [] else buildMatrix coloredTriangles.

(** [allMinorDets] of the panel, from its matrix. *)
Definition allMinorDets (matrix : Matrix) : list (nat * float) :=
  if (length matrix <=? 1)%nat then []
  else
    let mat := toFloats matrix in
    imap (fun i _ => (i, determinant (minorOf mat i))) mat.

(** ** The drawn grid (lines 583-589) *)

(** [(x + y) % 2 === 0] *)
Definition gridIsUp (x y : Z) : bool := Z.rem (x + y) 2 =? 0.

(** The integers [lo], [lo + 1], ..., [hi]. *)
Definition zrange (lo hi : Z) : list Z :=
  map (fun i => lo + Z.of_nat i) (seq 0 (Z.to_nat (hi - lo + 1))).

Definition triangles : list TriangleCoord :=
  flat_map
    (fun y => map (fun x => mkCoord x y (gridIsUp x y)) (zrange (-17) 17))
    (zrange (-9) 8).

(** ** The search of [src/App.tsx] ([handleSearch], lines 246-299): random
    colourings of the whole shape, stopping at the first that passes. *)
Module SrcSearch.

Inductive Outcome :=
| StillRunning
| Found (testColors : ColorMap)
| GaveUp
| Stopped.

(** The batch loop [for (i = 0; i < batchSize && attempts < maxAttempts; i++)];
    the colouring is the one of the early [return]. *)
Fixpoint searchBatch (maxAttempts : nat) (rng : Rng)
    (targetShape : list TriangleCoord) (batchSize : nat) (attempts pos : nat)
  : option ColorMap * nat * nat :=
  match batchSize with
  | O => (None, attempts, pos)
  | S batchSize =>
      if (attempts <? maxAttempts)%nat then
        let attempts := S attempts in
        let '(testColors, pos) := SrcApp.randomizeColors rng targetShape pos in
        let dets := computeMinorDets testColors in
        let allNonZero := allNonZero dets in
        if allNonZero then (Some testColors, attempts, pos)
        else searchBatch maxAttempts rng targetShape batchSize attempts pos
      else (None, attempts, pos)
  end.

(** One animation frame; the state is (attempts, position in the random
    stream). *)
Definition searchStepWith (batchSize maxAttempts : nat) (rng : Rng)
    (targetShape : list TriangleCoord) (stop : bool) (st : nat * nat)
  : (nat * nat) * Outcome :=
  if stop then (st, Stopped)
  else
    let '(found, attempts, pos) :=
      searchBatch maxAttempts rng targetShape batchSize st.1 st.2 in
    match found with
    | Some testColors => ((attempts, pos), Found testColors)
    | None =>
        if (maxAttempts <=? attempts)%nat then ((attempts, pos), GaveUp)
        else ((attempts, pos), StillRunning)
    end.

Fixpoint searchRunWith (batchSize maxAttempts frames : nat) (rng : Rng)
    (targetShape : list TriangleCoord) (st : nat * nat)
  : (nat * nat) * Outcome :=
  match frames with
  | O => (st, StillRunning)
  | S frames =>
      match searchStepWith batchSize maxAttempts rng targetShape false st with
      | (st', StillRunning) =>
          searchRunWith batchSize maxAttempts frames rng targetShape st'
      | done => done
      end
  end.

(** [const maxAttempts = 100000] and [const batchSize = 1000] *)
Definition searchStep := searchStepWith 1000 (100 * 1000).
Definition searchRun := searchRunWith 1000 (100 * 1000).

End SrcSearch.

(** *** Specification vocabulary for the component counts *)

(** The cells of [reps] that have colour [c]. *)
Definition repsOf (colorMap : ColorMap) (c : Color) (reps : list TriangleCoord)
  : nat :=
  length (List.filter (fun k => hasColor colorMap k c) reps).

(** [reps] holds one cell of each component that makes up the visited set
    [V], and nothing else. *)
Definition represents (colorMap : ColorMap) (reps : list TriangleCoord)
    (V : gset TriangleCoord) : Prop :=
  (forall n, n ∈ V <-> exists rep, In rep reps /\ conn colorMap rep n)
  /\ NoDup reps
  /\ (forall a b, In a reps -> In b reps -> conn colorMap a b -> a = b)
  /\ (forall rep, In rep reps -> is_Some (map_get colorMap rep)).

Definition countsOf (colorMap : ColorMap) (reps : list TriangleCoord) : Counts :=
  mkCounts (repsOf colorMap 1 reps) (repsOf colorMap 2 reps)
    (repsOf colorMap 3 reps).

(** ** The index loop and the component counter on binary64 numbers

    The embedding above reads the numbers of the program as integers.  This
    module has the exhaustive index loop and the component counter once
    more, with the numbers as binary64 values and the keys as the strings
    they are, to show where the integer reading ends: at 2^53.  It covers
    the numbers that hold integers below 10^21, whose text is the plain
    decimal one; [None] stands for a number outside them. *)
Module Binary64.

(** The integer a number holds, if it holds one. *)
Definition toZ (f : float) : option Z :=
  match FloatOps.Prim2SF f with
  | SpecFloat.S754_zero _ => Some 0
  | SpecFloat.S754_finite s m e =>
      let magnitude :=
        if 0 <=? e then Some (Z.pos m * 2 ^ e)
        else if Z.rem (Z.pos m) (2 ^ (- e)) =? 0
             then Some (Z.pos m / 2 ^ (- e)) else None in
      option_map (fun v => if s then - v else v) magnitude
  | _ => None
  end.

(** [`${x}`] for a number that holds an integer below 10^21. *)
Definition showNumber (f : float) : option string :=
  z ← toZ f;
  if Z.abs z <? 10 ^ 21 then Some (KeyCodec.showZ z) else None.

Definition getKey (x y : float) (isUp : bool) : option string :=
  sx ← showNumber x;
  sy ← showNumber y;
  Some (String.append sx
          (String "," (String.append sy
                         (String "," (if isUp then "u"%string else "d"%string))))).

(** [parseKey]: the numbers nearest to the integers [parseInt] reads. *)
Definition parseKey (key : string) : option (float * float * bool) :=
  c ← KeyCodec.parseKey key;
  Some (float_of_Z (x c), float_of_Z (y c), isUp c).

Abbreviation KeyMap := (list (string * Color)).

Fixpoint get (m : KeyMap) (key : string) : option Color :=
  match m with
  | [] => None
  | (k, c) :: m' => if String.eqb k key then Some c else get m' key
  end.

Definition has (visited : list string) (key : string) : bool :=
  existsb (String.eqb key) visited.

Definition neighbors (x y : float) (isUp : bool) : list (float * float * bool) :=
  if isUp then
    [ ((x - 1)%float, y, false); ((x + 1)%float, y, false);
      (x, (y - 1)%float, false) ]
  else
    [ ((x - 1)%float, y, true); ((x + 1)%float, y, true);
      (x, (y + 1)%float, true) ].

Definition hasColor (colorMap : KeyMap) (key : string) (targetColor : Color)
  : bool :=
  match get colorMap key with
  | Some c => c =? targetColor
  | None => false
  end.

(** The [while] loop of [dfs], the head of the list being the top of the
    stack; [fuel] bounds the iterations as in [dfsLoop] above. *)
Fixpoint dfsLoop (fuel : nat) (colorMap : KeyMap) (targetColor : Color)
    (stack : list string) (visited : list string) : option (list string) :=
  match stack with
  | [] => Some visited
  | key :: stack =>
      match fuel with
      | O => None
      | S fuel =>
          if has visited key then
            dfsLoop fuel colorMap targetColor stack visited
          else if negb (hasColor colorMap key targetColor) then
            dfsLoop fuel colorMap targetColor stack visited
          else
            let visited := key :: visited in
            '(x, y, isUp) ← parseKey key;
            nKeys ← mapM (fun n : float * float * bool =>
                            getKey n.1.1 n.1.2 n.2)
                      (neighbors x y isUp);
            let pushed :=
              List.filter
                (fun nKey => negb (has visited nKey)
                             && hasColor colorMap nKey targetColor)
                nKeys in
            dfsLoop fuel colorMap targetColor (rev pushed ++ stack) visited
      end
  end.

Definition countEntry (colorMap : KeyMap)
    (st : option (list string * Counts)) (entry : string * Color)
  : option (list string * Counts) :=
  '(visited, result) ← st;
  let '(key, color) := entry in
  if (color =? 0) || has visited key then Some (visited, result)
  else
    visited ← dfsLoop (1 + 3 * length colorMap) colorMap color [key] visited;
    Some (visited, bump color result).

Definition computeConnectedComponents (colorMap : KeyMap) : option Counts :=
  snd <$> fold_left (countEntry colorMap) colorMap (Some ([], mkCounts 0 0 0)).

(** [Math.pow(3, n)]: the number nearest to 3^n. *)
Definition pow3 (n : nat) : float := float_of_Z (3 ^ Z.of_nat n).

(** The batch loop of [exhaustiveStep] on the numbers [i] and
    [currentIndex]; [tested] lists the indices handed to [indexToColors].
    The loop runs at most 1000 times, since [batchSize] is at most 1000. *)
Fixpoint exhaustiveBatch (total batchSize : float) (fuel : nat)
    (i currentIndex : float) (tested : list float) : float * list float :=
  match fuel with
  | O => (currentIndex, tested)
  | S fuel =>
      if (i <? batchSize)%float && (currentIndex <? total)%float then
        exhaustiveBatch total batchSize fuel (i + 1)%float
          (currentIndex + 1)%float (tested ++ [currentIndex])
      else (currentIndex, tested)
  end.

(** One frame with no stop request, from the index [currentIndex]. *)
Definition exhaustiveStep (total currentIndex : float)
  : float * list float * Status :=
  let batchSize :=
    if (total - currentIndex <? 1000)%float then (total - currentIndex)%float
    else 1000%float in
  let '(currentIndex, tested) :=
    exhaustiveBatch total batchSize 1000 zero currentIndex [] in
  (currentIndex, tested,
   if (currentIndex <? total)%float then Running else Completed).

(** 2^53, the first integer whose successor is no binary64 number. *)
Definition two53 : float := 9007199254740992%float.

End Binary64.

(** ** Sample inputs *)

Definition threeCells : list TriangleCoord :=
  [mkCoord 0 0 true; mkCoord 1 0 false; mkCoord 2 0 true].

Definition sampleRng : Rng :=
  fun n => nth n [Draw0; Draw1; Draw2; Draw0; Draw0; Draw1; Draw1; Draw2; Draw1]
             Draw0.

Definition allWhite : ColorMap :=
  [(mkCoord 0 0 true, 1); (mkCoord 1 0 false, 1); (mkCoord 2 0 true, 1)].

Definition singular_example : FMatrix :=
  [[float_of_Z 1; float_of_Z 2]; [float_of_Z 2; float_of_Z 4]].

Definition twoCells : list TriangleCoord :=
  [mkCoord 0 0 true; mkCoord 1 0 false].

Definition heap_example : Heap.heap :=
  [Heap.Nums [float_of_Z 1; float_of_Z 2];
   Heap.Nums [float_of_Z 3; float_of_Z 4];
   Heap.Refs [0; 1]%nat].

(** ** Theorems *)

(** C7: for colours a, b, c in {1,2,3}, the cyclic colour difference is
    ((b-1)-(a-1)+3) mod 3, lies in {0,1,2}, vanishes on equal colours, and for
    distinct colours the two directed differences add up to 3. *)
Theorem relativeColorNum_cyclic (a b c : Z) :
  1 <= a <= 3 -> 1 <= b <= 3 -> 1 <= c <= 3 ->
  relativeColorNum a b = ((b - 1) - (a - 1) + 3) mod 3
  /\ 0 <= relativeColorNum a b <= 2
  /\ relativeColorNum c c = 0
  /\ (a <> b -> relativeColorNum a b + relativeColorNum b a = 3).
Proof.
  intros Ha Hb Hc.
  assert (Ea : a = 1 \/ a = 2 \/ a = 3) by lia.
  assert (Eb : b = 1 \/ b = 2 \/ b = 3) by lia.
  assert (Ec : c = 1 \/ c = 2 \/ c = 3) by lia.
  destruct Ea as [-> | [-> | ->]], Eb as [-> | [-> | ->]],
    Ec as [-> | [-> | ->]]; vm_compute; intuition congruence.
Qed.

Lemma relativeColorNum_cyclic_witness :
  relativeColorNum 1 3 = ((3 - 1) - (1 - 1) + 3) mod 3
  /\ 0 <= relativeColorNum 1 3 <= 2
  /\ relativeColorNum 2 2 = 0
  /\ (1 <> 3 -> relativeColorNum 1 3 + relativeColorNum 3 1 = 3).
Proof. apply (relativeColorNum_cyclic 1 3 2); lia. Defined.

Lemma areAdjacent_sym (a b : TriangleCoord) :
  areAdjacent a b = areAdjacent b a.
Proof.
  destruct a as [ax ay [|]], b as [bx by_ [|]]; unfold areAdjacent; simpl;
    try reflexivity;
    repeat match goal with
           | |- context [?u =? ?v] => destruct (Z.eqb_spec u v)
           end; simpl; try reflexivity; lia.
Qed.

Lemma areAdjacent_same_orientation (a b : TriangleCoord) :
  isUp a = isUp b -> areAdjacent a b = false.
Proof.
  destruct a as [ax ay [|]], b as [bx by_ [|]]; unfold areAdjacent; simpl;
    intros H; try reflexivity; discriminate.
Qed.

(** C8: adjacency is symmetric for all integer coordinates and orientations,
    and two cells of the same orientation are never adjacent. *)
Theorem areAdjacent_symmetric (a b : TriangleCoord) :
  areAdjacent a b = areAdjacent b a
  /\ (isUp a = isUp b -> areAdjacent a b = false).
Proof.
  split.
  - apply areAdjacent_sym.
  - apply areAdjacent_same_orientation.
Qed.

(** ** The signed matrix *)

Example buildMatrix_scenario :
  buildMatrix [mkTri (mkCoord 0 0 true) 1; mkTri (mkCoord 1 0 false) 2]
  = [[1; -1]; [-2; 2]].
Proof. vm_compute. reflexivity. Qed.

Lemma areAdjacent_irrefl (a : TriangleCoord) : areAdjacent a a = false.
Proof. now apply areAdjacent_same_orientation. Qed.

Lemma weight_diag ts i : weight ts i i = 0.
Proof.
  unfold weight. destruct (ts !! i) as [ti|]; [| reflexivity].
  now rewrite areAdjacent_irrefl.
Qed.

Lemma mat_get_lookup (mat : Matrix) i j row :
  mat !! i = Some row -> mat_get mat i j = nth j row 0.
Proof.
  intros H. unfold mat_get. now rewrite (nth_lookup_Some _ _ _ _ H).
Qed.

Lemma alter_out_of_range {A} (f : A -> A) (l : list A) i :
  (length l <= i)%nat -> alter f i l = l.
Proof.
  revert i. induction l as [| a l IH]; intros [| i] H; simpl in *;
    try reflexivity; try lia.
  f_equal. apply IH. lia.
Qed.

Lemma fillEntry_alter ts i (mat : Matrix) j :
  fillEntry ts i mat j = alter (fun row => fillRow ts i row j) i mat.
Proof.
  unfold fillEntry, fillRow.
  destruct (negb (i =? j)%nat); [| symmetry; now apply list_alter_id].
  destruct (ts !! i) as [ti|]; [| symmetry; now apply list_alter_id].
  destruct (ts !! j) as [tj|]; [| symmetry; now apply list_alter_id].
  destruct (areAdjacent (coord ti) (coord tj));
    [| symmetry; now apply list_alter_id].
  cbv zeta. unfold mat_set.
  destruct (mat !! i) as [row|] eqn:Hrow.
  - rewrite (mat_get_lookup _ i i
               (<[j := - relativeColorNum (color ti) (color tj)]> row)).
    + rewrite list_alter_alter_eq.
      apply list_alter_ext; [| reflexivity].
      intros r Hr. rewrite Hrow in Hr. injection Hr as <-. reflexivity.
    + rewrite list_lookup_alter_eq, Hrow. reflexivity.
  - apply lookup_ge_None in Hrow.
    rewrite !alter_out_of_range; try reflexivity; try lia.
    rewrite alter_out_of_range; lia.
Qed.

Lemma fold_fillEntry ts i js (mat : Matrix) :
  fold_left (fillEntry ts i) js mat
  = alter (fun row => fold_left (fillRow ts i) js row) i mat.
Proof.
  revert mat. induction js as [| j js IH]; intros mat; simpl.
  - symmetry. now apply list_alter_id.
  - rewrite IH, fillEntry_alter, list_alter_alter_eq. reflexivity.
Qed.

(** The outer loop touches row [i] only in its iteration [i]. *)
Lemma fold_alter_lookup {A} (f : nat -> A -> A) (is_ : list nat) (l : list A) k :
  NoDup is_ ->
  fold_left (fun l i => alter (f i) i l) is_ l !! k
  = if decide (k ∈ is_) then f k <$> l !! k else l !! k.
Proof.
  intros Hnd. revert l. induction Hnd as [| i is_ Hi Hnd IH]; intros l; simpl.
  - destruct (decide (k ∈ [])) as [H|_]; [inversion H | reflexivity].
  - rewrite IH. destruct (decide (i = k)) as [->|Hne].
    + destruct (decide (k ∈ is_)) as [Hin|_]; [contradiction|].
      rewrite list_lookup_alter_eq.
      destruct (decide (k ∈ k :: is_)) as [_|Hn]; [reflexivity|].
      exfalso. apply Hn. left.
    + rewrite list_lookup_alter_ne by assumption.
      destruct (decide (k ∈ is_)) as [Hin|Hnin];
        destruct (decide (k ∈ i :: is_)) as [Hin'|Hnin']; try reflexivity.
      * exfalso. apply Hnin'. now right.
      * exfalso. apply elem_of_cons in Hin' as [->|?]; [now apply Hne | contradiction].
Qed.

Lemma fold_left_pointwise {A B} (f g : A -> B -> A) (l : list B) (a : A) :
  (forall a b, f a b = g a b) -> fold_left f l a = fold_left g l a.
Proof.
  intros H. revert a. induction l as [| b l IH]; intros a; simpl;
    [reflexivity | now rewrite H, IH].
Qed.

Lemma buildMatrix_lookup ts i :
  (i < length ts)%nat ->
  buildMatrix ts !! i
  = Some (fold_left (fillRow ts i) (seq 0 (length ts)) (replicate (length ts) 0)).
Proof.
  intros Hi. unfold buildMatrix.
  rewrite (fold_left_pointwise _ (fun mat i =>
             alter (fun row => fold_left (fillRow ts i) (seq 0 (length ts)) row) i mat)).
  2:{ intros mat k. apply fold_fillEntry. }
  rewrite (fold_alter_lookup
             (fun i row => fold_left (fillRow ts i) (seq 0 (length ts)) row)).
  2:{ apply NoDup_seq. }
  destruct (decide (i ∈ seq 0 (length ts))) as [_|Hn].
  - unfold zeroMatrix. rewrite lookup_replicate_2 by assumption. reflexivity.
  - exfalso. apply Hn. apply elem_of_seq. lia.
Qed.

Lemma rowAfter_lookup ts i m n k :
  (k < n)%nat ->
  rowAfter ts i m n !! k
  = Some (if (k =? i)%nat then sumZ (map (weight ts i) (seq 0 m))
          else if (k <? m)%nat then - weight ts i k else 0).
Proof.
  intros Hk. unfold rowAfter.
  rewrite list_lookup_fmap, lookup_seq_lt by assumption. reflexivity.
Qed.

Lemma rowAfter_length ts i m n : length (rowAfter ts i m n) = n.
Proof. unfold rowAfter. now rewrite length_fmap, length_seq. Qed.

Lemma sumZ_app l1 l2 : sumZ (l1 ++ l2) = sumZ l1 + sumZ l2.
Proof. induction l1 as [| a l1 IH]; simpl; [reflexivity | lia]. Qed.

Lemma sum_weight_succ ts i m :
  sumZ (map (weight ts i) (seq 0 (S m)))
  = sumZ (map (weight ts i) (seq 0 m)) + weight ts i m.
Proof. rewrite seq_S, map_app, sumZ_app. simpl. lia. Qed.

Lemma weight_lookup ts i j ti tj :
  ts !! i = Some ti -> ts !! j = Some tj ->
  weight ts i j = if areAdjacent (coord ti) (coord tj)
                  then relativeColorNum (color ti) (color tj) else 0.
Proof. intros Hi Hj. unfold weight. now rewrite Hi, Hj. Qed.

Lemma fillRow_rowAfter ts i m n :
  (i < n)%nat -> (m < n)%nat -> n = length ts ->
  fillRow ts i (rowAfter ts i m n) m = rowAfter ts i (S m) n.
Proof.
  intros Hi Hm Hn.
  destruct (lookup_lt_is_Some_2 ts i) as [ti Hti]; [lia|].
  destruct (lookup_lt_is_Some_2 ts m) as [tm Htm]; [lia|].
  pose proof (weight_lookup ts i m ti tm Hti Htm) as Hw.
  apply list_eq. intros k.
  destruct (decide (k < n)%nat) as [Hk|Hk].
  2:{ rewrite !lookup_ge_None_2; [reflexivity | | ].
      - rewrite rowAfter_length. lia.
      - unfold fillRow. repeat case_match;
          rewrite ?length_insert, rowAfter_length; lia. }
  rewrite (rowAfter_lookup ts i (S m) n k Hk), sum_weight_succ.
  unfold fillRow. destruct (Nat.eqb_spec i m) as [->|Hne]; simpl.
  - rewrite rowAfter_lookup by assumption. rewrite weight_diag.
    destruct (Nat.eqb_spec k m) as [->|Hkm]; [f_equal; lia|].
    destruct (Nat.ltb_spec k m), (Nat.ltb_spec k (S m)); try reflexivity; lia.
  - rewrite Hti, Htm.
    destruct (areAdjacent (coord ti) (coord tm)).
    + destruct (Nat.eqb_spec k i) as [->|Hki].
      * rewrite list_lookup_insert_eq
          by (rewrite length_insert, rowAfter_length; lia).
        f_equal. rewrite nth_lookup, list_lookup_insert_ne by lia.
        rewrite rowAfter_lookup by assumption.
        rewrite Nat.eqb_refl, Hw. reflexivity.
      * rewrite list_lookup_insert_ne by lia.
        destruct (decide (k = m)) as [->|Hkm].
        -- rewrite list_lookup_insert_eq by (rewrite rowAfter_length; lia).
           destruct (Nat.ltb_spec m (S m)); [| lia]. now rewrite Hw.
        -- rewrite list_lookup_insert_ne by lia.
           rewrite rowAfter_lookup by assumption.
           destruct (Nat.eqb_spec k i); [lia|].
           destruct (Nat.ltb_spec k m), (Nat.ltb_spec k (S m));
             try reflexivity; lia.
    + rewrite rowAfter_lookup by assumption.
      destruct (Nat.eqb_spec k i) as [->|Hki]; [f_equal; lia|].
      destruct (Nat.ltb_spec k m), (Nat.ltb_spec k (S m));
        try reflexivity; try lia.
      assert (k = m) as -> by lia. now rewrite Hw.
Qed.

Lemma fold_fillRow ts i m n :
  (i < n)%nat -> (m <= n)%nat -> n = length ts ->
  fold_left (fillRow ts i) (seq 0 m) (replicate n 0) = rowAfter ts i m n.
Proof.
  intros Hi Hm Hn. induction m as [| m IH].
  - simpl. apply list_eq. intros k.
    destruct (decide (k < n)%nat) as [Hk|Hk].
    + rewrite rowAfter_lookup, lookup_replicate_2 by assumption.
      simpl. now destruct (k =? i)%nat.
    + rewrite !lookup_ge_None_2; [reflexivity | |].
      * rewrite rowAfter_length. lia.
      * rewrite length_replicate. lia.
  - rewrite seq_S, fold_left_app. simpl. rewrite IH by lia.
    apply fillRow_rowAfter; [assumption | lia | assumption].
Qed.

(** Row [i] of the built matrix, entry by entry. *)
Lemma buildMatrix_row ts i :
  (i < length ts)%nat ->
  buildMatrix ts !! i = Some (rowAfter ts i (length ts) (length ts)).
Proof.
  intros Hi. rewrite buildMatrix_lookup by assumption.
  f_equal. now apply fold_fillRow.
Qed.

Lemma fmap_pick_above (f : nat -> Z) (a : Z) i m :
  (m <= i)%nat ->
  (fun k => if (k =? i)%nat then a else f k) <$> seq 0 m = map f (seq 0 m).
Proof.
  induction m as [| m IHm]; intros Hm; [reflexivity|].
  rewrite seq_S, fmap_app, map_app. rewrite IHm by lia. simpl.
  destruct (Nat.eqb_spec m i); [lia | reflexivity].
Qed.

Lemma sumZ_pick (f : nat -> Z) (a : Z) i n :
  (i < n)%nat ->
  sumZ ((fun k => if (k =? i)%nat then a else f k) <$> seq 0 n)
  = a + sumZ (map f (seq 0 n)) - f i.
Proof.
  intros Hi. induction n as [| n IH]; [lia|].
  rewrite seq_S, fmap_app, map_app, !sumZ_app. simpl.
  destruct (decide (i = n)) as [->|Hne].
  - rewrite Nat.eqb_refl, fmap_pick_above by lia. lia.
  - rewrite IH by lia. destruct (Nat.eqb_spec n i); [lia | lia].
Qed.

Lemma sumZ_opp (f : nat -> Z) l :
  sumZ (map (fun k => - f k) l) = - sumZ (map f l).
Proof. induction l as [| a l IH]; simpl; [reflexivity | lia]. Qed.

Lemma rowAfter_sum ts i n :
  (i < n)%nat -> sumZ (rowAfter ts i n n) = 0.
Proof.
  intros Hi. unfold rowAfter.
  rewrite (list_fmap_ext _
             (fun k => if (k =? i)%nat then sumZ (map (weight ts i) (seq 0 n))
                       else - weight ts i k) (seq 0 n)).
  2:{ intros j k Hk. apply lookup_seq in Hk as [-> Hk].
      destruct (0 + j =? i)%nat; [reflexivity|].
      destruct (Nat.ltb_spec (0 + j) n); [reflexivity | lia]. }
  rewrite (sumZ_pick (fun k => - weight ts i k)) by assumption.
  rewrite sumZ_opp, weight_diag. lia.
Qed.

Lemma map_seq_lookup {A B} (f : nat -> B) (g : A -> B) (l : list A) :
  (forall j a, l !! j = Some a -> f j = g a) ->
  map f (seq 0 (length l)) = map g l.
Proof.
  induction l as [| a l IH] using rev_ind; intros H; [reflexivity|].
  rewrite length_app, Nat.add_1_r, seq_S, !map_app. simpl. f_equal.
  - apply IH. intros j b Hj. apply H. now apply lookup_app_l_Some.
  - f_equal. apply H. rewrite lookup_app_r by lia.
    now rewrite Nat.sub_diag.
Qed.

(** The weights of row [i], read off the cells rather than the indices. *)
Lemma weight_row ts i ti :
  ts !! i = Some ti ->
  map (weight ts i) (seq 0 (length ts))
  = map (fun tj => if areAdjacent (coord ti) (coord tj)
                   then relativeColorNum (color ti) (color tj) else 0) ts.
Proof.
  intros Hti. apply map_seq_lookup. intros j tj Htj.
  now apply weight_lookup.
Qed.

Lemma sumZ_filter {A} (p : A -> bool) (f : A -> Z) (l : list A) :
  sumZ (map (fun a => if p a then f a else 0) l)
  = sumZ (map f (List.filter p l)).
Proof.
  induction l as [| a l IH]; simpl; [reflexivity|].
  destruct (p a); simpl; lia.
Qed.

(** C4: for every ordered list of coloured cells, each row of the built
    matrix sums to exactly 0; the diagonal entry of row i is the sum of
    relDiff(colour i, colour j) over the cells j adjacent to cell i, and an
    off-diagonal entry (i, j) is -relDiff(colour i, colour j) when the two
    cells are adjacent and 0 otherwise. *)
Theorem buildMatrix_row_sum_zero (ts : list ColoredTri) (i : nat) (ti : ColoredTri) :
  ts !! i = Some ti ->
  (exists row, buildMatrix ts !! i = Some row
               /\ length row = length ts /\ sumZ row = 0)
  /\ mat_get (buildMatrix ts) i i
     = sumZ (map (fun tj => relativeColorNum (color ti) (color tj))
               (List.filter (fun tj => areAdjacent (coord ti) (coord tj)) ts))
  /\ (forall j tj, ts !! j = Some tj -> j <> i ->
        mat_get (buildMatrix ts) i j
        = if areAdjacent (coord ti) (coord tj)
          then - relativeColorNum (color ti) (color tj) else 0).
Proof.
  intros Hti. pose proof (lookup_lt_Some _ _ _ Hti) as Hi.
  pose proof (buildMatrix_row ts i Hi) as Hrow.
  split; [| split].
  - eexists. split; [exact Hrow|]. split.
    + apply rowAfter_length.
    + now apply rowAfter_sum.
  - rewrite (mat_get_lookup _ _ _ _ Hrow), nth_lookup.
    rewrite rowAfter_lookup, Nat.eqb_refl by assumption. simpl.
    rewrite (weight_row ts i ti Hti). apply sumZ_filter.
  - intros j tj Htj Hne. pose proof (lookup_lt_Some _ _ _ Htj) as Hj.
    rewrite (mat_get_lookup _ _ _ _ Hrow), nth_lookup.
    rewrite rowAfter_lookup by assumption. simpl.
    destruct (Nat.eqb_spec j i); [contradiction|].
    destruct (Nat.ltb_spec j (length ts)); [| lia].
    rewrite (weight_lookup ts i j ti tj Hti Htj).
    now destruct (areAdjacent (coord ti) (coord tj)).
Qed.

Lemma buildMatrix_row_sum_zero_witness :
  (exists row,
      buildMatrix [mkTri (mkCoord 0 0 true) 1; mkTri (mkCoord 1 0 false) 2] !! 1%nat
      = Some row /\ length row = 2%nat /\ sumZ row = 0)
  /\ mat_get (buildMatrix [mkTri (mkCoord 0 0 true) 1; mkTri (mkCoord 1 0 false) 2])
       1 1 = 2.
Proof.
  destruct (buildMatrix_row_sum_zero
              [mkTri (mkCoord 0 0 true) 1; mkTri (mkCoord 1 0 false) 2] 1
              (mkTri (mkCoord 1 0 false) 2) eq_refl) as (H1 & H2 & _).
  split; [exact H1 | rewrite H2; reflexivity].
Defined.

(** ** The determinant *)

Example determinant_2x2 :
  determinant [[float_of_Z 1; float_of_Z (-1)]; [float_of_Z (-2); float_of_Z 3]]
  = one.
Proof. vm_compute. reflexivity. Qed.

Example scenario_minors :
  computeMinorDets [(mkCoord 0 0 true, 1); (mkCoord 1 0 false, 2)]
  = [(0%nat, two); (1%nat, one)].
Proof. vm_compute. reflexivity. Qed.

Lemma findMaxRow_fold_in (m : FMatrix) i ks start :
  let r := fold_left
             (fun maxRow k =>
                if (abs (fget m maxRow i) <? abs (fget m k i))%float
                then k else maxRow) ks start in
  r = start \/ In r ks.
Proof.
  revert start. induction ks as [| k ks IH]; intros start; simpl; [now left|].
  destruct (abs (fget m start i) <? abs (fget m k i))%float.
  - destruct (IH k) as [-> | H]; [right; now left | right; now right].
  - destruct (IH start) as [-> | H]; [now left | right; now right].
Qed.

Lemma findMaxRow_range (m : FMatrix) i n :
  (i < n)%nat -> (i <= findMaxRow m i n < n)%nat.
Proof.
  intros Hi. unfold findMaxRow.
  destruct (findMaxRow_fold_in m i (seq (S i) (n - S i)) i) as [-> | H];
    [lia|].
  apply in_seq in H. lia.
Qed.

Lemma detLoop_detRun_None n is1 is2 st :
  detRun n is1 st = None -> detLoop n (is1 ++ is2) st = zero.
Proof.
  revert st. induction is1 as [| i is1 IH]; intros st H; simpl in *;
    [discriminate|].
  destruct (detStep n i st) as [st'|]; [now apply IH | reflexivity].
Qed.

Lemma detLoop_detRun_Some n is1 is2 st st' :
  detRun n is1 st = Some st' ->
  detLoop n (is1 ++ is2) st = detLoop n is2 st'.
Proof.
  revert st. induction is1 as [| i is1 IH]; intros st H; simpl in *.
  - now injection H as ->.
  - destruct (detStep n i st) as [st1|]; [now apply IH | discriminate].
Qed.

(** The pivot test of iteration [i] fails when the whole pivot column, from
    row [i] down, is below the pivot threshold. *)
Lemma detStep_singular n i (m : FMatrix) det :
  (i < n)%nat ->
  (forall k, (i <= k < n)%nat -> (abs (fget m k i) <? eps_pivot)%float = true) ->
  detStep n i (m, det) = None.
Proof.
  intros Hi Hcol. unfold detStep.
  now rewrite (Hcol (findMaxRow m i n) (findMaxRow_range m i n Hi)).
Qed.

(** C3: for a square matrix of size at least 2, when the loop reaches
    iteration i and every entry of the pivot column from row i down has
    absolute value below 1e-10 (so the largest one has), the determinant is
    exactly 0 and the later iterations do not run; the determinant of the
    empty matrix is 1 and that of a 1x1 matrix is its entry. *)
Theorem determinant_singular_pivot (matrix m : FMatrix) (i : nat) (det : float) :
  Forall (fun row => length row = length matrix) matrix ->
  (1 < length matrix)%nat ->
  (i < length matrix)%nat ->
  detRun (length matrix) (seq 0 i) (matrix, one) = Some (m, det) ->
  (forall k, (i <= k < length matrix)%nat ->
             (abs (fget m k i) <? eps_pivot)%float = true) ->
  determinant matrix = zero
  /\ detStep (length matrix) i (m, det) = None
  /\ determinant [] = one
  /\ (forall k : float, determinant [[k]] = k).
Proof.
  intros _ Hn Hi Hrun Hcol.
  pose proof (detStep_singular (length matrix) i m det Hi Hcol) as Hstep.
  split; [| split; [exact Hstep | split; [reflexivity | reflexivity]]].
  unfold determinant.
  destruct (Nat.eqb_spec (length matrix) 0) as [E|_]; [lia|].
  destruct (Nat.eqb_spec (length matrix) 1) as [E|_]; [lia|].
  replace (seq 0 (length matrix))
    with (seq 0 i ++ seq i (length matrix - i))
    by (rewrite <- seq_app; f_equal; lia).
  rewrite (detLoop_detRun_Some _ _ _ _ _ Hrun).
  destruct (length matrix - i)%nat as [| r] eqn:E; [lia|].
  cbn [seq detLoop]. now rewrite Hstep.
Qed.

Lemma determinant_singular_pivot_witness :
  determinant singular_example = zero
  /\ detStep 2 1 ([[float_of_Z 2; float_of_Z 4]; [zero; zero]],
                  float_of_Z (-2)) = None
  /\ determinant [] = one
  /\ (forall k : float, determinant [[k]] = k).
Proof.
  apply (determinant_singular_pivot singular_example
           [[float_of_Z 2; float_of_Z 4]; [zero; zero]] 1
           (float_of_Z (-2))).
  - repeat constructor.
  - simpl. lia.
  - simpl. lia.
  - vm_compute. reflexivity.
  - intros k Hk. simpl in Hk. assert (k = 1%nat) as -> by lia.
    vm_compute. reflexivity.
Defined.

(** ** The minors and the pass predicate *)

Lemma filterIdx_delete {A} (l : list A) i start :
  filterIdx (fun r => negb (r =? start + i)%nat) start l = delete i l.
Proof.
  revert i start. induction l as [| a l IH]; intros i start; simpl;
    [reflexivity|].
  destruct i as [| i]; simpl.
  - rewrite Nat.add_0_r, Nat.eqb_refl. simpl.
    clear IH. generalize (Nat.lt_succ_diag_r start).
    generalize (S start) as s. induction l as [| b l IHl]; intros s Hs; simpl;
      [reflexivity|].
    destruct (Nat.eqb_spec s start); [lia|]. simpl. f_equal.
    apply IHl. lia.
  - destruct (Nat.eqb_spec start (start + S i)); [lia|]. simpl. f_equal.
    replace (start + S i)%nat with (S start + i)%nat by lia. apply IH.
Qed.

Lemma minorOf_delete {A} (mat : list (list A)) i :
  minorOf mat i = map (delete i) (delete i mat).
Proof.
  unfold minorOf. pose proof (filterIdx_delete mat i 0) as H.
  simpl in H. rewrite H.
  apply map_ext. intros row. apply (filterIdx_delete row i 0).
Qed.

Lemma fold_alter_length {A} (f : nat -> A -> A) (is_ : list nat) (l : list A) :
  length (fold_left (fun l i => alter (f i) i l) is_ l) = length l.
Proof.
  revert l. induction is_ as [| i is_ IH]; intros l; simpl; [reflexivity|].
  now rewrite IH, length_alter.
Qed.

Lemma buildMatrix_length ts : length (buildMatrix ts) = length ts.
Proof.
  unfold buildMatrix.
  rewrite (fold_left_pointwise _ (fun mat i =>
             alter (fun row => fold_left (fillRow ts i) (seq 0 (length ts)) row) i mat)).
  2:{ intros mat k. apply fold_fillEntry. }
  rewrite (fold_alter_length
             (fun i row => fold_left (fillRow ts i) (seq 0 (length ts)) row)).
  unfold zeroMatrix. apply length_replicate.
Qed.

Lemma signedMatrix_length colorMap :
  length (signedMatrix colorMap) = length (coloredTriangles colorMap).
Proof.
  unfold signedMatrix, toFloats. now rewrite length_map, buildMatrix_length.
Qed.

Lemma computeMinorDets_small colorMap :
  (length (coloredTriangles colorMap) <= 1)%nat -> computeMinorDets colorMap = [].
Proof.
  intros H. unfold computeMinorDets.
  destruct (Nat.leb_spec (length (coloredTriangles colorMap)) 1);
    [reflexivity | lia].
Qed.

Lemma computeMinorDets_large colorMap :
  (2 <= length (coloredTriangles colorMap))%nat ->
  computeMinorDets colorMap
  = imap (fun i _ => (i, Minor colorMap i)) (signedMatrix colorMap).
Proof.
  intros H. unfold computeMinorDets.
  destruct (Nat.leb_spec (length (coloredTriangles colorMap)) 1); [lia|].
  apply imap_ext. intros i row _. unfold Minor, signedMatrix.
  now rewrite minorOf_delete.
Qed.

Lemma forallb_imap_index {A} (g : nat -> float) (p : float -> bool) (l : list A) :
  forallb (fun d : nat * float => p (snd d)) (imap (fun i _ => (i, g i)) l) = true
  <-> (forall i, (i < length l)%nat -> p (g i) = true).
Proof.
  rewrite forallb_forall. split.
  - intros H i Hi. destruct (lookup_lt_is_Some_2 l i Hi) as [a Ha].
    apply (H (i, g i)). apply list_elem_of_In, list_elem_of_lookup.
    exists i. now rewrite list_lookup_imap, Ha.
  - intros H d Hd. apply list_elem_of_In, list_elem_of_lookup in Hd as [i Hi].
    rewrite list_lookup_imap in Hi.
    destruct (l !! i) as [a|] eqn:Ha; [| discriminate].
    injection Hi as <-. simpl. apply H. eapply lookup_lt_Some, Ha.
Qed.




Example scenario_passes :
  passes [(mkCoord 0 0 true, 1); (mkCoord 1 0 false, 2)] = true.
Proof. vm_compute. reflexivity. Qed.

Example single_cell_fails c :
  passes [(mkCoord 0 0 true, c)] = false.
Proof.
  unfold passes. rewrite computeMinorDets_small; [reflexivity|].
  simpl. destruct (c =? 0); simpl; lia.
Qed.

(** ** The component counter *)

Example scenario_components :
  computeConnectedComponents [(mkCoord 0 0 true, 1); (mkCoord 1 0 false, 2)]
  = mkCounts 1 1 0.
Proof. vm_compute. reflexivity. Qed.

Example components_two_whites :
  computeConnectedComponents
    [(mkCoord 0 0 true, 1); (mkCoord 5 5 true, 1); (mkCoord 1 0 false, 1);
     (mkCoord 2 0 true, 3)]
  = mkCounts 2 0 1.
Proof. vm_compute. reflexivity. Qed.

Lemma neighbors_adjacent (k n : TriangleCoord) :
  In n (neighbors k) <-> areAdjacent k n = true.
Proof.
  destruct k as [kx ky [|]], n as [nx ny [|]]; unfold neighbors, areAdjacent;
    simpl; split; intros H;
    repeat match goal with
           | H : _ \/ _ |- _ => destruct H
           | H : False |- _ => destruct H
           | H : mkCoord _ _ _ = mkCoord _ _ _ |- _ => injection H as ? ?
           end; try discriminate;
    repeat match goal with
           | _ : context [?u =? ?v] |- _ => destruct (Z.eqb_spec u v)
           | |- context [?u =? ?v] => destruct (Z.eqb_spec u v)
           end; simpl in *; try reflexivity; try discriminate; try lia;
    try (left; f_equal; lia);
    try (right; left; f_equal; lia);
    try (right; right; left; f_equal; lia).
Qed.

Lemma neighbors_sym (k n : TriangleCoord) :
  In n (neighbors k) -> In k (neighbors n).
Proof. rewrite !neighbors_adjacent, areAdjacent_sym. trivial. Qed.

Lemma neighbors_length k : length (neighbors k) = 3%nat.
Proof. unfold neighbors. now destruct (isUp k). Qed.

Lemma edge_sym cm k n : edge cm k n -> edge cm n k.
Proof.
  intros [Hn (c & Hk & Hc)]. split; [now apply neighbors_sym | eauto].
Qed.

Lemma conn_sym cm k n : conn cm k n -> conn cm n k.
Proof.
  induction 1 as [| a b c Hab _ IH]; [apply rtc_refl|].
  eapply rtc_r; [exact IH | now apply edge_sym].
Qed.

Lemma conn_color cm k n : conn cm k n -> map_get cm k = map_get cm n.
Proof.
  induction 1 as [| a b c [_ (col & Ha & Hb)] _ IH]; [reflexivity|].
  now rewrite Ha, <- IH, Hb.
Qed.

Lemma hasColor_true cm k c : hasColor cm k c = true <-> map_get cm k = Some c.
Proof.
  unfold hasColor. destruct (map_get cm k) as [c'|]; [| split; discriminate].
  rewrite Z.eqb_eq. split; [now intros -> | now intros [= ->]].
Qed.

Lemma unvisited_mono cm c key W :
  (unvisited cm c ({[key]} ∪ W) <= unvisited cm c W)%nat.
Proof.
  unfold unvisited. induction cm as [| [k' c'] cm IH]; simpl; [lia|].
  destruct (bool_decide_reflect (k' ∈ {[key]} ∪ W)) as [H1|H1];
    destruct (bool_decide_reflect (k' ∈ W)) as [H2|H2]; simpl;
    destruct (c' =? c); simpl; try lia.
  exfalso. apply H1, elem_of_union. now right.
Qed.

Lemma unvisited_decreases cm c key W :
  key ∉ W -> map_get cm key = Some c ->
  (unvisited cm c ({[key]} ∪ W) < unvisited cm c W)%nat.
Proof.
  intros Hkey. unfold unvisited.
  induction cm as [| [k' c'] cm IH]; simpl; [discriminate|].
  destruct (decide (k' = key)) as [->|Hne].
  - intros [= ->]. pose proof (unvisited_mono cm c key W) as Hm.
    unfold unvisited in Hm.
    rewrite (bool_decide_eq_true_2 (key ∈ {[key]} ∪ W))
      by (apply elem_of_union; left; now apply elem_of_singleton).
    rewrite (bool_decide_eq_false_2 (key ∈ W)) by assumption.
    rewrite Z.eqb_refl. simpl. lia.
  - intros Hget. specialize (IH Hget).
    destruct (bool_decide_reflect (k' ∈ {[key]} ∪ W)) as [H1|H1];
      destruct (bool_decide_reflect (k' ∈ W)) as [H2|H2]; simpl;
      destruct (c' =? c); simpl; try lia.
    exfalso. apply H1, elem_of_union. now right.
Qed.

Lemma unvisited_bound cm c W : (unvisited cm c W <= length cm)%nat.
Proof. unfold unvisited. apply filter_length_le. Qed.

Lemma filter_neighbors_length (p : TriangleCoord -> bool) key :
  (length (List.filter p (neighbors key)) <= 3)%nat.
Proof.
  rewrite <- (neighbors_length key). apply filter_length_le.
Qed.

Lemma conn_stays_inside cm (W : gset TriangleCoord) s n :
  s ∈ W -> (forall k m, k ∈ W -> edge cm k m -> m ∈ W) ->
  conn cm s n -> n ∈ W.
Proof.
  intros Hs Hstep Hconn. induction Hconn as [| a b d Hab _ IH]; [assumption|].
  apply IH. now apply (Hstep a b).
Qed.

(** The loop empties the stack within the fuel that the measure allows, and
    then the visited set is the old one together with the component of the
    start cell. *)
Lemma dfsLoop_spec cm c V s :
  closed cm V ->
  forall fuel S W,
    dfsInv cm c V s S W ->
    (length S + 3 * unvisited cm c W <= fuel)%nat ->
    exists W', dfsLoop fuel cm c S W = Some W'
               /\ forall n, n ∈ W' <-> n ∈ V \/ conn cm s n.
Proof.
  intros Hclosed fuel.
  induction fuel as [| fuel IH]; intros S W (I1 & I2 & I3 & I4 & I5) Hfuel.
  - destruct S as [| key S]; [| simpl in Hfuel; lia].
    exists W. split; [reflexivity|]. intros n. split; [apply I2|].
    intros [Hn | Hn]; [now apply I1|].
    apply (conn_stays_inside cm W s n); [| | exact Hn].
    + destruct I5 as [?|[]]; assumption.
    + intros k m Hk He. destruct (I4 _ _ Hk He) as [?|[]]; assumption.
  - destruct S as [| key S].
    { exists W. split; [reflexivity|]. intros n. split; [apply I2|].
      intros [Hn | Hn]; [now apply I1|].
      apply (conn_stays_inside cm W s n); [| | exact Hn].
      + destruct I5 as [?|[]]; assumption.
      + intros k m Hk He. destruct (I4 _ _ Hk He) as [?|[]]; assumption. }
    simpl in Hfuel. cbn [dfsLoop].
    destruct (I3 key (or_introl eq_refl)) as [Hconn Hcol].
    destruct (bool_decide_reflect (key ∈ W)) as [Hin|Hnin].
    + apply IH; [| lia].
      split; [exact I1 | split; [exact I2 | split; [| split]]].
      * intros k Hk. apply I3. now right.
      * intros k n Hk He. destruct (I4 k n Hk He) as [?|[<-|?]]; auto.
      * destruct I5 as [?|[<-|?]]; auto.
    + rewrite (proj2 (hasColor_true cm key c) Hcol). cbn [negb].
      apply IH.
      * split; [| split; [| split; [| split]]].
        -- intros k Hk. apply elem_of_union. right. now apply I1.
        -- intros k Hk. apply elem_of_union in Hk as [Hk|Hk]; [| now apply I2].
           apply elem_of_singleton in Hk as ->. now right.
        -- intros k H. apply in_app_or in H as [H|H]; [| apply I3; now right].
           apply in_rev, filter_In in H as [Hnb Hp].
           apply andb_true_iff in Hp as [_ Hp].
           apply hasColor_true in Hp. split; [| exact Hp].
           eapply rtc_r; [exact Hconn|]. split; [exact Hnb | eauto].
        -- intros k n Hk He.
           destruct (decide (n ∈ {[key]} ∪ W)) as [Hn|Hn]; [now left|].
           right. apply in_or_app.
           apply elem_of_union in Hk as [Hk|Hk].
           ++ apply elem_of_singleton in Hk as ->. left.
              apply in_rev. rewrite rev_involutive. apply filter_In.
              destruct He as [Hnb (c' & Hc1 & Hc2)].
              split; [exact Hnb|]. apply andb_true_iff. split.
              ** now rewrite (bool_decide_eq_false_2 _ Hn).
              ** apply hasColor_true. congruence.
           ++ destruct (I4 k n Hk He) as [Hw|[<-|?]]; [| | now right].
              ** exfalso. apply Hn, elem_of_union. now right.
              ** exfalso. apply Hn, elem_of_union. left.
                 now apply elem_of_singleton.
        -- destruct I5 as [Hw|[<-|?]].
           ++ left. apply elem_of_union. now right.
           ++ left. apply elem_of_union. left. now apply elem_of_singleton.
           ++ right. apply in_or_app. now right.
      * pose proof (unvisited_decreases cm c key W Hnin Hcol).
        rewrite length_app, length_rev.
        pose proof (filter_neighbors_length
                      (fun n => negb (bool_decide (n ∈ {[key]} ∪ W))
                                && hasColor cm n c) key).
        lia.
Qed.

Lemma dfsLoop_total cm c :
  forall fuel S W,
    (length S + 3 * unvisited cm c W <= fuel)%nat ->
    is_Some (dfsLoop fuel cm c S W).
Proof.
  induction fuel as [| fuel IH]; intros S W Hfuel.
  - destruct S; [now eexists | simpl in Hfuel; lia].
  - destruct S as [| key S]; [now eexists|].
    simpl in Hfuel. cbn [dfsLoop].
    destruct (bool_decide_reflect (key ∈ W)) as [Hin|Hnin]; [apply IH; lia|].
    destruct (hasColor cm key c) eqn:Hcol; cbn [negb]; [| apply IH; lia].
    apply IH. apply hasColor_true in Hcol.
    pose proof (unvisited_decreases cm c key W Hnin Hcol).
    rewrite length_app, length_rev.
    pose proof (filter_neighbors_length
                  (fun n => negb (bool_decide (n ∈ {[key]} ∪ W))
                            && hasColor cm n c) key).
    lia.
Qed.

(** The flood fill empties its stack within its bound, whatever the visited
    set and the start cell. *)
Lemma dfs_total cm c V s :
  dfsLoop (1 + 3 * length cm) cm c [s] V = Some (dfs cm V s c).
Proof.
  destruct (dfsLoop_total cm c (1 + 3 * length cm) [s] V) as [W HW].
  - pose proof (unvisited_bound cm c V). simpl. lia.
  - unfold dfs. now rewrite HW.
Qed.

Lemma dfsInv_start cm c V s :
  closed cm V -> map_get cm s = Some c -> dfsInv cm c V s [s] V.
Proof.
  intros Hclosed Hs. split; [| split; [| split; [| split]]].
  - intros k Hk. exact Hk.
  - intros k Hk. now left.
  - intros k [<-|[]]. split; [apply rtc_refl | exact Hs].
  - intros k n Hk He. left. now apply (Hclosed k n).
  - right. now left.
Qed.

Lemma dfs_spec cm c V s :
  closed cm V -> map_get cm s = Some c ->
  forall n, n ∈ dfs cm V s c <-> n ∈ V \/ conn cm s n.
Proof.
  intros Hclosed Hs.
  destruct (dfsLoop_spec cm c V s Hclosed (1 + 3 * length cm) [s] V)
    as (W' & HW' & Hspec).
  - now apply dfsInv_start.
  - pose proof (unvisited_bound cm c V). simpl. lia.
  - unfold dfs. now rewrite HW'.
Qed.

Lemma dfs_closed cm c V s :
  closed cm V -> map_get cm s = Some c -> closed cm (dfs cm V s c).
Proof.
  intros Hclosed Hs k n Hk He.
  apply (dfs_spec cm c V s Hclosed Hs).
  apply (dfs_spec cm c V s Hclosed Hs) in Hk as [Hk|Hk].
  - left. now apply (Hclosed k n).
  - right. eapply rtc_r; [exact Hk | exact He].
Qed.

(** What one iteration of the outer loop does to a closed visited set. *)
Lemma countEntry_spec cm V r k c :
  closed cm V -> map_get cm k = Some c ->
  closed cm (countEntry cm (V, r) (k, c)).1
  /\ (((c = 0 \/ k ∈ V) /\ countEntry cm (V, r) (k, c) = (V, r))
      \/ (c <> 0 /\ (k ∉ V)
          /\ (forall n, (n ∈ (countEntry cm (V, r) (k, c)).1)
                        <-> (n ∈ V \/ conn cm k n))
          /\ (countEntry cm (V, r) (k, c)).2 = bump c r)).
Proof.
  intros Hclosed Hk. unfold countEntry.
  destruct (Z.eqb_spec c 0) as [Hc|Hc]; simpl.
  - split; [exact Hclosed | left; split; [now left | reflexivity]].
  - destruct (bool_decide_reflect (k ∈ V)) as [Hin|Hnin]; simpl.
    + split; [exact Hclosed | left; split; [now right | reflexivity]].
    + split; [now apply dfs_closed|]. right.
      split; [exact Hc | split; [exact Hnin | split; [| reflexivity]]].
      now apply dfs_spec.
Qed.

Lemma bump_comm c1 c2 r : bump c1 (bump c2 r) = bump c2 (bump c1 r).
Proof.
  unfold bump.
  destruct (c1 =? 1), (c1 =? 2), (c1 =? 3), (c2 =? 1), (c2 =? 2), (c2 =? 3);
    reflexivity.
Qed.

Lemma conn_class_eq cm k1 k2 n :
  conn cm k1 k2 -> (conn cm k1 n <-> conn cm k2 n).
Proof.
  intros H. pose proof (conn_sym _ _ _ H) as H'. unfold conn in *.
  split; intros Hn.
  - now transitivity k1.
  - now transitivity k2.
Qed.

(** Two consecutive iterations of the outer loop commute. *)
Lemma countEntry_swap cm V r k1 c1 k2 c2 :
  closed cm V -> map_get cm k1 = Some c1 -> map_get cm k2 = Some c2 ->
  countEntry cm (countEntry cm (V, r) (k1, c1)) (k2, c2)
  = countEntry cm (countEntry cm (V, r) (k2, c2)) (k1, c1).
Proof.
  intros Hclosed H1 H2.
  destruct (countEntry_spec cm V r k1 c1 Hclosed H1) as [C1 S1].
  destruct (countEntry_spec cm V r k2 c2 Hclosed H2) as [C2 S2].
  destruct (countEntry cm (V, r) (k1, c1)) as [V1 r1].
  destruct (countEntry cm (V, r) (k2, c2)) as [V2 r2].
  simpl in C1, C2, S1, S2.
  destruct (countEntry_spec cm V1 r1 k2 c2 C1 H2) as [_ S12].
  destruct (countEntry_spec cm V2 r2 k1 c1 C2 H1) as [_ S21].
  destruct (countEntry cm (V1, r1) (k2, c2)) as [V12 r12].
  destruct (countEntry cm (V2, r2) (k1, c1)) as [V21 r21].
  simpl in S12, S21.
  assert (Hext : forall A B : gset TriangleCoord,
             (forall n, n ∈ A <-> n ∈ B) -> A = B).
  { intros A B HAB. apply leibniz_equiv. intros n. apply HAB. }
  destruct S1 as [[Sk1 E1] | (N1 & NV1 & M1 & R1)];
    destruct S2 as [[Sk2 E2] | (N2 & NV2 & M2 & R2)].
  - (* both skipped at V *)
    injection E1 as -> ->. injection E2 as -> ->.
    destruct S12 as [[_ E12] | (N & NV & _)];
      destruct S21 as [[_ E21] | (N' & NV' & _)]; try congruence;
      destruct Sk1, Sk2; contradiction.
  - (* the first skipped, the second counted *)
    injection E1 as -> ->.
    destruct S21 as [[_ E21] | (N & NV & _)].
    + destruct S12 as [[Sk E12] | (_ & _ & M12 & R12)].
      * destruct Sk; contradiction.
      * rewrite E21. f_equal; [| congruence].
        apply Hext. intros n. rewrite M12, M2. reflexivity.
    + exfalso. destruct Sk1 as [?|Hin]; [contradiction|].
      apply NV, M2. now left.
  - (* the first counted, the second skipped *)
    injection E2 as -> ->.
    destruct S12 as [[_ E12] | (N & NV & _)].
    + destruct S21 as [[Sk E21] | (_ & _ & M21 & R21)].
      * destruct Sk; contradiction.
      * rewrite E12. f_equal; [| congruence].
        apply Hext. intros n. rewrite M21, M1. reflexivity.
    + exfalso. destruct Sk2 as [?|Hin]; [contradiction|].
      apply NV, M1. now left.
  - (* both counted at V *)
    destruct (decide (k2 ∈ V1)) as [Hin|Hnin].
    + (* one component *)
      apply M1 in Hin as [?|Hconn]; [contradiction|].
      assert (c1 = c2) as <-
          by (pose proof (conn_color _ _ _ Hconn); congruence).
      destruct S12 as [[_ E12] | (_ & NV & _)].
      2:{ exfalso. apply NV, M1. now right. }
      destruct S21 as [[_ E21] | (_ & NV & _)].
      2:{ exfalso. apply NV, M2. right. now apply conn_sym. }
      rewrite E12, E21. f_equal; [| congruence].
      apply Hext. intros n. rewrite M1, M2.
      now rewrite (conn_class_eq cm k1 k2 n Hconn).
    + (* two components *)
      assert (Hnc : ~ conn cm k1 k2)
        by (intros Hc; apply Hnin, M1; now right).
      destruct S12 as [[[?|?] _] | (_ & _ & M12 & R12)]; try contradiction.
      destruct S21 as [[[?|Hin] _] | (_ & _ & M21 & R21)]; try contradiction.
      { apply M2 in Hin as [?|Hc]; [contradiction|].
        exfalso. now apply Hnc, conn_sym. }
      f_equal.
      * apply Hext. intros n. rewrite M12, M21, M1, M2. tauto.
      * rewrite R12, R21, R1, R2. apply bump_comm.
Qed.

Lemma countLoop_closed cm l :
  (forall k c, In (k, c) l -> map_get cm k = Some c) ->
  forall V r, closed cm V ->
              closed cm (fold_left (countEntry cm) l (V, r)).1.
Proof.
  induction l as [| [k c] l IH]; intros Hl V r HV; cbn [fold_left];
    [exact HV|].
  destruct (countEntry_spec cm V r k c HV) as [C _];
    [apply Hl; now left|].
  destruct (countEntry cm (V, r) (k, c)) as [V1 r1].
  apply IH; [| exact C]. intros k' c' H. apply Hl. now right.
Qed.

(** The outer loop does not depend on the order of its entries. *)
Lemma countLoop_perm cm l1 l2 :
  Permutation l1 l2 ->
  (forall k c, In (k, c) l1 -> map_get cm k = Some c) ->
  forall V r, closed cm V ->
              fold_left (countEntry cm) l1 (V, r)
              = fold_left (countEntry cm) l2 (V, r).
Proof.
  induction 1 as [| [k c] l1 l2 Hp IH | [k1 c1] [k2 c2] l | l1 l2 l3 Hp1 IH1 Hp2 IH2];
    intros Hl V r HV.
  - reflexivity.
  - cbn [fold_left].
    destruct (countEntry_spec cm V r k c HV) as [C _];
      [apply Hl; now left|].
    destruct (countEntry cm (V, r) (k, c)) as [V1 r1].
    apply IH; [| exact C]. intros k' c' H. apply Hl. now right.
  - cbn [fold_left]. rewrite (countEntry_swap cm V r k2 c2 k1 c1 HV).
    + reflexivity.
    + apply Hl. now left.
    + apply Hl. right. now left.
  - rewrite IH1 by assumption. apply IH2; [| assumption].
    intros k c H. apply Hl.
    eapply Permutation_in; [apply Permutation_sym, Hp1 | exact H].
Qed.

Lemma map_get_Some_In cm k c : map_get cm k = Some c -> In (k, c) cm.
Proof.
  induction cm as [| [k' c'] cm IH]; simpl; [discriminate|].
  destruct (decide (k' = k)) as [->|Hne].
  - intros [= ->]. now left.
  - intros H. right. now apply IH.
Qed.

Lemma map_get_In cm k c :
  NoDup (map fst cm) -> In (k, c) cm -> map_get cm k = Some c.
Proof.
  induction cm as [| [k' c'] cm IH]; simpl; intros Hnd Hin; [destruct Hin|].
  apply NoDup_cons in Hnd as [Hk' Hnd].
  destruct (decide (k' = k)) as [->|Hne].
  - destruct Hin as [[= ->]|Hin]; [reflexivity|].
    exfalso. apply Hk'. apply list_elem_of_In, in_map_iff. now exists (k, c).
  - destruct Hin as [[= ? ?]|Hin]; [contradiction|]. now apply IH.
Qed.

Lemma map_get_perm cm1 cm2 k :
  NoDup (map fst cm1) -> Permutation cm1 cm2 ->
  map_get cm1 k = map_get cm2 k.
Proof.
  intros Hnd Hp.
  assert (Hnd2 : NoDup (map fst cm2))
    by (now rewrite <- (Permutation_map fst Hp)).
  destruct (map_get cm1 k) as [c|] eqn:E1.
  - symmetry. apply map_get_In; [exact Hnd2|].
    eapply Permutation_in; [exact Hp | now apply map_get_Some_In].
  - destruct (map_get cm2 k) as [c|] eqn:E2; [| reflexivity].
    apply map_get_Some_In in E2.
    apply (Permutation_in _ (Permutation_sym Hp)) in E2.
    apply (map_get_In _ _ _ Hnd) in E2. congruence.
Qed.

Lemma hasColor_ext cm1 cm2 :
  (forall k, map_get cm1 k = map_get cm2 k) ->
  forall k c, hasColor cm1 k c = hasColor cm2 k c.
Proof. intros H k c. unfold hasColor. now rewrite H. Qed.

Lemma dfsLoop_ext cm1 cm2 :
  (forall k, map_get cm1 k = map_get cm2 k) ->
  forall fuel c S W, dfsLoop fuel cm1 c S W = dfsLoop fuel cm2 c S W.
Proof.
  intros H fuel. induction fuel as [| fuel IH]; intros c S W;
    destruct S as [| key S]; simpl; try reflexivity.
  rewrite !IH, (hasColor_ext cm1 cm2 H key c).
  rewrite (filter_ext _ (fun n => negb (bool_decide (n ∈ {[key]} ∪ W))
                                  && hasColor cm2 n c)); [reflexivity|].
  intros n. now rewrite (hasColor_ext cm1 cm2 H).
Qed.

Lemma countEntry_ext cm1 cm2 :
  (forall k, map_get cm1 k = map_get cm2 k) -> length cm1 = length cm2 ->
  forall st e, countEntry cm1 st e = countEntry cm2 st e.
Proof.
  intros H Hlen [V r] [k c]. unfold countEntry, dfs.
  now rewrite Hlen, (dfsLoop_ext cm1 cm2 H).
Qed.

Lemma closed_empty cm : closed cm ∅.
Proof. intros k n Hk. now apply not_elem_of_empty in Hk. Qed.

(** C9 (as amended): on a colouring of safe cells (integer coordinates below
    2^53 in magnitude) the component counts do not depend on the iteration
    order of the colour map: two maps with the same entries in different
    orders give the same white, black and gray counts.  The bound is where
    the neighbour arithmetic of the flood fill is exact; at 2^53 the counts
    of two cells change with the order ([Binary64], at the end). *)
Theorem computeConnectedComponents_order_independent (cm1 cm2 : ColorMap) :
  safeColors cm1 ->
  NoDup (map fst cm1) ->
  Permutation cm1 cm2 ->
  computeConnectedComponents cm1 = computeConnectedComponents cm2.
Proof.
  intros _ Hnd Hp. unfold computeConnectedComponents. f_equal.
  rewrite (fold_left_pointwise (countEntry cm1) (countEntry cm2)).
  - assert (Hnd2 : NoDup (map fst cm2))
      by (now rewrite <- (Permutation_map fst Hp)).
    apply countLoop_perm; [exact Hp | | apply closed_empty].
    intros k c Hin. apply map_get_In; [exact Hnd2|].
    eapply Permutation_in; [exact Hp | exact Hin].
  - apply countEntry_ext.
    + intros k. now apply map_get_perm.
    + now apply Permutation_length.
Qed.

Lemma computeConnectedComponents_order_independent_witness :
  computeConnectedComponents
    [(mkCoord 0 0 true, 1); (mkCoord 1 0 false, 1); (mkCoord 5 5 true, 2)]
  = computeConnectedComponents
      [(mkCoord 1 0 false, 1); (mkCoord 0 0 true, 1); (mkCoord 5 5 true, 2)].
Proof.
  apply computeConnectedComponents_order_independent.
  - now apply (bool_decide_unpack _).
  - now apply (bool_decide_unpack _).
  - apply perm_swap.
Defined.

(** ** Exhaustive mode *)

Example indexToColors_5 :
  indexToColors 5 twoCells = [(mkCoord 0 0 true, 3); (mkCoord 1 0 false, 2)].
Proof. vm_compute. reflexivity. Qed.

Example exhaustive_twoCells :
  let '(st, status) := exhaustiveRun 1 twoCells exhaustiveStart in
  status = Completed
  /\ tested st = seq 0 9
  /\ map attempt (results st) = [2; 3; 4; 6; 7; 8]%nat.
Proof. vm_compute. repeat split. Qed.

Example exhaustive_oneCell :
  exhaustiveRun 1 [mkCoord 0 0 true] exhaustiveStart
  = (mkExh 3 [] [0; 1; 2]%nat, Completed).
Proof. vm_compute. reflexivity. Qed.

Lemma map_set_fresh (m : ColorMap) k c :
  map_get m k = None -> map_set m k c = m ++ [(k, c)].
Proof.
  induction m as [| [k' c'] m IH]; simpl; [reflexivity|].
  destruct (decide (k' = k)); [discriminate|]. intros H. now rewrite IH.
Qed.

Lemma map_get_app_fresh (m : ColorMap) k c k' :
  k <> k' -> map_get (m ++ [(k, c)]) k' = map_get m k'.
Proof.
  intros Hne. induction m as [| [k0 c0] m IH]; simpl.
  - destruct (decide (k = k')); [contradiction | reflexivity].
  - destruct (decide (k0 = k')); [reflexivity | exact IH].
Qed.

Lemma indexToColorsLoop_zip targetShape :
  NoDup targetShape ->
  forall index acc,
    (forall k, k ∈ targetShape -> map_get acc k = None) ->
    indexToColorsLoop targetShape index acc
    = acc ++ combine targetShape (colorsOfIndex (length targetShape) index).
Proof.
  induction 1 as [| coord rest Hnotin Hnd IH]; intros index acc Hacc; simpl.
  - now rewrite app_nil_r.
  - rewrite map_set_fresh by (apply Hacc; left).
    rewrite IH.
    + now rewrite <- app_assoc.
    + intros k Hk. rewrite map_get_app_fresh.
      * apply Hacc. now right.
      * intros ->. contradiction.
Qed.

(** On a shape of distinct cells the colouring of an index pairs the cells,
    in shape order, with the digits of the index. *)
Lemma indexToColors_zip targetShape index :
  NoDup targetShape ->
  indexToColors index targetShape
  = combine targetShape (colorsOfIndex (length targetShape) index).
Proof.
  intros Hnd. unfold indexToColors.
  now rewrite (indexToColorsLoop_zip targetShape Hnd index []).
Qed.

Lemma colorsOfIndex_length n index : length (colorsOfIndex n index) = n.
Proof.
  revert index. induction n as [| n IH]; intros index; simpl;
    [reflexivity | now rewrite IH].
Qed.

Lemma digit3_succ i index : digit3 (S i) index = digit3 i (index / 3).
Proof.
  unfold digit3. rewrite Nat.pow_succ_r', Nat.Div0.div_div. reflexivity.
Qed.

Lemma colorsOfIndex_lookup n index i :
  (i < n)%nat ->
  colorsOfIndex n index !! i = Some (Z.of_nat (digit3 i index) + 1).
Proof.
  revert index i. induction n as [| n IH]; intros index i Hi; [lia|].
  destruct i as [| i]; simpl.
  - unfold digit3. now rewrite Nat.pow_0_r, Nat.div_1_r.
  - rewrite IH by lia. now rewrite digit3_succ.
Qed.

Lemma map_get_combine (ks : list TriangleCoord) (cs : list Color) i k c :
  NoDup ks -> ks !! i = Some k -> cs !! i = Some c ->
  map_get (combine ks cs) k = Some c.
Proof.
  intros Hnd. revert cs i.
  induction Hnd as [| k0 ks Hnotin Hnd IH]; intros cs i Hk Hc;
    [discriminate|].
  destruct cs as [| c0 cs]; [discriminate|].
  destruct i as [| i]; simpl in *.
  - injection Hk as ->. injection Hc as ->.
    destruct (decide (k = k)); [reflexivity | contradiction].
  - destruct (decide (k0 = k)) as [->|Hne].
    + exfalso. apply Hnotin. eapply list_elem_of_lookup_2, Hk.
    + eapply IH; eassumption.
Qed.

Lemma colorsOfIndex_inj n i1 i2 :
  (i1 < 3 ^ n)%nat -> (i2 < 3 ^ n)%nat ->
  colorsOfIndex n i1 = colorsOfIndex n i2 -> i1 = i2.
Proof.
  revert i1 i2. induction n as [| n IH]; intros i1 i2 H1 H2 E.
  - simpl in *. lia.
  - rewrite Nat.pow_succ_r' in H1, H2. cbn [colorsOfIndex] in E.
    assert (Em : Z.of_nat (i1 mod 3) + 1 = Z.of_nat (i2 mod 3) + 1)
      by congruence.
    assert (Ed : colorsOfIndex n (i1 / 3) = colorsOfIndex n (i2 / 3))
      by congruence.
    clear E.
    assert (i1 / 3 = i2 / 3)%nat.
    { apply IH; [| | exact Ed].
      - apply Nat.Div0.div_lt_upper_bound. lia.
      - apply Nat.Div0.div_lt_upper_bound. lia. }
    rewrite (Nat.div_mod_eq i1 3), (Nat.div_mod_eq i2 3). lia.
Qed.

Lemma colorsOfIndex_surj (cs : list Color) :
  Forall (fun c => 1 <= c <= 3) cs ->
  exists index, (index < 3 ^ length cs)%nat
                /\ colorsOfIndex (length cs) index = cs.
Proof.
  induction 1 as [| c cs Hc _ (index & Hlt & IH)].
  - exists 0%nat. split; [simpl; lia | reflexivity].
  - exists (Z.to_nat (c - 1) + 3 * index)%nat. split.
    + cbn [length]. rewrite Nat.pow_succ_r'. lia.
    + cbn [length colorsOfIndex].
      replace ((Z.to_nat (c - 1) + 3 * index) mod 3)%nat
        with (Z.to_nat (c - 1)).
      2:{ rewrite (Nat.mul_comm 3 index), Nat.Div0.mod_add.
          symmetry. apply Nat.mod_small. lia. }
      replace ((Z.to_nat (c - 1) + 3 * index) / 3)%nat with index.
      2:{ rewrite (Nat.mul_comm 3 index), Nat.div_add by lia.
          rewrite (Nat.div_small (Z.to_nat (c - 1))) by lia. lia. }
      rewrite IH. f_equal. lia.
Qed.

Lemma combine_snd_inj {A B} (ks : list A) (l1 l2 : list B) :
  length l1 = length ks -> length l2 = length ks ->
  combine ks l1 = combine ks l2 -> l1 = l2.
Proof.
  revert l1 l2. induction ks as [| k ks IH]; intros [| a l1] [| b l2] H1 H2 E;
    simpl in *; try reflexivity; try lia.
  injection E as -> E. f_equal. apply IH; [lia | lia | exact E].
Qed.

Lemma exhaustiveCandidate_at targetShape i :
  exhaustiveCandidate targetShape (exhaustiveAt targetShape i)
  = exhaustiveAt targetShape (S i).
Proof.
  unfold exhaustiveCandidate, exhaustiveAt. cbn [currentIndex results tested].
  rewrite seq_S, omap_app. cbn [omap list_omap Nat.add].
  assert (E : resultAt targetShape i
              = if allNonZero (computeMinorDets (indexToColors i targetShape))
                then Some (mkResult (indexToColors i targetShape)
                             (computeMinorDets (indexToColors i targetShape))
                             (i + 1)
                             (computeConnectedComponents
                                (indexToColors i targetShape)))
                else None) by reflexivity.
  rewrite E.
  destruct (allNonZero (computeMinorDets (indexToColors i targetShape)));
    [reflexivity | now rewrite app_nil_r].
Qed.

Lemma exhaustiveBatch_at targetShape total batchSize i :
  (i + batchSize <= total)%nat ->
  exhaustiveBatch targetShape total batchSize (exhaustiveAt targetShape i)
  = exhaustiveAt targetShape (i + batchSize).
Proof.
  revert i. induction batchSize as [| b IH]; intros i Hle; simpl.
  - now rewrite Nat.add_0_r.
  - destruct (Nat.ltb_spec i total); [| lia].
    rewrite exhaustiveCandidate_at, IH by lia. f_equal. lia.
Qed.

(** With the stop flag never set, the frames run until every index below
    [3^N] has been handled, each once and in order. *)
Lemma exhaustiveRun_completes targetShape n :
  forall i,
    (i <= 3 ^ length targetShape)%nat ->
    (3 ^ length targetShape - i <= n)%nat ->
    exists frames,
      exhaustiveRun frames targetShape (exhaustiveAt targetShape i)
      = (exhaustiveAt targetShape (3 ^ length targetShape), Completed).
Proof.
  induction n as [| n IH]; intros i Hle Hn.
  - exists 1%nat. cbn [exhaustiveRun]. unfold exhaustiveStep.
    cbn [currentIndex exhaustiveAt].
    assert (i = 3 ^ length targetShape)%nat as -> by lia.
    rewrite Nat.sub_diag, Nat.min_0_r. cbn [exhaustiveBatch].
    cbn [currentIndex]. now rewrite Nat.ltb_irrefl.
  - set (total := (3 ^ length targetShape)%nat) in *.
    set (b := Nat.min 1000 (total - i)).
    assert (Hstep : exhaustiveStep targetShape false (exhaustiveAt targetShape i)
                    = (exhaustiveAt targetShape (i + b),
                       if (i + b <? total)%nat then Running else Completed)).
    { unfold exhaustiveStep. fold total. cbn [currentIndex exhaustiveAt]. fold b.
      fold (exhaustiveAt targetShape i).
      rewrite exhaustiveBatch_at by (unfold b; lia).
      cbn [currentIndex exhaustiveAt].
      now destruct (i + b <? total)%nat. }
    destruct (Nat.ltb_spec (i + b) total) as [Hlt|Hge].
    + destruct (IH (i + b)%nat) as [frames Hrun]; [lia | unfold b; lia |].
      exists (S frames). cbn [exhaustiveRun]. now rewrite Hstep.
    + exists 1%nat. cbn [exhaustiveRun]. rewrite Hstep.
      f_equal. f_equal. unfold b in *. lia.
Qed.

Lemma resultAt_attempt targetShape index r :
  resultAt targetShape index = Some r ->
  attempt r = (index + 1)%nat
  /\ colors r = indexToColors index targetShape
  /\ passes (colors r) = true.
Proof.
  unfold resultAt.
  destruct (passes (indexToColors index targetShape)) eqn:E; [| discriminate].
  intros [= <-]. simpl. auto.
Qed.

(** C2 (as amended): on a shape of N distinct cells, N at most 33, the
    colouring of an index below 3^N gives cell i the colour (digit i of the
    index in base 3) + 1; the map from [0, 3^N) to the colourings of the
    shape with colours 1, 2, 3 is one-to-one and onto; the exhaustive
    search, left to run, completes having handled exactly the indices 0, 1,
    ..., 3^N - 1, each once and in this order, and its results are the
    passing candidates, each with attempt = index + 1.  Up to 33 cells every
    index is a number the program counts exactly (3^33 < 2^53); with 34
    cells the index stops advancing at 2^53 ([Binary64], at the end). *)
Theorem exhaustive_enumerates (targetShape : list TriangleCoord) :
  NoDup targetShape ->
  (length targetShape <= 33)%nat ->
  let N := length targetShape in
  (forall index i cell,
      (index < 3 ^ N)%nat ->
      targetShape !! i = Some cell ->
      map_get (indexToColors index targetShape) cell
      = Some (Z.of_nat (digit3 i index) + 1))
  /\ (forall i1 i2,
         (i1 < 3 ^ N)%nat -> (i2 < 3 ^ N)%nat ->
         indexToColors i1 targetShape = indexToColors i2 targetShape ->
         i1 = i2)
  /\ (forall cs : list Color,
         length cs = N -> Forall (fun c => 1 <= c <= 3) cs ->
         exists index, (index < 3 ^ N)%nat
                       /\ indexToColors index targetShape
                          = combine targetShape cs)
  /\ (exists frames st,
         exhaustiveRun frames targetShape exhaustiveStart = (st, Completed)
         /\ currentIndex st = (3 ^ N)%nat
         /\ tested st = seq 0 (3 ^ N)
         /\ results st = omap (resultAt targetShape) (seq 0 (3 ^ N)))
  /\ (forall index r,
         (index < 3 ^ N)%nat ->
         resultAt targetShape index = Some r ->
         attempt r = (index + 1)%nat
         /\ colors r = indexToColors index targetShape).
Proof.
  intros Hnd _ N. split; [| split; [| split; [| split]]].
  - intros index i cell _ Hcell.
    rewrite indexToColors_zip by assumption.
    eapply map_get_combine; [exact Hnd | exact Hcell |].
    apply colorsOfIndex_lookup. eapply lookup_lt_Some, Hcell.
  - intros i1 i2 H1 H2 E. rewrite !indexToColors_zip in E by assumption.
    apply combine_snd_inj in E; try apply colorsOfIndex_length.
    now apply (colorsOfIndex_inj N).
  - intros cs Hlen Hcs.
    destruct (colorsOfIndex_surj cs Hcs) as (index & Hlt & E).
    rewrite Hlen in Hlt, E. exists index. split; [exact Hlt|].
    rewrite indexToColors_zip by assumption. fold N. now rewrite E.
  - destruct (exhaustiveRun_completes targetShape (3 ^ N) 0) as [frames Hrun];
      [lia | fold N; lia |].
    exists frames, (exhaustiveAt targetShape (3 ^ N)).
    split; [exact Hrun | repeat split].
  - intros index r _ Hr.
    destruct (resultAt_attempt _ _ _ Hr) as (Ha & Hc & _). now split.
Qed.

Lemma exhaustive_enumerates_witness :
  map_get (indexToColors 5 twoCells) (mkCoord 1 0 false) = Some 2
  /\ exists frames st,
      exhaustiveRun frames twoCells exhaustiveStart = (st, Completed)
      /\ tested st = seq 0 9.
Proof.
  destruct (exhaustive_enumerates twoCells) as (H1 & _ & _ & H4 & _).
  - now apply (bool_decide_unpack _).
  - simpl. lia.
  - split.
    + apply (H1 5%nat 1%nat); [simpl; lia | reflexivity].
    + destruct H4 as (frames & st & Hrun & _ & Ht & _).
      exists frames, st. split; [exact Hrun | exact Ht].
Defined.

(** ** Randomized mode: the chunk *)

Lemma insertCandidate_perm c l : Permutation (c :: l) (insertCandidate c l).
Proof.
  induction l as [| d l IH]; simpl; [reflexivity|].
  destruct (priority c <=? priority d)%nat; [reflexivity|].
  rewrite perm_swap. now apply perm_skip.
Qed.

Lemma sortCandidates_perm l : Permutation l (sortCandidates l).
Proof.
  induction l as [| c l IH]; simpl; [reflexivity|].
  rewrite <- insertCandidate_perm. now apply perm_skip.
Qed.



Lemma evaluateCandidates_fold cands evaluated results :
  fold_left evaluateCandidate cands (evaluated, results)
  = ((evaluated + length cands)%nat,
     results ++ map resultOf
                  (List.filter (fun c => passes (candColors c)) cands)).
Proof.
  revert evaluated results.
  induction cands as [| c cands IH]; intros evaluated results; simpl.
  - now rewrite Nat.add_0_r, app_nil_r.
  - unfold passes at 1.
    destruct (allNonZero (computeMinorDets (candColors c))); rewrite IH.
    + simpl. rewrite <- app_assoc. f_equal. lia.
    + f_equal. lia.
Qed.

(** The candidates of one chunk, numbered in generation order. *)
Lemma generateCandidates_spec rng targetShape currentColors batchSize :
  forall attempts pos acc,
    exists gen pos',
      generateCandidates rng targetShape currentColors batchSize attempts pos acc
      = (acc ++ gen, (attempts + batchSize)%nat, pos')
      /\ length gen = batchSize
      /\ forall i c,
           gen !! i = Some c ->
           candAttempt c = (attempts + i + 1)%nat
           /\ candConnected c = computeConnectedComponents (candColors c)
           /\ priority c = (white (candConnected c) * black (candConnected c)
                            * gray (candConnected c))%nat
           /\ exists p, candColors c
                        = (randomizeColors rng targetShape currentColors p).1.
Proof.
  induction batchSize as [| b IH]; intros attempts pos acc.
  - exists [], pos. simpl. rewrite app_nil_r, Nat.add_0_r.
    split; [reflexivity | split; [reflexivity|]]. intros i c H. discriminate.
  - cbn [generateCandidates].
    destruct (randomizeColors rng targetShape currentColors pos)
      as [testColors pos1] eqn:E.
    destruct (IH (S attempts) pos1
                (acc ++ [mkCandidate testColors
                           (computeConnectedComponents testColors)
                           (computePriorityScore
                              (computeConnectedComponents testColors))
                           (S attempts)]))
      as (gen & pos' & Hgen & Hlen & Hall).
    exists (mkCandidate testColors (computeConnectedComponents testColors)
              (computePriorityScore (computeConnectedComponents testColors))
              (S attempts) :: gen), pos'.
    split; [| split].
    + rewrite Hgen, <- app_assoc. simpl. do 2 f_equal. lia.
    + simpl. now rewrite Hlen.
    + intros [| i] c Hc; simpl in Hc.
      * injection Hc as <-. simpl.
        split; [lia | split; [reflexivity | split; [reflexivity|]]].
        exists pos. now rewrite E.
      * destruct (Hall i c Hc) as (H1 & H2 & H3 & H4).
        split; [lia | split; [exact H2 | split; [exact H3 | exact H4]]].
Qed.


(** The third candidate generated is evaluated, and found, before the first:
    the results carry the numbers 3 and 1, not the sorted positions. *)
Example searchStep_attempt_numbers :
  let '(st, status) :=
    searchStepWith 3 sampleRng threeCells allWhite false (mkRandom 0 0 [] 0) in
  map (fun c => (candAttempt c, priority c))
    (sortCandidates
       (generateCandidates sampleRng threeCells allWhite 3 0 0 []).1.1)
  = [(2, 0); (3, 0); (1, 1)]%nat
  /\ map attempt (found st) = [3; 1]%nat
  /\ attempts st = 3%nat /\ evaluated st = 3%nat /\ status = Running.
Proof. vm_compute. repeat split. Qed.

(** ** Randomized mode: the drawn colouring *)

Lemma map_get_map_set (m : ColorMap) k c k' :
  map_get (map_set m k c) k' = if decide (k = k') then Some c else map_get m k'.
Proof.
  induction m as [| [k0 c0] m IH]; simpl.
  - reflexivity.
  - destruct (decide (k0 = k)) as [->|Hne]; simpl.
    + destruct (decide (k = k')); reflexivity.
    + destruct (decide (k0 = k')) as [->|Hne'].
      * destruct (decide (k = k')); [congruence | reflexivity].
      * exact IH.
Qed.

Lemma drawValue_range d : 1 <= drawValue d + 1 <= 3.
Proof. destruct d; simpl; lia. Qed.

Lemma randomizeColorsLoop_domain rng currentColors targetShape :
  forall pos acc k,
    is_Some (map_get (randomizeColorsLoop rng targetShape currentColors pos acc).1 k)
    <-> is_Some (map_get acc k)
        \/ (k ∈ targetShape /\ currentlyColored currentColors k = true).
Proof.
  induction targetShape as [| coord rest IH]; intros pos acc k;
    cbn [randomizeColorsLoop].
  - split; [now left | intros [H|[H _]]; [exact H | inversion H]].
  - unfold currentlyColored at 1.
    assert (Hskip :
              is_Some (map_get (randomizeColorsLoop rng rest currentColors pos acc).1 k)
              <-> is_Some (map_get acc k)
                  \/ (k ∈ rest /\ currentlyColored currentColors k = true))
      by apply IH.
    destruct (map_get currentColors coord) as [cur|] eqn:Ecur.
    + destruct (Z.eqb_spec cur 0) as [Hz|Hnz].
      * rewrite Hskip. split; intros [H|[H1 H2]]; auto.
        -- right. split; [now right | exact H2].
        -- apply elem_of_cons in H1 as [->|H1]; [| now right].
           unfold currentlyColored in H2. rewrite Ecur, Hz in H2.
           discriminate.
      * rewrite IH, map_get_map_set. split.
        -- intros [H|[H1 H2]].
           ++ destruct (decide (coord = k)) as [->|Hne]; [| now left].
              right. split; [left|]. unfold currentlyColored.
              rewrite Ecur. now destruct (Z.eqb_spec cur 0).
           ++ right. split; [now right | exact H2].
        -- intros [H|[H1 H2]].
           ++ left. destruct (decide (coord = k)); [eauto | exact H].
           ++ apply elem_of_cons in H1 as [->|H1]; [| now right].
              left. destruct (decide (coord = coord)); [eauto | contradiction].
    + rewrite Hskip. split; intros [H|[H1 H2]]; auto.
      * right. split; [now right | exact H2].
      * apply elem_of_cons in H1 as [->|H1]; [| now right].
        unfold currentlyColored in H2. rewrite Ecur in H2. discriminate.
Qed.

Lemma randomizeColorsLoop_colors rng currentColors targetShape :
  forall pos acc k c,
    map_get (randomizeColorsLoop rng targetShape currentColors pos acc).1 k
    = Some c ->
    map_get acc k = Some c \/ 1 <= c <= 3.
Proof.
  induction targetShape as [| coord rest IH]; intros pos acc k c;
    cbn [randomizeColorsLoop]; [now left|].
  destruct (map_get currentColors coord) as [cur|]; [| apply IH].
  destruct (cur =? 0); [apply IH|].
  intros H. apply IH in H as [H|H]; [| now right].
  rewrite map_get_map_set in H.
  destruct (decide (coord = k)); [| now left].
  injection H as <-. right. apply drawValue_range.
Qed.

Lemma drawnColors_succ rng pos k :
  drawnColors rng pos (S k)
  = (drawValue (rng pos) + 1) :: drawnColors rng (S pos) k.
Proof.
  unfold drawnColors. cbn [seq map]. rewrite Nat.add_0_r. f_equal.
  rewrite <- seq_shift, map_map. apply map_ext. intros j.
  now rewrite Nat.add_succ_r.
Qed.

Lemma randomizeColorsLoop_colored rng currentColors coord rest pos acc :
  currentlyColored currentColors coord = true ->
  randomizeColorsLoop rng (coord :: rest) currentColors pos acc
  = randomizeColorsLoop rng rest currentColors (S pos)
      (map_set acc coord (drawValue (rng pos) + 1)).
Proof.
  unfold currentlyColored. cbn [randomizeColorsLoop].
  destruct (map_get currentColors coord) as [cur|]; [| discriminate].
  destruct (cur =? 0); [discriminate | reflexivity].
Qed.

Lemma randomizeColorsLoop_blank rng currentColors coord rest pos acc :
  currentlyColored currentColors coord = false ->
  randomizeColorsLoop rng (coord :: rest) currentColors pos acc
  = randomizeColorsLoop rng rest currentColors pos acc.
Proof.
  unfold currentlyColored. cbn [randomizeColorsLoop].
  destruct (map_get currentColors coord) as [cur|]; [| reflexivity].
  destruct (cur =? 0); [reflexivity | discriminate].
Qed.

(** On a shape of distinct cells: the coloured cells in shape order, each
    with the colour of its own draw. *)
Lemma randomizeColorsLoop_zip rng currentColors targetShape :
  NoDup targetShape ->
  forall pos acc,
    (forall k, k ∈ targetShape -> map_get acc k = None) ->
    randomizeColorsLoop rng targetShape currentColors pos acc
    = (acc ++ combine (List.filter (currentlyColored currentColors) targetShape)
                (drawnColors rng pos
                   (length (List.filter (currentlyColored currentColors)
                              targetShape))),
       (pos + length (List.filter (currentlyColored currentColors)
                        targetShape))%nat).
Proof.
  induction 1 as [| coord rest Hnotin Hnd IH]; intros pos acc Hacc.
  - simpl. now rewrite app_nil_r, Nat.add_0_r.
  - assert (Hrest : forall k, k ∈ rest -> map_get acc k = None)
      by (intros k Hk; apply Hacc; now right).
    cbn [List.filter].
    destruct (currentlyColored currentColors coord) eqn:E.
    + rewrite randomizeColorsLoop_colored by exact E. rewrite IH.
      * cbn [length]. rewrite drawnColors_succ. cbn [combine].
        rewrite map_set_fresh by (apply Hacc; left).
        rewrite <- app_assoc. simpl. f_equal. lia.
      * intros k Hk. rewrite map_get_map_set.
        destruct (decide (coord = k)) as [->|Hne]; [contradiction|].
        now apply Hrest.
    + rewrite randomizeColorsLoop_blank by exact E. now apply IH.
Qed.

Lemma SrcApp_randomizeColorsLoop_domain rng targetShape :
  forall pos acc k,
    is_Some (map_get (SrcApp.randomizeColorsLoop rng targetShape pos acc).1 k)
    <-> is_Some (map_get acc k) \/ k ∈ targetShape.
Proof.
  induction targetShape as [| coord rest IH]; intros pos acc k;
    cbn [SrcApp.randomizeColorsLoop].
  - split; [now left | intros [H|H]; [exact H | inversion H]].
  - rewrite IH, map_get_map_set. split.
    + intros [H|H]; [| right; now right].
      destruct (decide (coord = k)) as [->|Hne]; [right; left | now left].
    + intros [H|H].
      * left. destruct (decide (coord = k)); [eauto | exact H].
      * apply elem_of_cons in H as [->|H]; [| now right].
        left. destruct (decide (coord = coord)); [eauto | contradiction].
Qed.

Lemma coloredTriangles_coords (colorMap : ColorMap) cell :
  (forall k c, map_get colorMap k = Some c -> c <> 0) ->
  NoDup (map fst colorMap) ->
  In cell (map coord (coloredTriangles colorMap))
  <-> is_Some (map_get colorMap cell).
Proof.
  intros Hnz Hnd. unfold coloredTriangles. split.
  - intros H. apply in_map_iff in H as (t & <- & Ht).
    apply list_elem_of_In, list_elem_of_omap in Ht as ([k c] & Hin & Hsome).
    destruct (c =? 0); [discriminate|]. injection Hsome as <-. simpl.
    exists c. apply map_get_In; [exact Hnd | now apply list_elem_of_In].
  - intros [c Hc]. apply in_map_iff. exists (mkTri cell c). split; [reflexivity|].
    apply list_elem_of_In, list_elem_of_omap. exists (cell, c).
    split; [apply list_elem_of_In; now apply map_get_Some_In|].
    destruct (Z.eqb_spec c 0) as [->|_]; [| reflexivity].
    exfalso. now apply (Hnz cell 0).
Qed.

Lemma map_set_keys (m : ColorMap) k c :
  map fst (map_set m k c)
  = if decide (k ∈ map fst m) then map fst m else map fst m ++ [k].
Proof.
  induction m as [| [k0 c0] m IH]; simpl.
  - destruct (decide (k ∈ [])) as [H|_]; [inversion H | reflexivity].
  - destruct (decide (k0 = k)) as [->|Hne]; simpl.
    + destruct (decide (k ∈ k :: map fst m)) as [_|Hn]; [reflexivity|].
      exfalso. apply Hn. left.
    + rewrite IH.
      destruct (decide (k ∈ map fst m)) as [Hin|Hnin];
        destruct (decide (k ∈ k0 :: map fst m)) as [Hin'|Hnin'];
        try reflexivity.
      * exfalso. apply Hnin'. now right.
      * exfalso. apply elem_of_cons in Hin' as [->|?]; contradiction.
Qed.

Lemma map_set_NoDup (m : ColorMap) k c :
  NoDup (map fst m) -> NoDup (map fst (map_set m k c)).
Proof.
  intros Hnd. rewrite map_set_keys.
  destruct (decide (k ∈ map fst m)) as [Hin|Hnin]; [exact Hnd|].
  apply NoDup_app. split; [exact Hnd | split].
  - intros k' Hk' Hin. apply list_elem_of_singleton in Hin as ->. contradiction.
  - apply NoDup_singleton.
Qed.

Lemma randomizeColorsLoop_NoDup rng currentColors targetShape :
  forall pos acc,
    NoDup (map fst acc) ->
    NoDup (map fst (randomizeColorsLoop rng targetShape currentColors pos acc).1).
Proof.
  induction targetShape as [| coord rest IH]; intros pos acc Hacc;
    cbn [randomizeColorsLoop]; [exact Hacc|].
  destruct (map_get currentColors coord) as [cur|]; [| now apply IH].
  destruct (cur =? 0); [now apply IH|].
  apply IH. now apply map_set_NoDup.
Qed.

(** C6 (as amended): the colouring drawn by the two-argument
    [randomizeColors] of the chunked randomized mode colours exactly the shape
    cells that the current colouring colours, each with a colour in {1,2,3}
    that is the value of its own fresh draw plus one, so that the other shape
    cells stay out of the map and of the matrix rows; the one-argument
    [randomizeColors] of [src/App.tsx] colours every shape cell. *)
Theorem randomizeColors_restricted (rng : Rng) (targetShape : list TriangleCoord)
    (currentColors : ColorMap) (pos : nat) :
  let newColors := (randomizeColors rng targetShape currentColors pos).1 in
  let cells := List.filter (currentlyColored currentColors) targetShape in
  (forall cell,
      is_Some (map_get newColors cell)
      <-> cell ∈ targetShape /\ currentlyColored currentColors cell = true)
  /\ (forall cell c, map_get newColors cell = Some c -> 1 <= c <= 3)
  /\ (forall cell,
         In cell (map coord (coloredTriangles newColors))
         <-> cell ∈ targetShape /\ currentlyColored currentColors cell = true)
  /\ (NoDup targetShape ->
      randomizeColors rng targetShape currentColors pos
      = (combine cells (drawnColors rng pos (length cells)),
         (pos + length cells)%nat))
  /\ (forall cell,
         is_Some (map_get (SrcApp.randomizeColors rng targetShape pos).1 cell)
         <-> cell ∈ targetShape).
Proof.
  intros newColors cells.
  assert (Hdom : forall cell,
             is_Some (map_get newColors cell)
             <-> cell ∈ targetShape /\ currentlyColored currentColors cell = true).
  { intros cell. unfold newColors, randomizeColors.
    rewrite randomizeColorsLoop_domain. simpl. split.
    - intros [[c Hc]|H]; [discriminate | exact H].
    - intros H. now right. }
  assert (Hcol : forall cell c, map_get newColors cell = Some c -> 1 <= c <= 3).
  { intros cell c Hc. unfold newColors, randomizeColors in Hc.
    apply randomizeColorsLoop_colors in Hc as [Hc|Hc]; [discriminate | exact Hc]. }
  split; [exact Hdom | split; [exact Hcol | split; [| split]]].
  - intros cell. rewrite <- Hdom. apply coloredTriangles_coords.
    + intros k c Hc. apply Hcol in Hc. lia.
    + unfold newColors, randomizeColors. apply randomizeColorsLoop_NoDup.
      constructor.
  - intros Hnd. unfold randomizeColors.
    now rewrite (randomizeColorsLoop_zip rng currentColors targetShape Hnd pos []).
  - intros cell. unfold SrcApp.randomizeColors.
    rewrite SrcApp_randomizeColorsLoop_domain. simpl. split.
    + intros [[c Hc]|H]; [discriminate | exact H].
    + intros H. now right.
Qed.

(** The claim as stated fails on the [randomizeColors] of [src/App.tsx]: a
    shape cell that the current colouring does not colour gets a colour. *)
Lemma SrcApp_randomizeColors_colors_blank_cell :
  let cell := mkCoord 0 0 true in
  let currentColors : ColorMap := [] in
  currentlyColored currentColors cell = false
  /\ map_get (SrcApp.randomizeColors (fun _ => Draw1) [cell] 0).1 cell = Some 2.
Proof. vm_compute. split; reflexivity. Qed.

Example randomizeColors_skips_blank :
  randomizeColors (fun _ => Draw1)
    [mkCoord 0 0 true; mkCoord 1 0 false; mkCoord 2 0 true]
    [(mkCoord 0 0 true, 3); (mkCoord 2 0 true, 1)] 0
  = ([(mkCoord 0 0 true, 2); (mkCoord 2 0 true, 2)], 2%nat).
Proof. vm_compute. reflexivity. Qed.

(** ** The determinant on the heap *)

Lemma readNums_insert_ne (h : Heap.heap) a b o :
  a <> b -> Heap.readNums (<[b := o]> h) a = Heap.readNums h a.
Proof.
  intros Hne. unfold Heap.readNums.
  now rewrite list_lookup_insert_ne by congruence.
Qed.

Lemma readNums_insert_eq (h : Heap.heap) a elems old :
  Heap.readNums h a = Some old ->
  Heap.readNums (<[a := Heap.Nums elems]> h) a = Some elems.
Proof.
  unfold Heap.readNums. intros H.
  destruct (h !! a) as [o|] eqn:E; [| discriminate].
  rewrite list_lookup_insert_eq; [reflexivity|].
  eapply lookup_lt_Some, E.
Qed.

Lemma readRefs_insert_ne (h : Heap.heap) a b o :
  a <> b -> Heap.readRefs (<[b := o]> h) a = Heap.readRefs h a.
Proof.
  intros Hne. unfold Heap.readRefs.
  now rewrite list_lookup_insert_ne by congruence.
Qed.

Lemma readRefs_insert_eq (h : Heap.heap) a elems old :
  Heap.readRefs h a = Some old ->
  Heap.readRefs (<[a := Heap.Refs elems]> h) a = Some elems.
Proof.
  unfold Heap.readRefs. intros H.
  destruct (h !! a) as [o|] eqn:E; [| discriminate].
  rewrite list_lookup_insert_eq; [reflexivity|].
  eapply lookup_lt_Some, E.
Qed.

Lemma fget_lookup (M : FMatrix) r c row :
  M !! r = Some row -> fget M r c = nth c row nan.
Proof. intros H. unfold fget. now rewrite (nth_lookup_Some _ _ _ _ H). Qed.

(** Reading the working copy reads the matrix it holds. *)
Lemma owns_read h0 m h M r c :
  Heap.owns h0 m h M -> (r < length M)%nat ->
  Heap.readEntry h m r c = Some (fget M r c).
Proof.
  intros (_ & _ & rows & Hrows & _ & _ & Hall) Hr.
  destruct (lookup_lt_is_Some_2 M r Hr) as [row Hrow].
  destruct (Forall2_lookup_r _ _ _ _ _ Hall Hrow) as (a & Ha & Hread).
  unfold Heap.readEntry. rewrite Hrows. simpl. rewrite Ha. simpl.
  rewrite Hread. simpl. now rewrite (fget_lookup M r c row Hrow).
Qed.

(** Writing an entry of the working copy leaves the caller's heap alone. *)
Lemma owns_write h0 m h M r c v :
  Heap.owns h0 m h M -> (r < length M)%nat ->
  exists h', Heap.writeEntry h m r c v = Some h'
             /\ Heap.owns h0 m h' (fset M r c v).
Proof.
  intros (Hpre & Hm & rows & Hrows & Hnd & Hfresh & Hall) Hr.
  destruct (lookup_lt_is_Some_2 M r Hr) as [row Hrow].
  destruct (Forall2_lookup_r _ _ _ _ _ Hall Hrow) as (a & Ha & Hread).
  pose proof (proj1 (Forall_lookup _ _) Hfresh r a Ha) as [Hage Ham].
  exists (<[a := Heap.Nums (arraySet row c v)]> h). split.
  - unfold Heap.writeEntry. rewrite Hrows. simpl. rewrite Ha. simpl.
    now rewrite Hread.
  - split; [| split; [exact Hm|]].
    + unfold Heap.extends in *. now rewrite take_insert_ge.
    + exists rows. split; [| split; [exact Hnd | split; [exact Hfresh|]]].
      * now rewrite readRefs_insert_ne by congruence.
      * apply Forall2_same_length_lookup. split.
        -- unfold fset. rewrite length_alter. now apply Forall2_length in Hall.
        -- intros j b rowj Hb Hj. unfold fset in Hj.
           destruct (decide (r = j)) as [<-|Hne].
           ++ rewrite list_lookup_alter_eq, Hrow in Hj. injection Hj as <-.
              assert (b = a) as -> by congruence.
              eapply readNums_insert_eq, Hread.
           ++ rewrite list_lookup_alter_ne in Hj by assumption.
              rewrite readNums_insert_ne.
              ** exact (Forall2_lookup_lr _ _ _ _ _ _ Hall Hb Hj).
              ** intros ->. apply Hne.
                 eapply NoDup_lookup; eassumption.
Qed.

Lemma owns_length h0 m h M :
  Heap.owns h0 m h M ->
  exists rows, Heap.readRefs h m = Some rows /\ length rows = length M.
Proof.
  intros (_ & _ & rows & Hrows & _ & _ & Hall).
  exists rows. split; [exact Hrows | now apply Forall2_length in Hall].
Qed.

Lemma swap_lookup {A} (l : list A) i j x y k :
  l !! i = Some x -> l !! j = Some y ->
  (<[j := x]> (<[i := y]> l)) !! k = l !! Heap.transpose i j k.
Proof.
  intros Hi Hj. unfold Heap.transpose.
  pose proof (lookup_lt_Some _ _ _ Hi). pose proof (lookup_lt_Some _ _ _ Hj).
  destruct (Nat.eqb_spec k j) as [->|Hkj].
  - rewrite list_lookup_insert_eq by (rewrite length_insert; lia).
    now rewrite Hi.
  - rewrite list_lookup_insert_ne by congruence.
    destruct (Nat.eqb_spec k i) as [->|Hki].
    + rewrite list_lookup_insert_eq by lia. now rewrite Hj.
    + now rewrite list_lookup_insert_ne by congruence.
Qed.

Lemma transpose_inj i j a b :
  Heap.transpose i j a = Heap.transpose i j b -> a = b.
Proof.
  unfold Heap.transpose.
  destruct (Nat.eqb_spec a j), (Nat.eqb_spec a i), (Nat.eqb_spec b j),
    (Nat.eqb_spec b i); lia.
Qed.

Lemma swapRows_lookup (M : FMatrix) i j k :
  (i < length M)%nat -> (j < length M)%nat ->
  swapRows M i j !! k = M !! Heap.transpose i j k.
Proof.
  intros Hi Hj. unfold swapRows.
  destruct (lookup_lt_is_Some_2 M i Hi) as [ri Hri].
  destruct (lookup_lt_is_Some_2 M j Hj) as [rj Hrj].
  rewrite (nth_lookup_Some _ _ _ _ Hri), (nth_lookup_Some _ _ _ _ Hrj).
  now apply swap_lookup.
Qed.

Lemma swapRows_length (M : FMatrix) i j : length (swapRows M i j) = length M.
Proof. unfold swapRows. now rewrite !length_insert. Qed.

Lemma fset_length (M : FMatrix) r c v : length (fset M r c v) = length M.
Proof. unfold fset. apply length_alter. Qed.

(** Swapping two rows of the working copy rewrites its outer array only. *)
Lemma owns_swap h0 m h M i j :
  Heap.owns h0 m h M -> (i < length M)%nat -> (j < length M)%nat ->
  exists h', Heap.swapRows h m i j = Some h'
             /\ Heap.owns h0 m h' (swapRows M i j).
Proof.
  intros (Hpre & Hm & rows & Hrows & Hnd & Hfresh & Hall) Hi Hj.
  pose proof (Forall2_length _ _ _ Hall) as Hlen.
  destruct (lookup_lt_is_Some_2 rows i) as [ai Hai]; [lia|].
  destruct (lookup_lt_is_Some_2 rows j) as [aj Haj]; [lia|].
  exists (<[m := Heap.Refs (<[j := ai]> (<[i := aj]> rows))]> h). split.
  - unfold Heap.swapRows. rewrite Hrows. simpl. rewrite Hai. simpl.
    now rewrite Haj.
  - split; [| split; [exact Hm|]].
    + unfold Heap.extends in *. now rewrite take_insert_ge.
    + exists (<[j := ai]> (<[i := aj]> rows)).
      split; [| split; [| split]].
      * eapply readRefs_insert_eq, Hrows.
      * apply NoDup_alt. intros a b x Ha Hb.
        rewrite (swap_lookup rows i j ai aj) in Ha, Hb by assumption.
        apply (transpose_inj i j).
        eapply NoDup_lookup; eassumption.
      * apply Forall_lookup. intros k a Ha.
        rewrite (swap_lookup rows i j ai aj) in Ha by assumption.
        exact (proj1 (Forall_lookup _ _) Hfresh _ _ Ha).
      * apply Forall2_same_length_lookup. split.
        -- rewrite swapRows_length, !length_insert. exact Hlen.
        -- intros k a row Ha Hrow.
           rewrite (swap_lookup rows i j ai aj) in Ha by assumption.
           rewrite swapRows_lookup in Hrow by assumption.
           rewrite readNums_insert_ne.
           ++ exact (Forall2_lookup_lr _ _ _ _ _ _ Hall Ha Hrow).
           ++ exact (proj2 (proj1 (Forall_lookup _ _) Hfresh _ _ Ha)).
Qed.

Lemma findMaxRow_sim_fold h0 m h M i ks :
  Heap.owns h0 m h M ->
  Forall (fun k => (k < length M)%nat) ks ->
  forall start,
    (start < length M)%nat ->
    fold_left
      (fun acc k =>
         maxRow ← acc;
         a ← Heap.readEntry h m k i;
         b ← Heap.readEntry h m maxRow i;
         Some (if (abs b <? abs a)%float then k else maxRow))
      ks (Some start)
    = Some (fold_left
              (fun maxRow k =>
                 if (abs (fget M maxRow i) <? abs (fget M k i))%float
                 then k else maxRow) ks start)
    /\ (fold_left
          (fun maxRow k =>
             if (abs (fget M maxRow i) <? abs (fget M k i))%float
             then k else maxRow) ks start < length M)%nat.
Proof.
  intros Hown. induction 1 as [| k ks Hk _ IH]; intros start Hstart; simpl.
  - split; [reflexivity | exact Hstart].
  - rewrite (owns_read h0 m h M k i Hown Hk). simpl.
    rewrite (owns_read h0 m h M start i Hown Hstart). simpl.
    apply IH. now destruct (abs (fget M start i) <? abs (fget M k i))%float.
Qed.

Lemma seq_bounded a len n :
  (a + len <= n)%nat -> Forall (fun k => (k < n)%nat) (seq a len).
Proof.
  intros H. apply Forall_forall. intros k Hk.
  apply elem_of_seq in Hk. lia.
Qed.

Lemma findMaxRow_sim h0 m h M i :
  Heap.owns h0 m h M -> (i < length M)%nat ->
  Heap.findMaxRow h m i (length M) = Some (findMaxRow M i (length M)).
Proof.
  intros Hown Hi. unfold Heap.findMaxRow, findMaxRow.
  apply (findMaxRow_sim_fold h0 m h M i); [exact Hown | | exact Hi].
  apply seq_bounded. lia.
Qed.

Lemma eliminate_inner_sim h0 m k i factor js :
  forall h M,
    Heap.owns h0 m h M -> (k < length M)%nat -> (i < length M)%nat ->
    exists h',
      fold_left
        (fun acc j =>
           h ← acc;
           x ← Heap.readEntry h m k j;
           y ← Heap.readEntry h m i j;
           Heap.writeEntry h m k j (x - factor * y)%float)
        js (Some h) = Some h'
      /\ Heap.owns h0 m h'
           (fold_left
              (fun M j => fset M k j (fget M k j - factor * fget M i j)%float)
              js M)
      /\ length (fold_left
                   (fun M j => fset M k j (fget M k j - factor * fget M i j)%float)
                   js M) = length M.
Proof.
  induction js as [| j js IH]; intros h M Hown Hk Hi; simpl.
  - exists h. auto.
  - rewrite (owns_read h0 m h M k j Hown Hk). simpl.
    rewrite (owns_read h0 m h M i j Hown Hi). simpl.
    destruct (owns_write h0 m h M k j
                (fget M k j - factor * fget M i j)%float Hown Hk)
      as (h1 & Hw & Hown1).
    rewrite Hw.
    destruct (IH h1 _ Hown1) as (h' & Hfold & Hown' & Hlen);
      try (rewrite fset_length; assumption).
    exists h'. split; [exact Hfold | split; [exact Hown'|]].
    now rewrite Hlen, fset_length.
Qed.

Lemma eliminateRow_sim h0 m h M i k :
  Heap.owns h0 m h M -> (k < length M)%nat -> (i < length M)%nat ->
  exists h',
    Heap.eliminateRow i (length M) m h k = Some h'
    /\ Heap.owns h0 m h' (eliminateRow i (length M) M k)
    /\ length (eliminateRow i (length M) M k) = length M.
Proof.
  intros Hown Hk Hi. unfold Heap.eliminateRow, eliminateRow.
  rewrite (owns_read h0 m h M k i Hown Hk). simpl.
  rewrite (owns_read h0 m h M i i Hown Hi). simpl.
  now apply eliminate_inner_sim.
Qed.

Lemma eliminate_outer_sim h0 m i n ks :
  Forall (fun k => (k < n)%nat) ks -> (i < n)%nat ->
  forall h M,
    Heap.owns h0 m h M -> length M = n ->
    exists h',
      fold_left (fun acc k => h ← acc; Heap.eliminateRow i n m h k) ks (Some h)
      = Some h'
      /\ Heap.owns h0 m h' (fold_left (eliminateRow i n) ks M)
      /\ length (fold_left (eliminateRow i n) ks M) = n.
Proof.
  induction 1 as [| k ks Hk _ IH]; intros Hi h M Hown Hlen; simpl.
  - exists h. auto.
  - subst n.
    destruct (eliminateRow_sim h0 m h M i k Hown Hk Hi)
      as (h1 & He & Hown1 & Hlen1).
    rewrite He.
    destruct (IH Hi h1 _ Hown1 Hlen1) as (h' & Hfold & Hown' & Hlen').
    exists h'. auto.
Qed.

(** One iteration of the outer loop, on the heap and on the value. *)
Lemma detStep_sim h0 m h M i det :
  Heap.owns h0 m h M -> (i < length M)%nat ->
  match detStep (length M) i (M, det) with
  | None => Heap.detStep (length M) i m h det = Some (h, None)
  | Some (M', det') =>
      exists h', Heap.detStep (length M) i m h det = Some (h', Some det')
                 /\ Heap.owns h0 m h' M' /\ length M' = length M
  end.
Proof.
  intros Hown Hi. unfold detStep, Heap.detStep.
  rewrite (findMaxRow_sim h0 m h M i Hown Hi). simpl.
  pose proof (findMaxRow_range M i (length M) Hi) as Hmax.
  set (maxRow := findMaxRow M i (length M)) in *.
  rewrite (owns_read h0 m h M maxRow i Hown) by lia. simpl.
  destruct (abs (fget M maxRow i) <? eps_pivot)%float; [reflexivity|].
  destruct (negb (maxRow =? i)%nat).
  - destruct (owns_swap h0 m h M i maxRow Hown) as (h1 & Hs & Hown1);
      [lia | lia |].
    rewrite Hs. simpl.
    rewrite (owns_read h0 m h1 _ i i Hown1) by (rewrite swapRows_length; lia).
    simpl.
    destruct (eliminate_outer_sim h0 m i (length M) (seq (S i) (length M - S i))
                (seq_bounded (S i) (length M - S i) (length M) ltac:(lia)) Hi h1 _ Hown1
                (swapRows_length M i maxRow))
      as (h' & Hfold & Hown' & Hlen').
    rewrite Hfold. simpl. exists h'. auto.
  - simpl. rewrite (owns_read h0 m h M i i Hown Hi). simpl.
    destruct (eliminate_outer_sim h0 m i (length M) (seq (S i) (length M - S i))
                (seq_bounded (S i) (length M - S i) (length M) ltac:(lia)) Hi h M Hown eq_refl)
      as (h' & Hfold & Hown' & Hlen').
    rewrite Hfold. simpl. exists h'. auto.
Qed.

Lemma owns_prefix h0 m h M : Heap.owns h0 m h M -> Heap.extends h0 h.
Proof. now intros [H _]. Qed.

Lemma detLoop_sim h0 m n is_ :
  Forall (fun i => (i < n)%nat) is_ ->
  forall h M det,
    Heap.owns h0 m h M -> length M = n ->
    exists h',
      Heap.detLoop n is_ m h det = Some (detLoop n is_ (M, det), h')
      /\ Heap.extends h0 h'.
Proof.
  induction 1 as [| i is_ Hi _ IH]; intros h M det Hown Hlen;
    cbn [Heap.detLoop detLoop].
  - exists h. split; [reflexivity | now apply owns_prefix in Hown].
  - subst n. pose proof (detStep_sim h0 m h M i det Hown Hi) as Hstep.
    destruct (detStep (length M) i (M, det)) as [[M' det']|].
    + destruct Hstep as (h1 & Hs & Hown1 & Hlen1). rewrite Hs. simpl.
      apply IH; [exact Hown1 | exact Hlen1].
    + rewrite Hstep. simpl. exists h.
      split; [reflexivity | now apply owns_prefix in Hown].
Qed.

Lemma extends_refl (h : Heap.heap) : Heap.extends h h.
Proof. unfold Heap.extends. now rewrite take_ge. Qed.

Lemma extends_length (h h' : Heap.heap) :
  Heap.extends h h' -> (length h <= length h')%nat.
Proof.
  unfold Heap.extends. intros H.
  apply (f_equal length) in H. rewrite length_take in H. lia.
Qed.

Lemma extends_trans (h1 h2 h3 : Heap.heap) :
  Heap.extends h1 h2 -> Heap.extends h2 h3 -> Heap.extends h1 h3.
Proof.
  intros H12 H23. pose proof (extends_length _ _ H12).
  unfold Heap.extends in *.
  transitivity (take (length h1) (take (length h2) h3)).
  - rewrite take_take. f_equal. lia.
  - now rewrite H23.
Qed.

Lemma extends_lookup (h h' : Heap.heap) a o :
  Heap.extends h h' -> h !! a = Some o -> h' !! a = Some o.
Proof.
  unfold Heap.extends. intros H Ha.
  pose proof (lookup_lt_Some _ _ _ Ha).
  rewrite <- H in Ha. now rewrite lookup_take_lt in Ha.
Qed.

Lemma extends_alloc (h : Heap.heap) o : Heap.extends h (h ++ [o]).
Proof. unfold Heap.extends. apply take_app_length. Qed.

Lemma extends_readNums (h h' : Heap.heap) a elems :
  Heap.extends h h' -> Heap.readNums h a = Some elems ->
  Heap.readNums h' a = Some elems.
Proof.
  unfold Heap.readNums. intros H Ha.
  destruct (h !! a) as [o|] eqn:E; [| discriminate].
  now rewrite (extends_lookup h h' a o H E).
Qed.

Lemma extends_readRefs (h h' : Heap.heap) a elems :
  Heap.extends h h' -> Heap.readRefs h a = Some elems ->
  Heap.readRefs h' a = Some elems.
Proof.
  unfold Heap.readRefs. intros H Ha.
  destruct (h !! a) as [o|] eqn:E; [| discriminate].
  now rewrite (extends_lookup h h' a o H E).
Qed.

Lemma readNums_alloc (h : Heap.heap) elems :
  Heap.readNums (h ++ [Heap.Nums elems]) (length h) = Some elems.
Proof.
  unfold Heap.readNums. rewrite lookup_app_r by lia.
  now rewrite Nat.sub_diag.
Qed.

Lemma readRefs_alloc (h : Heap.heap) elems :
  Heap.readRefs (h ++ [Heap.Refs elems]) (length h) = Some elems.
Proof.
  unfold Heap.readRefs. rewrite lookup_app_r by lia.
  now rewrite Nat.sub_diag.
Qed.

(** A matrix stays what it was in any extension of the heap. *)
Lemma matrixAt_extends h h' matrix M :
  Heap.extends h h' -> Heap.matrixAt h matrix M -> Heap.matrixAt h' matrix M.
Proof.
  intros Hext (rows & Hrows & Hall). exists rows. split.
  - now apply (extends_readRefs h h').
  - eapply Forall2_impl; [exact Hall|]. intros a row Hr.
    now apply (extends_readNums h h').
Qed.

(** Mapping a callback over the rows allocates one new array per row, at
    consecutive addresses. *)
Lemma mapRows_spec (f : list float -> list float) (h0 : Heap.heap) rows
    (Ms : FMatrix) :
  Forall2 (fun a row => Heap.readNums h0 a = Some row) rows Ms ->
  forall h,
    Heap.extends h0 h ->
    exists h',
      Heap.mapRows f h rows = Some (h', seq (length h) (length rows))
      /\ Heap.extends h h'
      /\ length h' = (length h + length rows)%nat
      /\ Forall2 (fun a row => Heap.readNums h' a = Some row)
           (seq (length h) (length rows)) (map f Ms).
Proof.
  induction 1 as [| a row rows Ms Ha _ IH]; intros h Hext; simpl.
  - exists h. split; [reflexivity | split; [apply extends_refl|]].
    split; [lia | constructor].
  - rewrite (extends_readNums h0 h a row Hext Ha). simpl.
    destruct (IH (h ++ [Heap.Nums (f row)]))
      as (h' & Hcopy & Hext' & Hlen & Hall).
    { eapply extends_trans; [exact Hext | apply extends_alloc]. }
    rewrite length_app in Hcopy, Hlen, Hall. simpl in Hcopy, Hlen, Hall.
    rewrite Nat.add_1_r in Hcopy, Hlen, Hall.
    rewrite Hcopy. simpl. exists h'.
    split; [reflexivity | split; [| split; [lia|]]].
    + eapply extends_trans; [apply extends_alloc | exact Hext'].
    + constructor; [| exact Hall].
      eapply extends_readNums; [exact Hext' | apply readNums_alloc].
Qed.

(** The working copy is made of new arrays. *)
Lemma copyMatrix_owns h0 matrix M :
  Heap.matrixAt h0 matrix M ->
  exists h1 m, Heap.copyMatrix h0 matrix = Some (h1, m)
               /\ Heap.owns h0 m h1 M.
Proof.
  intros (rows & Hrows & Hall).
  destruct (mapRows_spec (fun row => row) h0 rows M Hall h0 (extends_refl h0))
    as (h' & Hcopy & Hext & Hlen & Hall').
  rewrite map_id in Hall'.
  exists (h' ++ [Heap.Refs (seq (length h0) (length rows))]), (length h').
  split.
  - unfold Heap.copyMatrix, Heap.copyRows. rewrite Hrows. simpl.
    now rewrite Hcopy.
  - split; [| split; [lia|]].
    + eapply extends_trans; [exact Hext | apply extends_alloc].
    + exists (seq (length h0) (length rows)).
      split; [apply readRefs_alloc | split; [apply NoDup_seq | split]].
      * apply Forall_forall. intros a Ha. apply elem_of_seq in Ha. lia.
      * eapply Forall2_impl; [exact Hall'|]. intros a row Hr.
        eapply extends_readNums; [apply extends_alloc | exact Hr].
Qed.

Lemma matrixAt_read h matrix M r c :
  Heap.matrixAt h matrix M -> (r < length M)%nat ->
  Heap.readEntry h matrix r c = Some (fget M r c).
Proof.
  intros (rows & Hrows & Hall) Hr.
  destruct (lookup_lt_is_Some_2 M r Hr) as [row Hrow].
  destruct (Forall2_lookup_r _ _ _ _ _ Hall Hrow) as (a & Ha & Hread).
  unfold Heap.readEntry. rewrite Hrows. simpl. rewrite Ha. simpl.
  rewrite Hread. simpl. now rewrite (fget_lookup M r c row Hrow).
Qed.

(** The heap determinant computes the value determinant and only adds
    objects to the heap. *)
Lemma determinant_sim h matrix M :
  Heap.matrixAt h matrix M ->
  exists h', Heap.determinant h matrix = Some (determinant M, h')
             /\ Heap.extends h h'.
Proof.
  intros HM. pose proof HM as (rows & Hrows & Hall).
  pose proof (Forall2_length _ _ _ Hall) as Hlen.
  unfold Heap.determinant, determinant. rewrite Hrows. simpl. rewrite Hlen.
  destruct (Nat.eqb_spec (length M) 0) as [E0|N0].
  { exists h. split; [reflexivity | apply extends_refl]. }
  destruct (Nat.eqb_spec (length M) 1) as [E1|N1].
  { rewrite (matrixAt_read h matrix M 0 0 HM) by lia. simpl.
    exists h. split; [reflexivity | apply extends_refl]. }
  destruct (copyMatrix_owns h matrix M HM) as (h1 & m & Hcopy & Hown).
  rewrite Hcopy. simpl.
  apply (detLoop_sim h m (length M) (seq 0 (length M))
           (seq_bounded 0 (length M) (length M) ltac:(lia)) h1 M one Hown eq_refl).
Qed.

Lemma filterIdx_Forall2 {A B} (P : A -> B -> Prop) (p : nat -> bool) l k :
  Forall2 P l k ->
  forall start, Forall2 P (filterIdx p start l) (filterIdx p start k).
Proof.
  induction 1 as [| a b l k Hab _ IH]; intros start; simpl; [constructor|].
  destruct (p start); [constructor; [exact Hab|] |]; apply IH.
Qed.

(** The minor is built from new arrays and holds the matrix without row and
    column [i]. *)
Lemma buildMinor_spec h mat M i :
  Heap.matrixAt h mat M ->
  exists h1 minor, Heap.buildMinor h mat i = Some (h1, minor)
                   /\ Heap.extends h h1
                   /\ Heap.matrixAt h1 minor (minorOf M i).
Proof.
  intros (rows & Hrows & Hall).
  set (kept := filterIdx (fun ri => negb (ri =? i)%nat) 0 rows).
  set (h1 := h ++ [Heap.Refs kept]).
  assert (Hkept : Forall2 (fun a row => Heap.readNums h a = Some row) kept
                    (filterIdx (fun ri => negb (ri =? i)%nat) 0 M))
    by (now apply filterIdx_Forall2).
  destruct (mapRows_spec (filterIdx (fun ci => negb (ci =? i)%nat) 0)
              h kept _ Hkept h1 (extends_alloc h _))
    as (h2 & Hmap & Hext2 & Hlen2 & Hall2).
  exists (h2 ++ [Heap.Refs (seq (length h1) (length kept))]), (length h2).
  split; [| split].
  - unfold Heap.buildMinor. rewrite Hrows. simpl. fold kept. fold h1.
    replace (Heap.readRefs h1 (length h)) with (Some kept)
      by (symmetry; apply readRefs_alloc).
    simpl. unfold Heap.filterRows. now rewrite Hmap.
  - eapply extends_trans; [apply extends_alloc|].
    eapply extends_trans; [exact Hext2 | apply extends_alloc].
  - exists (seq (length h1) (length kept)). split; [apply readRefs_alloc|].
    unfold minorOf. eapply Forall2_impl; [exact Hall2|]. intros a row Hr.
    eapply extends_readNums; [apply extends_alloc | exact Hr].
Qed.

(** Minor after minor, the shared matrix is what it was. *)
Lemma minorLoop_spec M is_ :
  forall h mat,
    Heap.matrixAt h mat M ->
    exists h',
      Heap.minorLoop h mat is_
      = Some (map (fun i => (i, determinant (minorOf M i))) is_, h')
      /\ Heap.extends h h'.
Proof.
  induction is_ as [| i is_ IH]; intros h mat HM; simpl.
  - exists h. split; [reflexivity | apply extends_refl].
  - destruct (buildMinor_spec h mat M i HM) as (h1 & minor & Hb & Hext1 & Hminor).
    rewrite Hb. simpl.
    destruct (determinant_sim h1 minor _ Hminor) as (h2 & Hd & Hext2).
    rewrite Hd. simpl.
    assert (HM2 : Heap.matrixAt h2 mat M).
    { eapply matrixAt_extends; [| exact HM].
      eapply extends_trans; eassumption. }
    destruct (IH h2 mat HM2) as (h3 & Hl & Hext3). rewrite Hl. simpl.
    exists h3. split; [reflexivity|].
    eapply extends_trans; [exact Hext1|].
    eapply extends_trans; eassumption.
Qed.

Lemma imap_index {A B} (g : nat -> B) (l : list A) :
  imap (fun i _ => g i) l = map g (seq 0 (length l)).
Proof.
  apply list_eq. intros k. rewrite list_lookup_imap.
  change (map g (seq 0 (length l))) with (g <$> seq 0 (length l)).
  rewrite list_lookup_fmap.
  destruct (l !! k) as [a|] eqn:E; simpl.
  - now rewrite lookup_seq_lt by (eapply lookup_lt_Some, E).
  - apply lookup_ge_None in E. now rewrite lookup_seq_ge by lia.
Qed.

(** C10: the determinant works on new arrays: a call returns the value of
    the determinant and a heap in which every object that was there before
    the call is unchanged, so the input matrix is what it was; and the minor
    list computed on the heap is, index by index, the determinant of the
    minor of the one shared matrix, which is unchanged at the end. *)
Theorem determinant_leaves_input (h : Heap.heap) (matrix : nat) (M : FMatrix) :
  Heap.matrixAt h matrix M ->
  (exists h', Heap.determinant h matrix = Some (determinant M, h')
              /\ Heap.extends h h'
              /\ Heap.matrixAt h' matrix M)
  /\ (exists h', Heap.minorDets h matrix
                 = Some (imap (fun i _ => (i, determinant (minorOf M i))) M, h')
                 /\ Heap.extends h h'
                 /\ Heap.matrixAt h' matrix M).
Proof.
  intros HM. split.
  - destruct (determinant_sim h matrix M HM) as (h' & Hd & Hext).
    exists h'. split; [exact Hd | split; [exact Hext|]].
    now apply (matrixAt_extends h h').
  - pose proof HM as (rows & Hrows & Hall).
    destruct (minorLoop_spec M (seq 0 (length rows)) h matrix HM)
      as (h' & Hl & Hext).
    exists h'. split; [| split; [exact Hext|]].
    + unfold Heap.minorDets. rewrite Hrows. simpl. rewrite Hl.
      rewrite (imap_index (fun i => (i, determinant (minorOf M i)))).
      now rewrite (Forall2_length _ _ _ Hall).
    + now apply (matrixAt_extends h h').
Qed.

Lemma determinant_leaves_input_witness :
  exists h', Heap.determinant heap_example 2
             = Some (determinant [[float_of_Z 1; float_of_Z 2];
                                  [float_of_Z 3; float_of_Z 4]], h')
             /\ Heap.extends heap_example h'.
Proof.
  destruct (determinant_leaves_input heap_example 2
              [[float_of_Z 1; float_of_Z 2]; [float_of_Z 3; float_of_Z 4]])
    as [(h' & Hd & Hext & _) _].
  - exists [0; 1]%nat. split; [reflexivity | repeat constructor].
  - exists h'. split; [exact Hd | exact Hext].
Defined.

Example heap_determinant_run :
  Heap.determinant heap_example 2
  = Some (float_of_Z (-2),
          heap_example
          ++ [Heap.Nums [zero;
                         (float_of_Z 2
                          - float_of_Z 1 / float_of_Z 3 * float_of_Z 4)%float];
              Heap.Nums [float_of_Z 3; float_of_Z 4];
              Heap.Refs [4; 3]%nat]).
Proof. vm_compute. reflexivity. Qed.

(** ** The string keys *)

Example getKey_sample : KeyCodec.getKey (-3) 12 true = "-3,12,u"%string.
Proof. vm_compute. reflexivity. Qed.

Example parseKey_sample :
  KeyCodec.parseKey "-3,12,u" = Some (mkCoord (-3) 12 true).
Proof. vm_compute. reflexivity. Qed.

Lemma isDigit_not_special c :
  KeyCodec.isDigit c = true ->
  Ascii.eqb c "-"%char = false /\ Ascii.eqb c "+"%char = false
  /\ Ascii.eqb c ","%char = false.
Proof.
  intros H. repeat split.
  - destruct (Ascii.eqb_spec c "-"%char) as [->|]; [discriminate | reflexivity].
  - destruct (Ascii.eqb_spec c "+"%char) as [->|]; [discriminate | reflexivity].
  - destruct (Ascii.eqb_spec c ","%char) as [->|]; [discriminate | reflexivity].
Qed.

Lemma string_of_uint_digits d :
  KeyCodec.allDigits (NilEmpty.string_of_uint d) = true.
Proof. induction d; simpl; try reflexivity; exact IHd. Qed.

Lemma digitsPrefix_allDigits s :
  KeyCodec.allDigits s = true -> KeyCodec.digitsPrefix s = s.
Proof.
  induction s as [| c s IH]; simpl; [reflexivity|].
  intros H. apply andb_true_iff in H as [Hc Hs]. rewrite Hc.
  now rewrite IH.
Qed.

Lemma allDigits_noComma s :
  KeyCodec.allDigits s = true -> KeyCodec.noComma s = true.
Proof.
  induction s as [| c s IH]; simpl; [reflexivity|].
  intros H. apply andb_true_iff in H as [Hc Hs].
  destruct (isDigit_not_special c Hc) as (_ & _ & ->). simpl. now apply IH.
Qed.

Lemma showZ_shape z :
  KeyCodec.allDigits (KeyCodec.showZ z) = true
  \/ exists digits, KeyCodec.showZ z = String "-" digits
                    /\ KeyCodec.allDigits digits = true.
Proof.
  unfold KeyCodec.showZ. destruct z as [| p | p]; simpl.
  - now left.
  - left. unfold NilZero.string_of_uint.
    destruct (Pos.to_uint p); try reflexivity; apply string_of_uint_digits.
  - right. eexists. split; [reflexivity|]. unfold NilZero.string_of_uint.
    destruct (Pos.to_uint p); try reflexivity; apply string_of_uint_digits.
Qed.

Lemma showZ_noComma z : KeyCodec.noComma (KeyCodec.showZ z) = true.
Proof.
  destruct (showZ_shape z) as [H | (digits & -> & H)].
  - now apply allDigits_noComma.
  - simpl. now apply allDigits_noComma.
Qed.

(** Reading back the decimal text of an integer. *)
Lemma isDigit_not_space c :
  KeyCodec.isDigit c = true ->
  KeyCodec.isSpace c = false
  /\ Ascii.eqb c "x"%char = false /\ Ascii.eqb c "X"%char = false.
Proof.
  unfold KeyCodec.isDigit, KeyCodec.isSpace. intros H.
  apply andb_true_iff in H as [H1 H2].
  apply Nat.leb_le in H1, H2.
  repeat split.
  - destruct (Nat.leb_spec 9 (nat_of_ascii c)),
             (Nat.leb_spec (nat_of_ascii c) 13),
             (Nat.eqb_spec (nat_of_ascii c) 32),
             (Nat.eqb_spec (nat_of_ascii c) 160); simpl; try reflexivity; lia.
  - destruct (Ascii.eqb_spec c "x"%char) as [->|]; [| reflexivity].
    vm_compute in H2. lia.
  - destruct (Ascii.eqb_spec c "X"%char) as [->|]; [| reflexivity].
    vm_compute in H1, H2. lia.
Qed.

Lemma parseInt_digits negative body s :
  KeyCodec.allDigits body = true ->
  KeyCodec.trimStart s = s ->
  match s with
  | String c rest =>
      if Ascii.eqb c "-"%char then (true, rest)
      else if Ascii.eqb c "+"%char then (false, rest)
      else (false, s)
  | EmptyString => (false, s)
  end = (negative, body) ->
  KeyCodec.parseInt s
  = option_map Z.of_int
      (NilZero.int_of_string (if negative then String "-" body else body)).
Proof.
  intros Hd Htrim Hsign. unfold KeyCodec.parseInt. rewrite Htrim, Hsign.
  assert (Hhex : match body with
                 | String c0 (String c1 rest) =>
                     if Ascii.eqb c0 "0"%char
                        && (Ascii.eqb c1 "x"%char || Ascii.eqb c1 "X"%char)
                     then Some rest else None
                 | _ => None
                 end = None).
  { destruct body as [| c0 [| c1 rest]]; try reflexivity.
    simpl in Hd. apply andb_true_iff in Hd as [_ Hd].
    apply andb_true_iff in Hd as [Hc1 _].
    destruct (isDigit_not_space c1 Hc1) as (_ & -> & ->).
    now rewrite andb_false_r. }
  rewrite Hhex. now rewrite (digitsPrefix_allDigits _ Hd).
Qed.

Lemma parseInt_showZ z : KeyCodec.parseInt (KeyCodec.showZ z) = Some z.
Proof.
  assert (Hnum : NilZero.int_of_string (KeyCodec.showZ z) = Some (Z.to_int z)).
  { unfold KeyCodec.showZ. apply NilZero.isi.
    - destruct z; simpl; try discriminate.
      intros [= H]. now apply Unsigned.to_uint_nonnil in H.
    - destruct z; simpl; try discriminate.
      intros [= H]. now apply Unsigned.to_uint_nonnil in H. }
  destruct (showZ_shape z) as [H | (digits & E & H)].
  - destruct (KeyCodec.showZ z) as [| c rest] eqn:E.
    + discriminate Hnum.
    + pose proof H as H'. simpl in H'. apply andb_true_iff in H' as [Hc _].
      destruct (isDigit_not_special c Hc) as (Hm & Hp & _).
      destruct (isDigit_not_space c Hc) as (Hs & _ & _).
      rewrite (parseInt_digits false (String c rest) (String c rest) H).
      * rewrite Hnum. simpl. now rewrite DecimalZ.of_to.
      * simpl. now rewrite Hs.
      * now rewrite Hm, Hp.
  - rewrite E in *.
    rewrite (parseInt_digits true digits (String "-" digits) H).
    + rewrite Hnum. simpl. now rewrite DecimalZ.of_to.
    + reflexivity.
    + reflexivity.
Qed.

Example parseInt_samples :
  KeyCodec.parseInt " 12px" = Some 12
  /\ KeyCodec.parseInt "-0x1A" = Some (-26)
  /\ KeyCodec.parseInt "0x" = None
  /\ KeyCodec.parseInt "1e+21" = Some 1
  /\ KeyCodec.parseInt "u" = None.
Proof. vm_compute. repeat split. Qed.

Lemma split_noComma s :
  KeyCodec.noComma s = true -> KeyCodec.split s = [s].
Proof.
  induction s as [| c s IH]; simpl; [reflexivity|].
  intros H. apply andb_true_iff in H as [Hc Hs].
  destruct (Ascii.eqb c ","%char); [discriminate|]. now rewrite IH.
Qed.

Lemma split_app_comma a rest :
  KeyCodec.noComma a = true ->
  KeyCodec.split (String.append a (String "," rest)) = a :: KeyCodec.split rest.
Proof.
  induction a as [| c a IH]; simpl; [reflexivity|].
  intros H. apply andb_true_iff in H as [Hc Ha].
  destruct (Ascii.eqb c ","%char); [discriminate|]. now rewrite IH.
Qed.

(** The key of an integer cell parses back to the cell. *)
Lemma parseKey_getKey x y isUp :
  KeyCodec.parseKey (KeyCodec.getKey x y isUp) = Some (mkCoord x y isUp).
Proof.
  unfold KeyCodec.parseKey, KeyCodec.getKey.
  rewrite split_app_comma by apply showZ_noComma.
  rewrite split_app_comma by apply showZ_noComma.
  rewrite split_noComma by (now destruct isUp).
  cbn [nth]. rewrite !parseInt_showZ. now destruct isUp.
Qed.

(** Distinct integer cells have distinct keys. *)
Lemma getKey_inj x1 y1 u1 x2 y2 u2 :
  KeyCodec.getKey x1 y1 u1 = KeyCodec.getKey x2 y2 u2 ->
  mkCoord x1 y1 u1 = mkCoord x2 y2 u2.
Proof.
  intros H. apply (f_equal KeyCodec.parseKey) in H.
  rewrite !parseKey_getKey in H. now injection H as -> -> ->.
Qed.

(** ** Editing *)

Lemma map_get_None_keys (m : ColorMap) k :
  map_get m k = None <-> k ∉ map fst m.
Proof.
  induction m as [| [k0 c0] m IH]; simpl.
  - split; [intros _ H; inversion H | reflexivity].
  - destruct (decide (k0 = k)) as [->|Hne].
    + split; [discriminate | intros H; exfalso; apply H; left].
    + rewrite IH. split.
      * intros H Hin. apply elem_of_cons in Hin as [->|Hin]; contradiction.
      * intros H Hin. apply H. now right.
Qed.

Lemma map_get_map_delete (m : ColorMap) k k' :
  NoDup (map fst m) ->
  map_get (map_delete m k) k' = if decide (k = k') then None else map_get m k'.
Proof.
  induction m as [| [k0 c0] m IH]; simpl; intros Hnd.
  - now destruct (decide (k = k')).
  - apply NoDup_cons in Hnd as [Hk0 Hnd].
    destruct (decide (k0 = k)) as [->|Hne].
    + destruct (decide (k = k')) as [<-|Hne']; [| reflexivity].
      now apply map_get_None_keys.
    + simpl. destruct (decide (k0 = k')) as [->|Hne'].
      * destruct (decide (k = k')); [congruence | reflexivity].
      * now apply IH.
Qed.

Lemma map_delete_In (m : ColorMap) k e : In e (map_delete m k) -> In e m.
Proof.
  induction m as [| [k0 c0] m IH]; simpl; [trivial|].
  destruct (decide (k0 = k)); [now right|].
  intros [<-|H]; [now left | right; now apply IH].
Qed.

Lemma map_delete_NoDup (m : ColorMap) k :
  NoDup (map fst m) -> NoDup (map fst (map_delete m k)).
Proof.
  induction m as [| [k0 c0] m IH]; simpl; [trivial|]. intros Hnd.
  apply NoDup_cons in Hnd as [Hk0 Hnd].
  destruct (decide (k0 = k)); [exact Hnd|]. simpl.
  apply NoDup_cons. split; [| now apply IH].
  intros Hin. apply Hk0. apply list_elem_of_In, in_map_iff in Hin as (e & He & Hin).
  apply list_elem_of_In, in_map_iff. exists e. split; [exact He|].
  now apply (map_delete_In m k).
Qed.

Lemma map_set_In (m : ColorMap) k c e :
  In e (map_set m k c) -> In e m \/ e = (k, c).
Proof.
  induction m as [| [k0 c0] m IH]; simpl.
  - intros [<-|[]]. now right.
  - destruct (decide (k0 = k)) as [->|Hne]; simpl.
    + intros [<-|H]; [now right | left; now right].
    + intros [<-|H]; [left; now left|].
      destruct (IH H) as [H'|H']; [left; now right | now right].
Qed.

Lemma wfColors_map_set m k c :
  wfColors m -> 1 <= c <= 3 -> wfColors (map_set m k c).
Proof.
  intros [Hnd Hall] Hc. split; [now apply map_set_NoDup|].
  apply List.Forall_forall. intros e He.
  apply map_set_In in He as [He| ->]; [| exact Hc].
  exact (proj1 (List.Forall_forall _ _) Hall e He).
Qed.

Lemma wfColors_map_delete m k : wfColors m -> wfColors (map_delete m k).
Proof.
  intros [Hnd Hall]. split; [now apply map_delete_NoDup|].
  apply List.Forall_forall. intros e He. apply map_delete_In in He.
  exact (proj1 (List.Forall_forall _ _) Hall e He).
Qed.

Lemma wfColors_range m k c : wfColors m -> map_get m k = Some c -> 1 <= c <= 3.
Proof.
  intros [_ Hall] H. apply map_get_Some_In in H.
  exact (proj1 (List.Forall_forall _ _) Hall (k, c) H).
Qed.

(** The colour a click gives to the clicked cell. *)
Lemma handleClick_spec prev key :
  wfColors prev ->
  wfColors (handleClick prev key)
  /\ map_get (handleClick prev key) key
     = match map_get prev key with
       | None => Some 1
       | Some c => if c =? 3 then None else Some (c + 1)
       end
  /\ (forall k, k <> key ->
                map_get (handleClick prev key) k = map_get prev k).
Proof.
  intros Hwf. unfold handleClick.
  destruct (map_get prev key) as [c|] eqn:Hget; simpl.
  - pose proof (wfColors_range prev key c Hwf Hget) as Hc.
    assert (Ec : c = 1 \/ c = 2 \/ c = 3) by lia.
    destruct Ec as [-> | [-> | ->]]; simpl;
      repeat match goal with
             | |- context [Z.rem ?a ?b] =>
                 let v := eval vm_compute in (Z.rem a b) in
                 change (Z.rem a b) with v
             end.
    + split; [apply wfColors_map_set; [exact Hwf | lia] | split].
      * rewrite map_get_map_set. now destruct (decide (key = key)).
      * intros k Hk. rewrite map_get_map_set.
        destruct (decide (key = k)); [congruence | reflexivity].
    + split; [apply wfColors_map_set; [exact Hwf | lia] | split].
      * rewrite map_get_map_set. now destruct (decide (key = key)).
      * intros k Hk. rewrite map_get_map_set.
        destruct (decide (key = k)); [congruence | reflexivity].
    + split; [now apply wfColors_map_delete | split].
      * rewrite map_get_map_delete by apply Hwf.
        now destruct (decide (key = key)).
      * intros k Hk. rewrite map_get_map_delete by apply Hwf.
        destruct (decide (key = k)); [congruence | reflexivity].
  - change (Z.rem (0 + 1) 4) with 1.
    split; [apply wfColors_map_set; [exact Hwf | lia] | split].
    + rewrite map_get_map_set. now destruct (decide (key = key)).
    + intros k Hk. rewrite map_get_map_set.
      destruct (decide (key = k)); [congruence | reflexivity].
Qed.

(** X1: a click keeps the colouring well formed (one entry per cell, colours
    1, 2, 3, never a stored 0), moves the clicked cell one step along
    uncoloured -> white -> black -> gray -> uncoloured, and leaves every
    other cell as it was. *)
Theorem handleClick_cycles_one_cell (prev : ColorMap) (key : TriangleCoord) :
  wfColors prev ->
  wfColors (handleClick prev key)
  /\ map_get (handleClick prev key) key
     = match map_get prev key with
       | None => Some 1
       | Some c => if c =? 3 then None else Some (c + 1)
       end
  /\ (forall k, k <> key ->
                map_get (handleClick prev key) k = map_get prev k).
Proof. apply handleClick_spec. Qed.

Lemma handleClick_cycles_one_cell_witness :
  wfColors (handleClick allWhite (mkCoord 1 0 false))
  /\ map_get (handleClick allWhite (mkCoord 1 0 false)) (mkCoord 1 0 false)
     = Some 2.
Proof.
  destruct (handleClick_cycles_one_cell allWhite (mkCoord 1 0 false))
    as (H1 & H2 & _).
  - split; [now apply (bool_decide_unpack _) | repeat constructor; simpl; lia].
  - split; [exact H1 | exact H2].
Defined.

(** X2: four clicks on one cell give back the colouring: every cell has the
    colour it had. *)
Theorem handleClick_four_clicks (prev : ColorMap) (key k : TriangleCoord) :
  wfColors prev ->
  map_get (handleClick (handleClick (handleClick (handleClick prev key) key) key) key) k
  = map_get prev k.
Proof.
  intros Hwf.
  destruct (handleClick_spec prev key Hwf) as (W1 & G1 & O1).
  destruct (handleClick_spec _ key W1) as (W2 & G2 & O2).
  destruct (handleClick_spec _ key W2) as (W3 & G3 & O3).
  destruct (handleClick_spec _ key W3) as (W4 & G4 & O4).
  destruct (decide (k = key)) as [->|Hne].
  - rewrite G4, G3, G2, G1.
    destruct (map_get prev key) as [c|] eqn:Hget; [| reflexivity].
    pose proof (wfColors_range prev key c Hwf Hget) as Hc.
    assert (Ec : c = 1 \/ c = 2 \/ c = 3) by lia.
    destruct Ec as [-> | [-> | ->]]; reflexivity.
  - now rewrite O4, O3, O2, O1.
Qed.

Lemma handleClick_four_clicks_witness :
  map_get (handleClick (handleClick (handleClick (handleClick allWhite
             (mkCoord 0 0 true)) (mkCoord 0 0 true)) (mkCoord 0 0 true))
             (mkCoord 0 0 true)) (mkCoord 0 0 true)
  = Some 1.
Proof.
  rewrite (handleClick_four_clicks allWhite (mkCoord 0 0 true) (mkCoord 0 0 true)).
  - reflexivity.
  - split; [now apply (bool_decide_unpack _) | repeat constructor; simpl; lia].
Defined.

(** ** Serialization *)

Lemma insertWith_perm {A} (cmp : A -> A -> Z) a l :
  Permutation (a :: l) (insertWith cmp a l).
Proof.
  induction l as [| b l IH]; simpl; [reflexivity|].
  destruct (cmp a b <=? 0); [reflexivity|].
  rewrite perm_swap. now apply perm_skip.
Qed.

Lemma sortWith_perm {A} (cmp : A -> A -> Z) l : Permutation l (sortWith cmp l).
Proof.
  induction l as [| a l IH]; simpl; [reflexivity|].
  rewrite <- insertWith_perm. now apply perm_skip.
Qed.

(** Insertion keeps a list sorted for an order that the comparator decides
    on the elements at hand. *)
Lemma insertWith_sorted {A} (cmp : A -> A -> Z) (R : A -> A -> Prop) a l :
  (forall x y z, R x y -> R y z -> R x z) ->
  (forall b, In b l ->
             (cmp a b <= 0 -> R a b) /\ (0 < cmp a b -> R b a)) ->
  StronglySorted R l -> StronglySorted R (insertWith cmp a l).
Proof.
  intros Htrans Hcmp Hs. induction Hs as [| b l Hs IH Hb]; simpl.
  - repeat constructor.
  - destruct (Z.leb_spec (cmp a b) 0) as [Hle|Hgt].
    + pose proof (proj1 (Hcmp b (or_introl eq_refl)) Hle) as Hab.
      constructor; [now constructor|].
      constructor; [exact Hab|].
      eapply Forall_impl; [exact Hb|]. intros c Hc. now apply (Htrans a b c).
    + constructor.
      * apply IH. intros c Hc. apply Hcmp. now right.
      * rewrite <- insertWith_perm.
        constructor; [| exact Hb].
        exact (proj2 (Hcmp b (or_introl eq_refl)) Hgt).
Qed.

Lemma canonLt_trans (a b c : Serial.ColoredTriangle) :
  Serial.canonLt a b -> Serial.canonLt b c -> Serial.canonLt a c.
Proof.
  unfold Serial.canonLt. intros Hab Hbc.
  destruct (isUp (Serial.coord a)), (isUp (Serial.coord b)),
    (isUp (Serial.coord c)); intuition (try congruence; try lia).
Qed.

Lemma compareItems_decides (a b : Serial.ColoredTriangle) :
  Serial.coord a <> Serial.coord b ->
  (Serial.compareItems a b <= 0 -> Serial.canonLt a b)
  /\ (0 < Serial.compareItems a b -> Serial.canonLt b a).
Proof.
  unfold Serial.compareItems, Serial.canonLt.
  destruct a as [[ax ay au] an], b as [[bx by_ bu] bn]; simpl. intros Hne.
  destruct (Z.eqb_spec ay by_) as [Ey|Ny]; simpl.
  - destruct (Z.eqb_spec ax bx) as [Ex|Nx]; simpl.
    + subst. destruct au, bu; try (exfalso; now apply Hne);
        split; intros H; try lia; right; split; try reflexivity;
        right; split; try reflexivity; split; reflexivity.
    + split; intros H; right; (split; [lia|]); left; lia.
  - split; intros H; left; lia.
Qed.

Lemma sortWith_canon_sorted (l : list Serial.ColoredTriangle) :
  NoDup (map Serial.coord l) ->
  StronglySorted Serial.canonLt (sortWith Serial.compareItems l).
Proof.
  induction l as [| a l IH]; simpl; intros Hnd; [constructor|].
  apply NoDup_cons in Hnd as [Ha Hnd].
  apply insertWith_sorted; [apply canonLt_trans | | now apply IH].
  intros b Hb. apply compareItems_decides. intros E. apply Ha.
  apply list_elem_of_In, in_map_iff. exists b. split; [now symmetry|].
  eapply Permutation_in; [symmetry; apply sortWith_perm | exact Hb].
Qed.

Lemma exportItems_coords (colors : ColorMap) :
  NoDup (map fst colors) -> NoDup (map Serial.coord (Serial.exportItems colors)).
Proof.
  unfold Serial.exportItems.
  induction colors as [| [k c] colors IH]; simpl; intros Hnd; [constructor|].
  apply NoDup_cons in Hnd as [Hk Hnd]. cbn [omap list_omap].
  fold (@omap list _ _ _
          (fun '(key, c) =>
             if c =? 0 then None
             else Some (Serial.mkItem key (colorNameOf c))) colors).
  destruct (c =? 0); [now apply IH|]. simpl.
  apply NoDup_cons. split; [| now apply IH].
  intros Hin. apply Hk.
  apply list_elem_of_In, in_map_iff in Hin as (item & Hitem & Hin).
  apply list_elem_of_In, list_elem_of_omap in Hin as ([k' c'] & Hin' & Hsome).
  destruct (c' =? 0); [discriminate|]. injection Hsome as <-. simpl in Hitem.
  subst k'. apply list_elem_of_In, in_map_iff. exists (k, c').
  split; [reflexivity | now apply list_elem_of_In].
Qed.

Lemma exportItems_In (colors : ColorMap) item :
  NoDup (map fst colors) ->
  In item (Serial.exportItems colors)
  <-> exists c, map_get colors (Serial.coord item) = Some c /\ c <> 0
                /\ Serial.color item = colorNameOf c.
Proof.
  intros Hnd. unfold Serial.exportItems. split.
  - intros Hin.
    apply list_elem_of_In, list_elem_of_omap in Hin as ([k c] & Hin & Hsome).
    destruct (Z.eqb_spec c 0) as [|Hc]; [discriminate|].
    injection Hsome as <-. simpl. exists c.
    split; [| split; [exact Hc | reflexivity]].
    apply map_get_In; [exact Hnd | now apply list_elem_of_In].
  - intros (c & Hget & Hc & Hname).
    apply list_elem_of_In, list_elem_of_omap.
    exists (Serial.coord item, c). split.
    + apply list_elem_of_In. now apply map_get_Some_In.
    + destruct (Z.eqb_spec c 0) as [E|E]; [contradiction|].
      destruct item as [k name]. simpl in *. now rewrite Hname.
Qed.

(** X3: for a colouring of safe cells, the exported array holds exactly the
    coloured cells of the map, each once with the name of its colour, in the
    order: [y] descending, then [x] ascending, then the upward cell before
    the downward one.  On safe cells [parseKey] gives back the cell of each
    key. *)
Theorem generateJSON_sorted (colors : ColorMap) :
  safeColors colors ->
  NoDup (map fst colors) ->
  StronglySorted Serial.canonLt (Serial.generateJSON colors)
  /\ NoDup (map Serial.coord (Serial.generateJSON colors))
  /\ (forall item,
         In item (Serial.generateJSON colors)
         <-> exists c, map_get colors (Serial.coord item) = Some c /\ c <> 0
                       /\ Serial.color item = colorNameOf c).
Proof.
  intros _ Hnd. unfold Serial.generateJSON.
  pose proof (exportItems_coords colors Hnd) as Hcoords.
  split; [now apply sortWith_canon_sorted | split].
  - now rewrite <- (Permutation_map Serial.coord
                      (sortWith_perm Serial.compareItems
                         (Serial.exportItems colors))).
  - intros item. rewrite <- (exportItems_In colors item Hnd). split.
    + apply Permutation_in. symmetry. apply sortWith_perm.
    + apply Permutation_in. apply sortWith_perm.
Qed.

Lemma generateJSON_sorted_witness :
  Serial.generateJSON
    [(mkCoord 0 0 false, 2); (mkCoord 1 1 true, 1); (mkCoord 0 0 true, 3)]
  = [Serial.mkItem (mkCoord 1 1 true) (Some "white"%string);
     Serial.mkItem (mkCoord 0 0 true) (Some "gray"%string);
     Serial.mkItem (mkCoord 0 0 false) (Some "black"%string)]
  /\ StronglySorted Serial.canonLt
       (Serial.generateJSON
          [(mkCoord 0 0 false, 2); (mkCoord 1 1 true, 1); (mkCoord 0 0 true, 3)]).
Proof.
  split; [reflexivity|].
  apply (generateJSON_sorted
           [(mkCoord 0 0 false, 2); (mkCoord 1 1 true, 1); (mkCoord 0 0 true, 3)]).
  - now apply (bool_decide_unpack _).
  - now apply (bool_decide_unpack _).
Defined.

Lemma indexOfName_valid name :
  0 < indexOfName name
  <-> name = Some "white"%string \/ name = Some "black"%string
      \/ name = Some "gray"%string.
Proof.
  destruct name as [s|]; unfold indexOfName;
    [| split; [lia | intros [H|[H|H]]; discriminate]].
  unfold COLOR_NAMES. cbn [indexOfFrom].
  destruct (String.eqb_spec "transparent" s) as [<-|N0].
  { split; [lia | intros [H|[H|H]]; discriminate]. }
  destruct (String.eqb_spec "white" s) as [<-|N1];
    [split; [auto | intros _; reflexivity]|].
  destruct (String.eqb_spec "black" s) as [<-|N2];
    [split; [auto | intros _; reflexivity]|].
  destruct (String.eqb_spec "gray" s) as [<-|N3];
    [split; [auto | intros _; reflexivity]|].
  split; [lia | intros [H|[H|H]]; congruence].
Qed.

Lemma indexOfName_range name : 0 < indexOfName name -> 1 <= indexOfName name <= 3.
Proof.
  intros H. apply indexOfName_valid in H as [-> | [-> | ->]]; vm_compute;
    split; discriminate.
Qed.

Lemma indexOfName_colorNameOf c :
  1 <= c <= 3 -> indexOfName (colorNameOf c) = c.
Proof.
  intros Hc. assert (Ec : c = 1 \/ c = 2 \/ c = 3) by lia.
  destruct Ec as [-> | [-> | ->]]; reflexivity.
Qed.

Lemma importItem_wf acc item : wfColors acc -> wfColors (Serial.importItem acc item).
Proof.
  intros Hwf. unfold Serial.importItem.
  destruct (Z.ltb_spec 0 (indexOfName (Serial.color item))) as [H|H];
    [| exact Hwf].
  apply wfColors_map_set; [exact Hwf | now apply indexOfName_range].
Qed.

Lemma import_fold_wf data :
  forall acc, wfColors acc -> wfColors (fold_left Serial.importItem data acc).
Proof.
  induction data as [| item data IH]; intros acc Hwf; simpl; [exact Hwf|].
  apply IH. now apply importItem_wf.
Qed.

Lemma import_fold_domain data :
  forall acc k,
    is_Some (map_get (fold_left Serial.importItem data acc) k)
    <-> is_Some (map_get acc k)
        \/ exists item, In item data /\ Serial.coord item = k
                        /\ 0 < indexOfName (Serial.color item).
Proof.
  induction data as [| item data IH]; intros acc k; simpl.
  - split; [now left | intros [H|(item & [] & _)]; exact H].
  - rewrite IH. unfold Serial.importItem.
    destruct (Z.ltb_spec 0 (indexOfName (Serial.color item))) as [Hv|Hv].
    + rewrite map_get_map_set. split.
      * intros [H|(it & Hin & Hk & Hval)].
        -- destruct (decide (Serial.coord item = k)) as [E|E]; [| now left].
           right. exists item. auto.
        -- right. exists it. auto.
      * intros [H|(it & [<-|Hin] & Hk & Hval)].
        -- left. destruct (decide (Serial.coord item = k)); [eauto | exact H].
        -- left. destruct (decide (Serial.coord item = k)); [eauto | contradiction].
        -- right. exists it. auto.
    + split.
      * intros [H|(it & Hin & Hk & Hval)]; [now left|].
        right. exists it. auto.
      * intros [H|(it & [<-|Hin] & Hk & Hval)]; [now left | lia |].
        right. exists it. auto.
Qed.

(** X4: the import keeps an entry only for a colour name that is white,
    black or gray (an entry named transparent, or with any other colour
    value, is skipped); what it builds has one entry per cell and colours
    1, 2, 3, and a cell is in it exactly when some entry of the array names
    it with a valid colour. *)
Theorem handleJsonImport_valid_entries (data : list Serial.ColoredTriangle) :
  wfColors (Serial.handleJsonImport data)
  /\ (forall k,
         is_Some (map_get (Serial.handleJsonImport data) k)
         <-> exists item,
             In item data /\ Serial.coord item = k
             /\ (Serial.color item = Some "white"%string
                 \/ Serial.color item = Some "black"%string
                 \/ Serial.color item = Some "gray"%string)).
Proof.
  unfold Serial.handleJsonImport. split.
  - apply import_fold_wf. split; constructor.
  - intros k. rewrite import_fold_domain. simpl. split.
    + intros [[c Hc]|(item & Hin & Hk & Hv)]; [discriminate|].
      exists item. split; [exact Hin | split; [exact Hk|]].
      now apply indexOfName_valid.
    + intros (item & Hin & Hk & Hv). right. exists item.
      split; [exact Hin | split; [exact Hk|]]. now apply indexOfName_valid.
Qed.

Lemma import_fold_append data :
  NoDup (map Serial.coord data) ->
  (forall item, In item data -> 0 < indexOfName (Serial.color item)) ->
  forall acc,
    (forall item, In item data -> map_get acc (Serial.coord item) = None) ->
    fold_left Serial.importItem data acc
    = acc ++ map (fun item => (Serial.coord item, indexOfName (Serial.color item)))
               data.
Proof.
  induction data as [| item data IH]; intros Hnd Hval acc Hacc; simpl.
  - now rewrite app_nil_r.
  - simpl in Hnd. apply NoDup_cons in Hnd as [Hitem Hnd].
    unfold Serial.importItem at 2.
    destruct (Z.ltb_spec 0 (indexOfName (Serial.color item))) as [Hv|Hv].
    2:{ pose proof (Hval item (or_introl eq_refl)). lia. }
    rewrite map_set_fresh by (apply Hacc; now left).
    rewrite IH.
    + now rewrite <- app_assoc.
    + exact Hnd.
    + intros it Hin. apply Hval. now right.
    + intros it Hin. rewrite map_get_app_fresh.
      * apply Hacc. now right.
      * intros E. apply Hitem. rewrite E.
        apply list_elem_of_In, in_map. exact Hin.
Qed.

Lemma exportItems_wf (colors : ColorMap) :
  Forall (fun e : TriangleCoord * Color => 1 <= e.2 <= 3) colors ->
  Serial.exportItems colors
  = map (fun e : TriangleCoord * Color => Serial.mkItem e.1 (colorNameOf e.2))
      colors.
Proof.
  unfold Serial.exportItems.
  induction 1 as [| [k c] colors Hc _ IH]; [reflexivity|].
  cbn [omap list_omap map]. simpl in Hc.
  destruct (Z.eqb_spec c 0) as [->|_]; [lia|]. simpl. f_equal. exact IH.
Qed.

(** X5: for a well-formed colouring of safe cells, importing the exported
    array gives back the colouring: the same entries, possibly in another
    order, so every cell has the colour it had. *)
Theorem import_export_round_trip (colors : ColorMap) :
  safeColors colors ->
  wfColors colors ->
  Permutation (Serial.handleJsonImport (Serial.generateJSON colors)) colors
  /\ (forall k,
         map_get (Serial.handleJsonImport (Serial.generateJSON colors)) k
         = map_get colors k).
Proof.
  intros _ [Hnd Hall].
  assert (Hperm : Permutation
                    (Serial.handleJsonImport (Serial.generateJSON colors)) colors).
  { unfold Serial.handleJsonImport, Serial.generateJSON.
    rewrite import_fold_append.
    - simpl.
      rewrite <- (sortWith_perm Serial.compareItems (Serial.exportItems colors)).
      rewrite (exportItems_wf colors Hall), map_map.
      rewrite (map_ext_in _ (fun e => e)); [now rewrite map_id|].
      intros [k c] Hin. simpl. f_equal. apply indexOfName_colorNameOf.
      exact (proj1 (List.Forall_forall _ _) Hall (k, c) Hin).
    - rewrite <- (Permutation_map Serial.coord
                    (sortWith_perm Serial.compareItems
                       (Serial.exportItems colors))).
      now apply exportItems_coords.
    - intros item Hin.
      apply (Permutation_in _ (Permutation_sym
                                 (sortWith_perm Serial.compareItems
                                    (Serial.exportItems colors)))) in Hin.
      rewrite (exportItems_wf colors Hall) in Hin.
      apply in_map_iff in Hin as ([k c] & <- & Hin). simpl.
      pose proof (proj1 (List.Forall_forall _ _) Hall (k, c) Hin) as Hc.
      simpl in Hc. rewrite indexOfName_colorNameOf by exact Hc. lia.
    - reflexivity. }
  split; [exact Hperm|].
  intros k. symmetry. apply map_get_perm; [exact Hnd | now symmetry].
Qed.

Lemma import_export_round_trip_witness :
  map_get (Serial.handleJsonImport (Serial.generateJSON allWhite))
    (mkCoord 1 0 false)
  = Some 1.
Proof.
  destruct (import_export_round_trip allWhite) as [_ H].
  - now apply (bool_decide_unpack _).
  - split; [now apply (bool_decide_unpack _) | repeat constructor; simpl; lia].
  - rewrite H. reflexivity.
Defined.

(** ** Keys *)

(** X6: the key of a safe cell parses back to the cell, and two safe cells
    have the same key only when they are the same cell, so a map keyed by
    [getKey] on safe cells is a map keyed by cells. *)
Theorem getKey_identifies_cells (a b : TriangleCoord) :
  safeCell a -> safeCell b ->
  KeyCodec.parseKey (KeyCodec.getKey (x a) (y a) (isUp a)) = Some a
  /\ (KeyCodec.getKey (x a) (y a) (isUp a)
      = KeyCodec.getKey (x b) (y b) (isUp b) <-> a = b).
Proof.
  intros _ _.
  destruct a as [xa ya ua], b as [xb yb ub]. cbn [x y isUp].
  split; [apply parseKey_getKey|].
  split.
  - apply getKey_inj.
  - now intros [= -> -> ->].
Qed.

Lemma getKey_identifies_cells_witness :
  KeyCodec.parseKey "-3,12,u" = Some (mkCoord (-3) 12 true)
  /\ (KeyCodec.getKey (-3) 12 true = KeyCodec.getKey 3 12 true
      <-> mkCoord (-3) 12 true = mkCoord 3 12 true).
Proof.
  apply (getKey_identifies_cells (mkCoord (-3) 12 true) (mkCoord 3 12 true)).
  - now apply (bool_decide_unpack _).
  - now apply (bool_decide_unpack _).
Defined.

(** ** The result table *)

Lemma tableOrder_trans sortKey sortAsc a b c :
  tableOrder sortKey sortAsc a b -> tableOrder sortKey sortAsc b c ->
  tableOrder sortKey sortAsc a c.
Proof. unfold tableOrder. destruct sortAsc; lia. Qed.

Lemma compareResults_decides sortKey sortAsc a b :
  (compareResults sortKey sortAsc a b <= 0 -> tableOrder sortKey sortAsc a b)
  /\ (0 < compareResults sortKey sortAsc a b -> tableOrder sortKey sortAsc b a).
Proof. unfold compareResults, tableOrder. destruct sortAsc; lia. Qed.

Lemma sortedResults_sorted l sortKey sortAsc :
  StronglySorted (tableOrder sortKey sortAsc) (sortedResults l sortKey sortAsc).
Proof.
  unfold sortedResults.
  induction l as [| a l IH]; simpl; [constructor|].
  apply insertWith_sorted.
  - intros a1 a2 a3. apply tableOrder_trans.
  - intros b _. apply compareResults_decides.
  - exact IH.
Qed.

(** Insertion does not move an element across one that the comparator
    ranks the same: on a class of elements on which the comparator never
    says greater, the relative order is kept. *)
Lemma insertWith_filter {A} (p : A -> bool) (cmp : A -> A -> Z) a l :
  (forall b, In b l -> p a = true -> p b = true -> cmp a b <= 0) ->
  List.filter p (insertWith cmp a l) = List.filter p (a :: l).
Proof.
  induction l as [| b l IH]; intros Hcmp; [reflexivity|].
  cbn [insertWith].
  destruct (Z.leb_spec (cmp a b) 0) as [Hle|Hgt]; [reflexivity|].
  cbn [List.filter]. rewrite IH by (intros b' Hb'; apply Hcmp; now right).
  cbn [List.filter].
  destruct (p a) eqn:Ea, (p b) eqn:Eb; try reflexivity.
  pose proof (Hcmp b (or_introl eq_refl) eq_refl Eb). lia.
Qed.

Lemma sortedResults_stable_filter l sortKey sortAsc v :
  List.filter (fun r => sortValue sortKey r =? v) (sortedResults l sortKey sortAsc)
  = List.filter (fun r => sortValue sortKey r =? v) l.
Proof.
  unfold sortedResults.
  induction l as [| a l IH]; [reflexivity|].
  cbn [sortWith fold_right].
  change (fold_right (insertWith (compareResults sortKey sortAsc)) [] l)
    with (sortWith (compareResults sortKey sortAsc) l).
  rewrite insertWith_filter.
  - cbn [List.filter]. now rewrite IH.
  - intros b _ Ha Hb. apply Z.eqb_eq in Ha, Hb.
    unfold compareResults. destruct sortAsc; lia.
Qed.

(** X7: the table shows the found results, each once, in the order of the
    chosen column and direction; results with the same value in that column
    stay in the order in which they were found, in both directions. *)
Theorem sortedResults_sorted_stable (foundResults : list SearchResult)
    (sortKey : SortKey) (sortAsc : bool) :
  Permutation foundResults (sortedResults foundResults sortKey sortAsc)
  /\ StronglySorted (tableOrder sortKey sortAsc)
       (sortedResults foundResults sortKey sortAsc)
  /\ (forall v,
         List.filter (fun r => sortValue sortKey r =? v)
           (sortedResults foundResults sortKey sortAsc)
         = List.filter (fun r => sortValue sortKey r =? v) foundResults).
Proof.
  split; [apply sortWith_perm|].
  split; [apply sortedResults_sorted|].
  apply sortedResults_stable_filter.
Qed.

(** ** The matrix panel *)

(** X8: the minors the panel shows for the current colouring are the minors
    the searches test: the panel's matrix and [computeMinorDets] build the
    same matrix, and both give no minor for fewer than two coloured cells. *)
Theorem allMinorDets_displayMatrix (colors : ColorMap) :
  allMinorDets (displayMatrix colors) = computeMinorDets colors
  /\ (passes colors = true
      <-> allNonZero (allMinorDets (displayMatrix colors)) = true).
Proof.
  assert (E : allMinorDets (displayMatrix colors) = computeMinorDets colors).
  { unfold allMinorDets, displayMatrix, computeMinorDets.
    destruct (coloredTriangles colors) as [| t ts] eqn:Ets; [reflexivity|].
    cbn [length Nat.eqb]. rewrite buildMatrix_length. reflexivity. }
  split; [exact E|]. unfold passes. now rewrite E.
Qed.

(** ** The drawn grid *)

Lemma zrange_In lo hi z : In z (zrange lo hi) <-> lo <= z <= hi.
Proof.
  unfold zrange. rewrite in_map_iff. split.
  - intros (i & <- & Hi). apply in_seq in Hi. lia.
  - intros Hz. exists (Z.to_nat (z - lo)). split; [lia|].
    apply in_seq. lia.
Qed.

Lemma triangles_In c :
  In c triangles
  <-> -17 <= x c <= 17 /\ -9 <= y c <= 8 /\ isUp c = gridIsUp (x c) (y c).
Proof.
  unfold triangles. rewrite in_flat_map. split.
  - intros (y0 & Hy & Hc). apply in_map_iff in Hc as (x0 & <- & Hx).
    apply zrange_In in Hy, Hx. cbn [x y isUp]. auto.
  - intros (Hx & Hy & Hup). exists (y c). split; [now apply zrange_In|].
    apply in_map_iff. exists (x c). split; [|now apply zrange_In].
    rewrite <- Hup. now destruct c.
Qed.

Lemma gridIsUp_step x0 y0 :
  gridIsUp (x0 + 1) y0 = negb (gridIsUp x0 y0)
  /\ gridIsUp (x0 - 1) y0 = negb (gridIsUp x0 y0)
  /\ gridIsUp x0 (y0 + 1) = negb (gridIsUp x0 y0)
  /\ gridIsUp x0 (y0 - 1) = negb (gridIsUp x0 y0).
Proof.
  unfold gridIsUp.
  assert (H : forall a, (Z.rem (a + 1) 2 =? 0) = negb (Z.rem a 2 =? 0)).
  { intros a.
    pose proof (Z.rem_bound_pos_neg a 2) as B1.
    destruct (Z.le_gt_cases 0 a) as [Ha|Ha].
    - rewrite !Z.rem_mod_nonneg by lia.
      pose proof (Z.mod_pos_bound a 2 ltac:(lia)).
      pose proof (Z.mod_pos_bound (a + 1) 2 ltac:(lia)).
      pose proof (Z.div_mod a 2 ltac:(lia)).
      pose proof (Z.div_mod (a + 1) 2 ltac:(lia)).
      destruct (Z.eqb_spec ((a + 1) mod 2) 0), (Z.eqb_spec (a mod 2) 0);
        simpl; try reflexivity; lia.
    - pose proof (Z.rem_opp_l' (- a) 2) as E1. rewrite Z.opp_involutive in E1.
      pose proof (Z.rem_opp_l' (- (a + 1)) 2) as E2.
      rewrite Z.opp_involutive in E2.
      rewrite E1, E2, !Z.rem_mod_nonneg by lia.
      pose proof (Z.mod_pos_bound (- a) 2 ltac:(lia)).
      pose proof (Z.mod_pos_bound (- (a + 1)) 2 ltac:(lia)).
      pose proof (Z.div_mod (- a) 2 ltac:(lia)).
      pose proof (Z.div_mod (- (a + 1)) 2 ltac:(lia)).
      destruct (Z.eqb_spec (- ((- (a + 1)) mod 2)) 0),
               (Z.eqb_spec (- ((- a) mod 2)) 0);
        simpl; try reflexivity; lia. }
  assert (H' : forall a, (Z.rem (a - 1) 2 =? 0) = negb (Z.rem a 2 =? 0)).
  { intros a. specialize (H (a - 1)). replace (a - 1 + 1) with a in H by lia.
    rewrite H. now rewrite negb_involutive. }
  repeat split.
  - replace (x0 + 1 + y0) with (x0 + y0 + 1) by lia. apply H.
  - replace (x0 - 1 + y0) with (x0 + y0 - 1) by lia. apply H'.
  - replace (x0 + (y0 + 1)) with (x0 + y0 + 1) by lia. apply H.
  - replace (x0 + (y0 - 1)) with (x0 + y0 - 1) by lia. apply H'.
Qed.

(** X9: the grid draws each position of the 35 x 18 window once, with the
    orientation its parity gives; adjacency and the flood fill's neighbours
    keep to that rule, so a cell adjacent to a drawn cell is a drawn cell
    whenever it lies in the window. *)
Theorem triangles_lattice :
  NoDup triangles
  /\ (forall c,
         In c triangles
         <-> -17 <= x c <= 17 /\ -9 <= y c <= 8
             /\ isUp c = gridIsUp (x c) (y c))
  /\ (forall a b,
         isUp a = gridIsUp (x a) (y a) -> areAdjacent a b = true ->
         isUp b = gridIsUp (x b) (y b))
  /\ (forall a b,
         In a triangles -> In b (neighbors a) ->
         -17 <= x b <= 17 -> -9 <= y b <= 8 -> In b triangles).
Proof.
  assert (Hadj : forall a b,
             isUp a = gridIsUp (x a) (y a) -> areAdjacent a b = true ->
             isUp b = gridIsUp (x b) (y b)).
  { intros [xa ya ua] [xb yb ub]. unfold areAdjacent. cbn [x y isUp].
    intros Ha Hb.
    destruct (gridIsUp_step xa ya) as (E1 & E2 & E3 & E4).
    destruct ua, ub; cbn [negb] in Hb; try discriminate;
      destruct (Z.eqb_spec (xb - xa) (-1)), (Z.eqb_spec (xb - xa) 1),
               (Z.eqb_spec (xb - xa) 0), (Z.eqb_spec (yb - ya) 0),
               (Z.eqb_spec (yb - ya) (-1)), (Z.eqb_spec (yb - ya) 1);
      cbn in Hb; try discriminate; try lia;
      first [ replace xb with (xa + 1) by lia
            | replace xb with (xa - 1) by lia
            | replace xb with xa by lia ];
      first [ replace yb with ya by lia
            | replace yb with (ya + 1) by lia
            | replace yb with (ya - 1) by lia ];
      rewrite ?E1, ?E2, ?E3, ?E4, <- Ha; reflexivity. }
  split; [apply (bool_decide_unpack _); vm_compute; reflexivity|].
  split; [apply triangles_In|].
  split; [exact Hadj|].
  intros a b Ha Hb Hx Hy. apply triangles_In.
  repeat split; try lia.
  apply (Hadj a b); [apply triangles_In in Ha; tauto|].
  now apply neighbors_adjacent.
Qed.

(** ** The shape of the signed matrix *)

Lemma relativeColorNum_cases a b :
  1 <= a <= 3 -> 1 <= b <= 3 ->
  0 <= relativeColorNum a b <= 2
  /\ (relativeColorNum a b = 0 <-> a = b)
  /\ (a <> b -> relativeColorNum a b + relativeColorNum b a = 3).
Proof.
  intros Ha Hb.
  assert (Ea : a = 1 \/ a = 2 \/ a = 3) by lia.
  assert (Eb : b = 1 \/ b = 2 \/ b = 3) by lia.
  destruct Ea as [-> | [-> | ->]], Eb as [-> | [-> | ->]];
    vm_compute; repeat split; intros; try congruence; try discriminate.
Qed.

Lemma relativeColorNum_same c : relativeColorNum c c = 0.
Proof.
  unfold relativeColorNum. replace (c - 1 - (c - 1) + 3) with 3 by lia.
  reflexivity.
Qed.

Lemma buildMatrix_entry ts i j :
  (i < length ts)%nat -> (j < length ts)%nat ->
  mat_get (buildMatrix ts) i j
  = if (j =? i)%nat then sumZ (map (weight ts i) (seq 0 (length ts)))
    else - weight ts i j.
Proof.
  intros Hi Hj.
  rewrite (mat_get_lookup _ _ _ _ (buildMatrix_row ts i Hi)), nth_lookup.
  rewrite rowAfter_lookup by assumption. simpl.
  destruct (Nat.eqb_spec j i); [reflexivity|].
  now destruct (Nat.ltb_spec j (length ts)); [| lia].
Qed.

Lemma sumZ_nonneg l : Forall (fun z => 0 <= z) l -> 0 <= sumZ l.
Proof. induction 1; simpl; lia. Qed.

Lemma weight_range ts i j :
  Forall (fun t => 1 <= color t <= 3) ts -> 0 <= weight ts i j <= 2.
Proof.
  intros Hall. unfold weight.
  destruct (ts !! i) as [ti|] eqn:Hi; [| lia].
  destruct (ts !! j) as [tj|] eqn:Hj; [| lia].
  destruct (areAdjacent (coord ti) (coord tj)); [| lia].
  apply relativeColorNum_cases.
  - exact (proj1 (Forall_lookup _ _) Hall i ti Hi).
  - exact (proj1 (Forall_lookup _ _) Hall j tj Hj).
Qed.

(** X10: for colours 1, 2, 3 the signed matrix has a diagonal of
    non-negative entries and off-diagonal entries 0, -1 or -2; an
    off-diagonal entry is non-zero exactly for adjacent cells of different
    colours, and then it and its mirror entry add up to -3.  So the zero
    pattern is symmetric though the matrix is not. *)
Theorem buildMatrix_sign_pattern (ts : list ColoredTri) (i j : nat)
    (ti tj : ColoredTri) :
  Forall (fun t => 1 <= color t <= 3) ts ->
  ts !! i = Some ti -> ts !! j = Some tj -> i <> j ->
  0 <= mat_get (buildMatrix ts) i i
  /\ -2 <= mat_get (buildMatrix ts) i j <= 0
  /\ (mat_get (buildMatrix ts) i j <> 0
      <-> areAdjacent (coord ti) (coord tj) = true /\ color ti <> color tj)
  /\ (mat_get (buildMatrix ts) i j = 0 <-> mat_get (buildMatrix ts) j i = 0)
  /\ (mat_get (buildMatrix ts) i j <> 0 ->
      mat_get (buildMatrix ts) i j + mat_get (buildMatrix ts) j i = -3).
Proof.
  intros Hall Hti Htj Hne.
  pose proof (lookup_lt_Some _ _ _ Hti) as Hi.
  pose proof (lookup_lt_Some _ _ _ Htj) as Hj.
  pose proof (proj1 (Forall_lookup _ _) Hall i ti Hti) as Hci.
  pose proof (proj1 (Forall_lookup _ _) Hall j tj Htj) as Hcj.
  simpl in Hci, Hcj.
  rewrite (buildMatrix_entry ts i i Hi Hi), Nat.eqb_refl.
  rewrite (buildMatrix_entry ts i j Hi Hj), (buildMatrix_entry ts j i Hj Hi).
  destruct (Nat.eqb_spec j i) as [E|_]; [congruence|].
  destruct (Nat.eqb_spec i j) as [E|_]; [congruence|].
  rewrite (weight_lookup ts i j ti tj Hti Htj),
    (weight_lookup ts j i tj ti Htj Hti), (areAdjacent_sym (coord tj)).
  destruct (relativeColorNum_cases _ _ Hci Hcj) as (R1 & R2 & R3).
  destruct (relativeColorNum_cases _ _ Hcj Hci) as (S1 & S2 & _).
  split.
  { apply sumZ_nonneg, List.Forall_forall. intros z Hz.
    apply in_map_iff in Hz as (k & <- & _).
    now apply weight_range. }
  destruct (areAdjacent (coord ti) (coord tj)).
  - repeat split; lia.
  - repeat split; try lia; try discriminate.
Qed.

Lemma buildMatrix_sign_pattern_witness :
  mat_get (buildMatrix [mkTri (mkCoord 0 0 true) 1; mkTri (mkCoord 1 0 false) 2])
    0 1
  + mat_get (buildMatrix [mkTri (mkCoord 0 0 true) 1; mkTri (mkCoord 1 0 false) 2])
      1 0
  = -3.
Proof.
  refine (proj2 (proj2 (proj2 (proj2
            (buildMatrix_sign_pattern
               [mkTri (mkCoord 0 0 true) 1; mkTri (mkCoord 1 0 false) 2]
               0 1 (mkTri (mkCoord 0 0 true) 1) (mkTri (mkCoord 1 0 false) 2)
               _ _ _ _)))) _).
  - repeat constructor; simpl; lia.
  - reflexivity.
  - reflexivity.
  - lia.
  - vm_compute. discriminate.
Defined.

(** ** Colourings that cannot pass *)

Lemma map_replicate {A B} (f : A -> B) n a :
  map f (replicate n a) = replicate n (f a).
Proof. induction n as [| n IH]; simpl; [reflexivity | now rewrite IH]. Qed.

Lemma fmap_seq_const {B} (f : nat -> B) b n start :
  (forall k, f k = b) -> f <$> seq start n = replicate n b.
Proof.
  intros Hf. revert start.
  induction n as [| n IH]; intros start; simpl; [reflexivity|].
  now rewrite Hf, IH.
Qed.

Lemma buildMatrix_zero ts :
  (forall i j, weight ts i j = 0) -> buildMatrix ts = zeroMatrix (length ts).
Proof.
  intros Hw. apply list_eq. intros i.
  destruct (Nat.lt_ge_cases i (length ts)) as [Hi|Hi].
  - rewrite (buildMatrix_row ts i Hi). unfold zeroMatrix.
    rewrite lookup_replicate_2 by assumption. f_equal.
    unfold rowAfter. apply fmap_seq_const. intros k.
    destruct (k =? i)%nat.
    + clear Hi. induction (seq 0 (length ts)) as [| a l IH]; simpl;
        [reflexivity | rewrite Hw, IH; reflexivity].
    + destruct (k <? length ts)%nat; [now rewrite Hw | reflexivity].
  - rewrite !(proj2 (lookup_ge_None _ _)); [reflexivity | |].
    + unfold zeroMatrix. now rewrite length_replicate.
    + now rewrite buildMatrix_length.
Qed.

Lemma fget_zero_matrix m k c :
  (k < m)%nat -> (c < m)%nat -> fget (replicate m (replicate m zero)) k c = zero.
Proof.
  intros Hk Hc. unfold fget.
  rewrite (nth_lookup_Some _ _ _ (replicate m zero)
             (lookup_replicate_2 m (replicate m zero) k Hk)).
  apply nth_lookup_Some, lookup_replicate_2, Hc.
Qed.

Lemma determinant_zero_matrix m :
  (1 <= m)%nat -> determinant (replicate m (replicate m zero)) = zero.
Proof.
  intros Hm. unfold determinant. rewrite length_replicate.
  destruct m as [| [| m]]; [lia | reflexivity |].
  cbn [Nat.eqb]. cbn [seq detLoop].
  rewrite detStep_singular; [reflexivity | lia |].
  intros k Hk. rewrite fget_zero_matrix by lia. reflexivity.
Qed.

(** X11: a colouring passes only if two adjacent cells have different
    colours.  With no such pair (one colour only, or no two coloured cells
    adjacent) the signed matrix is zero, every minor is 0, and neither
    search reports the colouring. *)
Theorem passes_needs_two_colours (colorMap : ColorMap) :
  (forall i j ti tj,
      coloredTriangles colorMap !! i = Some ti ->
      coloredTriangles colorMap !! j = Some tj ->
      areAdjacent (coord ti) (coord tj) = true -> color ti = color tj) ->
  passes colorMap = false
  /\ buildMatrix (coloredTriangles colorMap)
     = zeroMatrix (length (coloredTriangles colorMap)).
Proof.
  intros Hmono.
  assert (Hw : forall i j, weight (coloredTriangles colorMap) i j = 0).
  { intros i j. unfold weight.
    destruct (coloredTriangles colorMap !! i) as [ti|] eqn:Hi; [| reflexivity].
    destruct (coloredTriangles colorMap !! j) as [tj|] eqn:Hj; [| reflexivity].
    destruct (areAdjacent (coord ti) (coord tj)) eqn:Hadj; [| reflexivity].
    rewrite (Hmono i j ti tj Hi Hj Hadj). apply relativeColorNum_same. }
  pose proof (buildMatrix_zero _ Hw) as Hzero.
  split; [| exact Hzero].
  destruct (Nat.le_gt_cases (length (coloredTriangles colorMap)) 1) as [Hn|Hn].
  - unfold passes. now rewrite computeMinorDets_small.
  - apply not_true_is_false. intros Hpass.
    unfold passes, allNonZero in Hpass.
    rewrite computeMinorDets_large in Hpass by lia.
    apply andb_prop in Hpass as [_ Hall].
    pose proof (proj1 (forallb_imap_index (Minor colorMap)
                         (fun d => (eps_nonzero <? abs d)%float)
                         (signedMatrix colorMap)) Hall 0%nat) as H0.
    rewrite signedMatrix_length in H0. specialize (H0 ltac:(lia)).
    unfold Minor, signedMatrix, toFloats in H0. rewrite Hzero in H0.
    unfold zeroMatrix in H0. rewrite !map_replicate in H0.
    destruct (length (coloredTriangles colorMap)) as [| n]; [lia|].
    cbn [delete list_delete replicate] in H0.
    rewrite map_replicate in H0. cbn [delete list_delete] in H0.
    change (float_of_Z 0) with zero in H0.
    rewrite determinant_zero_matrix in H0 by lia.
    vm_compute in H0. discriminate.
Qed.

Lemma passes_needs_two_colours_witness : passes allWhite = false.
Proof.
  refine (proj1 (passes_needs_two_colours allWhite _)).
  intros i j ti tj Hi Hj _.
  destruct i as [| [| [| i]]]; try discriminate; injection Hi as <-;
    destruct j as [| [| [| j]]]; try discriminate; injection Hj as <-;
    reflexivity.
Defined.

(** ** The component counts *)

Lemma countsOf_cons cm k c reps :
  map_get cm k = Some c -> 1 <= c <= 3 ->
  countsOf cm (k :: reps) = bump c (countsOf cm reps).
Proof.
  intros Hget Hc. unfold countsOf, repsOf, bump, hasColor. cbn [List.filter].
  rewrite Hget.
  assert (Ec : c = 1 \/ c = 2 \/ c = 3) by lia.
  destruct Ec as [-> | [-> | ->]]; reflexivity.
Qed.

Lemma represents_add cm reps V V' k c :
  represents cm reps V -> map_get cm k = Some c -> k ∉ V ->
  (forall n, n ∈ V' <-> n ∈ V \/ conn cm k n) ->
  represents cm (k :: reps) V'.
Proof.
  intros (Hmem & Hnd & Hsep & Hin) Hget Hk HV'.
  assert (Hfresh : forall rep, In rep reps -> conn cm rep k -> False).
  { intros rep Hrep Hc. apply Hk, Hmem. now exists rep. }
  split; [| split; [| split]].
  - intros n. rewrite HV', Hmem. split.
    + intros [(rep & Hrep & Hc) | Hc].
      * exists rep. split; [now right | exact Hc].
      * exists k. split; [now left | exact Hc].
    + intros (rep & [<- | Hrep] & Hc); [now right|].
      left. now exists rep.
  - apply NoDup_cons. split; [| exact Hnd].
    intros Hin'. apply list_elem_of_In in Hin'.
    apply (Hfresh k Hin'). apply rtc_refl.
  - intros a b [<- | Ha] [<- | Hb] Hc; try reflexivity.
    + exfalso. apply (Hfresh b Hb). now apply conn_sym.
    + exfalso. now apply (Hfresh a Ha).
    + now apply Hsep.
  - intros rep [<- | Hrep]; [now rewrite Hget | now apply Hin].
Qed.

Lemma countLoop_reps cm l :
  (forall k c, In (k, c) l -> map_get cm k = Some c /\ 1 <= c <= 3) ->
  forall V reps,
    closed cm V -> represents cm reps V ->
    exists reps',
      represents cm reps' (fold_left (countEntry cm) l (V, countsOf cm reps)).1
      /\ (fold_left (countEntry cm) l (V, countsOf cm reps)).2
         = countsOf cm reps'
      /\ (forall n, n ∈ V ->
                    n ∈ (fold_left (countEntry cm) l (V, countsOf cm reps)).1)
      /\ (forall k c, In (k, c) l ->
                      k ∈ (fold_left (countEntry cm) l (V, countsOf cm reps)).1).
Proof.
  induction l as [| [k c] l IH]; intros Hl V reps Hclosed Hrep.
  - exists reps. cbn [fold_left]. repeat split; try apply Hrep; auto.
    intros k c [].
  - cbn [fold_left].
    destruct (Hl k c (or_introl eq_refl)) as [Hget Hc].
    destruct (countEntry_spec cm V (countsOf cm reps) k c Hclosed Hget)
      as [Hclosed' [[[Hc0 | HkV] Hsame] | (_ & HkV & Hmem & Hbump)]];
      [lia | |].
    + rewrite Hsame.
      destruct (IH (fun k' c' H => Hl k' c' (or_intror H)) V reps Hclosed Hrep)
        as (reps' & R1 & R2 & R3 & R4).
      exists reps'. repeat split; try apply R1; auto.
      intros k' c' [[= <- <-] | Hin]; [now apply R3 | now apply (R4 k' c')].
    + destruct (countEntry cm (V, countsOf cm reps) (k, c)) as [V' r'] eqn:E.
      cbn [fst snd] in Hclosed', Hmem, Hbump. subst r'.
      rewrite <- (countsOf_cons cm k c reps Hget Hc).
      destruct (IH (fun k' c' H => Hl k' c' (or_intror H)) V' (k :: reps)
                  Hclosed' (represents_add cm reps V V' k c Hrep Hget HkV Hmem))
        as (reps' & R1 & R2 & R3 & R4).
      exists reps'. repeat split; try apply R1; auto.
      * intros n Hn. apply R3, Hmem. now left.
      * intros k' c' [[= <- <-] | Hin]; [| now apply (R4 k' c')].
        apply R3, Hmem. right. apply rtc_refl.
Qed.

Lemma components_reps cm :
  wfColors cm ->
  exists reps,
    represents cm reps (fold_left (countEntry cm) cm (∅, mkCounts 0 0 0)).1
    /\ computeConnectedComponents cm = countsOf cm reps
    /\ (forall k, is_Some (map_get cm k) -> exists rep, In rep reps /\ conn cm rep k).
Proof.
  intros [Hnd Hall].
  assert (Hl : forall k c, In (k, c) cm -> map_get cm k = Some c /\ 1 <= c <= 3).
  { intros k c Hin. split; [now apply map_get_In|].
    exact (proj1 (List.Forall_forall _ _) Hall (k, c) Hin). }
  assert (Hrep0 : represents cm [] ∅).
  { split; [| split; [constructor | split]].
    - intros n. split; [intros H; now apply not_elem_of_empty in H|].
      intros (rep & [] & _).
    - intros a b [].
    - intros rep []. }
  destruct (countLoop_reps cm cm Hl ∅ [] (closed_empty cm) Hrep0)
    as (reps & R1 & R2 & _ & R4).
  change (countsOf cm []) with (mkCounts 0 0 0) in R1, R2, R4.
  exists reps. split; [exact R1 | split; [exact R2|]].
  intros k [c Hget]. apply R1. apply (R4 k c). now apply map_get_Some_In.
Qed.

(** X12: on a well-formed colouring of safe cells the three counts are the
    numbers of connected components of the white, black and gray cells:
    there is a list of cells of the colouring,
    no two of them connected through same-coloured neighbours, to one of
    which every cell of the colouring is connected, and the counts are the
    numbers of white, black and gray cells in that list. *)
Theorem computeConnectedComponents_counts (colorMap : ColorMap) :
  safeColors colorMap ->
  wfColors colorMap ->
  exists reps,
    NoDup reps
    /\ (forall rep, In rep reps -> is_Some (map_get colorMap rep))
    /\ (forall a b, In a reps -> In b reps -> conn colorMap a b -> a = b)
    /\ (forall k, is_Some (map_get colorMap k) ->
                  exists rep, In rep reps /\ conn colorMap rep k)
    /\ computeConnectedComponents colorMap
       = mkCounts (repsOf colorMap 1 reps) (repsOf colorMap 2 reps)
           (repsOf colorMap 3 reps).
Proof.
  intros _ Hwf.
  destruct (components_reps colorMap Hwf) as (reps & (_ & Hnd & Hsep & Hin) & E & Hall).
  exists reps. split; [exact Hnd|]. split; [exact Hin|].
  split; [exact Hsep|]. split; [exact Hall|]. exact E.
Qed.

Lemma computeConnectedComponents_counts_witness :
  exists reps,
    NoDup reps
    /\ computeConnectedComponents allWhite
       = mkCounts (repsOf allWhite 1 reps) (repsOf allWhite 2 reps)
           (repsOf allWhite 3 reps).
Proof.
  destruct (computeConnectedComponents_counts allWhite) as (reps & H1 & _ & _ & _ & H5).
  - now apply (bool_decide_unpack _).
  - split; [now apply (bool_decide_unpack _) | repeat constructor; simpl; lia].
  - exists reps. split; [exact H1 | exact H5].
Defined.

Lemma repsOf_zero cm reps c :
  (forall rep, In rep reps -> is_Some (map_get cm rep)) ->
  (forall k, is_Some (map_get cm k) -> exists rep, In rep reps /\ conn cm rep k) ->
  repsOf cm c reps = 0%nat <-> (forall k, map_get cm k <> Some c).
Proof.
  intros Hin Hall. unfold repsOf. split.
  - intros Hlen k Hget.
    destruct (Hall k ltac:(now rewrite Hget)) as (rep & Hrep & Hconn).
    apply conn_color in Hconn. rewrite Hget in Hconn.
    apply length_zero_iff_nil in Hlen.
    assert (Hf : In rep (List.filter (fun k => hasColor cm k c) reps)).
    { apply filter_In. split; [exact Hrep | now apply hasColor_true]. }
    now rewrite Hlen in Hf.
  - intros Hnone. apply length_zero_iff_nil.
    destruct (List.filter (fun k => hasColor cm k c) reps) as [| rep l] eqn:E;
      [reflexivity|].
    assert (Hf : In rep (List.filter (fun k => hasColor cm k c) reps))
      by (rewrite E; now left).
    apply filter_In in Hf as [_ Hf]. apply hasColor_true in Hf.
    now apply Hnone in Hf.
Qed.

(** X13: a count is 0 exactly when no cell has that colour, so the priority
    score W x B x G is 0 exactly for the colourings that leave one of the
    three colours unused; the randomized search evaluates those first. *)
Theorem computePriorityScore_zero (colorMap : ColorMap) :
  wfColors colorMap ->
  let connected := computeConnectedComponents colorMap in
  (white connected = 0%nat <-> forall k, map_get colorMap k <> Some 1)
  /\ (black connected = 0%nat <-> forall k, map_get colorMap k <> Some 2)
  /\ (gray connected = 0%nat <-> forall k, map_get colorMap k <> Some 3)
  /\ (computePriorityScore connected = 0%nat
      <-> exists c, 1 <= c <= 3 /\ forall k, map_get colorMap k <> Some c).
Proof.
  intros Hwf connected. subst connected.
  destruct (components_reps colorMap Hwf) as (reps & (_ & _ & _ & Hin) & E & Hall).
  rewrite E. unfold computePriorityScore, countsOf. cbn [white black gray].
  pose proof (repsOf_zero colorMap reps 1 Hin Hall) as Z1.
  pose proof (repsOf_zero colorMap reps 2 Hin Hall) as Z2.
  pose proof (repsOf_zero colorMap reps 3 Hin Hall) as Z3.
  split; [exact Z1|]. split; [exact Z2|]. split; [exact Z3|].
  split.
  - intros H. apply Nat.eq_mul_0 in H as [H | H];
      [apply Nat.eq_mul_0 in H as [H | H]|].
    + exists 1. split; [lia | now apply Z1].
    + exists 2. split; [lia | now apply Z2].
    + exists 3. split; [lia | now apply Z3].
  - intros (c & Hc & Hnone).
    assert (Ec : c = 1 \/ c = 2 \/ c = 3) by lia.
    destruct Ec as [-> | [-> | ->]].
    + apply Z1 in Hnone. rewrite Hnone. reflexivity.
    + apply Z2 in Hnone. rewrite Hnone. lia.
    + apply Z3 in Hnone. rewrite Hnone. lia.
Qed.

Lemma computePriorityScore_zero_witness :
  computePriorityScore (computeConnectedComponents allWhite) = 0%nat
  <-> exists c, 1 <= c <= 3 /\ forall k, map_get allWhite k <> Some c.
Proof.
  refine (proj2 (proj2 (proj2 (computePriorityScore_zero allWhite _)))).
  split; [now apply (bool_decide_unpack _) | repeat constructor; simpl; lia].
Defined.

(** ** Progress of the exhaustive search *)

Lemma exhaustiveStep_at targetShape i :
  (i <= 3 ^ length targetShape)%nat ->
  exhaustiveStep targetShape false (exhaustiveAt targetShape i)
  = (exhaustiveAt targetShape
       (i + Nat.min 1000 (3 ^ length targetShape - i)),
     if (i + Nat.min 1000 (3 ^ length targetShape - i)
         <? 3 ^ length targetShape)%nat
     then Running else Completed).
Proof.
  intros Hi. unfold exhaustiveStep. cbn [currentIndex exhaustiveAt].
  fold (exhaustiveAt targetShape i).
  rewrite exhaustiveBatch_at by lia.
  cbn [currentIndex exhaustiveAt].
  now destruct (i + Nat.min 1000 (3 ^ length targetShape - i)
                <? 3 ^ length targetShape)%nat.
Qed.

Lemma pow3_pos n : (0 < 3 ^ n)%nat.
Proof. pose proof (Nat.pow_nonzero 3 n). lia. Qed.

Lemma exhaustiveRun_progress targetShape frames :
  forall i,
    (i < 3 ^ length targetShape)%nat ->
    exhaustiveRun frames targetShape (exhaustiveAt targetShape i)
    = (exhaustiveAt targetShape
         (Nat.min (i + 1000 * frames) (3 ^ length targetShape)),
       if (i + 1000 * frames <? 3 ^ length targetShape)%nat
       then Running else Completed).
Proof.
  induction frames as [| frames IH]; intros i Hi.
  - cbn [exhaustiveRun]. rewrite Nat.mul_0_r, Nat.add_0_r.
    rewrite Nat.min_l by lia.
    now destruct (Nat.ltb_spec i (3 ^ length targetShape)); [| lia].
  - cbn [exhaustiveRun]. rewrite exhaustiveStep_at by lia.
    destruct (Nat.ltb_spec (i + Nat.min 1000 (3 ^ length targetShape - i))
                (3 ^ length targetShape)) as [Hlt|Hge].
    + rewrite IH by exact Hlt.
      replace (i + Nat.min 1000 (3 ^ length targetShape - i) + 1000 * frames)%nat
        with (i + 1000 * S frames)%nat by lia.
      reflexivity.
    + destruct (Nat.ltb_spec (i + 1000 * S frames) (3 ^ length targetShape));
        [lia|].
      f_equal. f_equal. lia.
Qed.

Lemma exhaustiveStart_at targetShape :
  exhaustiveStart = exhaustiveAt targetShape 0.
Proof. reflexivity. Qed.

(** X14: after any number of frames the exhaustive search has handled the
    first min(1000 x frames, 3^N) indices and holds exactly their passing
    colourings, in index order: a prefix of the results of the completed
    search.  A stop request ends the search with that state untouched.
    The shape has at most 33 cells, so that every index is a number
    JavaScript holds exactly (3^33 < 2^53). *)
Theorem exhaustive_partial_results (targetShape : list TriangleCoord)
    (frames : nat) :
  (length targetShape <= 33)%nat ->
  let total := (3 ^ length targetShape)%nat in
  let handled := Nat.min (1000 * frames) total in
  exists st,
    exhaustiveRun frames targetShape exhaustiveStart
    = (st, if (1000 * frames <? total)%nat then Running else Completed)
    /\ currentIndex st = handled
    /\ tested st = seq 0 handled
    /\ results st = omap (resultAt targetShape) (seq 0 handled)
    /\ (exists rest,
           omap (resultAt targetShape) (seq 0 total) = results st ++ rest)
    /\ exhaustiveStep targetShape true st = (st, Cancelled).
Proof.
  intros _ total handled.
  exists (exhaustiveAt targetShape handled).
  split.
  { rewrite (exhaustiveStart_at targetShape).
    rewrite exhaustiveRun_progress by apply pow3_pos.
    reflexivity. }
  cbn [currentIndex tested results exhaustiveAt].
  repeat split.
  exists (omap (resultAt targetShape) (seq handled (total - handled))).
  rewrite <- omap_app, <- seq_app. do 2 f_equal. unfold handled. lia.
Qed.

Lemma StronglySorted_weaken {A} (R R' : A -> A -> Prop) l :
  (forall a b, R a b -> R' a b) -> StronglySorted R l -> StronglySorted R' l.
Proof.
  intros HR. induction 1 as [| a l Hs IH Ha]; constructor; [exact IH|].
  eapply List.Forall_impl; [| exact Ha]. intros b. apply HR.
Qed.

Lemma exhaustive_partial_results_witness :
  exists st,
    exhaustiveRun 1 twoCells exhaustiveStart = (st, Completed)
    /\ tested st = seq 0 9.
Proof.
  destruct (exhaustive_partial_results twoCells 1) as (st & H1 & _ & H3 & _).
  - simpl. lia.
  - exists st. split; [exact H1 | exact H3].
Defined.

Lemma omap_seq_attempts (f : nat -> option SearchResult) n :
  (forall i r, f i = Some r -> attempt r = (i + 1)%nat) ->
  forall start,
    StronglySorted (fun a b => (attempt a < attempt b)%nat)
      (omap f (seq start n)).
Proof.
  intros Hf. induction n as [| n IH]; intros start; cbn [seq omap list_omap].
  - constructor.
  - destruct (f start) as [r|] eqn:E; [| apply IH].
    constructor; [apply IH|].
    apply List.Forall_forall. intros b Hb.
    apply list_elem_of_In, list_elem_of_omap in Hb as (j & Hj & Hfj).
    apply list_elem_of_In, in_seq in Hj.
    rewrite (Hf _ _ E), (Hf _ _ Hfj). lia.
Qed.

Lemma sortWith_sorted_id {A} (cmp : A -> A -> Z) l :
  StronglySorted (fun a b => cmp a b <= 0) l -> sortWith cmp l = l.
Proof.
  induction 1 as [| a l Hs IH Ha]; [reflexivity|].
  cbn [sortWith fold_right].
  change (fold_right (insertWith cmp) [] l) with (sortWith cmp l).
  rewrite IH. destruct l as [| b l]; [reflexivity|].
  cbn [insertWith]. apply Forall_cons in Ha as [Hab _].
  now destruct (Z.leb_spec (cmp a b) 0); [| lia].
Qed.

(** X15: whatever the number of frames, every result of the exhaustive
    search is a colouring that passes, stored with its minors, its component
    counts and its index plus one as attempt number; the attempt numbers
    increase along the list, so the table sorted by attempt, ascending,
    shows the results in the order in which they were found.  The shape has
    at most 33 cells, as above. *)
Theorem exhaustive_results_in_order (targetShape : list TriangleCoord)
    (frames : nat) :
  (length targetShape <= 33)%nat ->
  let found := results (exhaustiveRun frames targetShape exhaustiveStart).1 in
  (forall r,
      In r found ->
      passes (colors r) = true
      /\ (1 <= attempt r <= 3 ^ length targetShape)%nat
      /\ colors r = indexToColors (attempt r - 1) targetShape
      /\ dets r = computeMinorDets (colors r)
      /\ connected r = computeConnectedComponents (colors r))
  /\ StronglySorted (fun a b => (attempt a < attempt b)%nat) found
  /\ sortedResults found ByAttempt true = found.
Proof.
  intros _ found. subst found.
  rewrite (exhaustiveStart_at targetShape).
  rewrite exhaustiveRun_progress by apply pow3_pos.
  cbn [fst results exhaustiveAt].
  set (handled := Nat.min (0 + 1000 * frames) (3 ^ length targetShape)).
  assert (Hsorted : StronglySorted (fun a b => (attempt a < attempt b)%nat)
                      (omap (resultAt targetShape) (seq 0 handled))).
  { apply omap_seq_attempts. intros i r Hr.
    now apply resultAt_attempt in Hr. }
  split; [| split; [exact Hsorted|]].
  - intros r Hr.
    apply list_elem_of_In, list_elem_of_omap in Hr as (i & Hi & Hr).
    apply list_elem_of_In, in_seq in Hi.
    destruct (resultAt_attempt _ _ _ Hr) as (Ha & Hc & Hp).
    split; [exact Hp|]. split; [unfold handled in Hi; lia|].
    split; [rewrite Ha, Hc; f_equal; lia|].
    unfold resultAt in Hr.
    destruct (passes (indexToColors i targetShape)); [| discriminate].
    injection Hr as <-. cbn [dets colors connected]. split; reflexivity.
  - apply sortWith_sorted_id.
    eapply StronglySorted_weaken; [| exact Hsorted].
    intros a b Hab. cbv beta in Hab. unfold compareResults, sortValue. lia.
Qed.

Lemma exhaustive_results_in_order_witness :
  sortedResults (results (exhaustiveRun 1 twoCells exhaustiveStart).1)
    ByAttempt true
  = results (exhaustiveRun 1 twoCells exhaustiveStart).1.
Proof.
  refine (proj2 (proj2 (exhaustive_results_in_order twoCells 1 _))).
  simpl. lia.
Defined.

(** X16: the number of patterns the interface announces is the number of
    colourings a completed exhaustive search tests: 3 to the number of
    cells of the shape the search works on, and 0 when there is nothing to
    search.  The numbers are exact for shapes of at most 33 cells. *)
Theorem totalPatterns_tested (s : Session) :
  match targetShapeOf s with
  | None => totalPatterns s = 0%nat
  | Some targetShape =>
      (length targetShape <= 33)%nat ->
      totalPatterns s = (3 ^ length targetShape)%nat
      /\ (0 < totalPatterns s)%nat
      /\ exists frames st,
          exhaustiveRun frames targetShape exhaustiveStart = (st, Completed)
          /\ length (tested st) = totalPatterns s
          /\ NoDup (tested st)
  end.
Proof.
  unfold targetShapeOf, totalPatterns.
  destruct s as [shape cm]. cbn [sessShape sessColors].
  assert (Hrun : forall targetShape : list TriangleCoord,
             exists frames st,
               exhaustiveRun frames targetShape exhaustiveStart = (st, Completed)
               /\ length (tested st) = (3 ^ length targetShape)%nat
               /\ NoDup (tested st)).
  { intros targetShape.
    destruct (exhaustiveRun_completes targetShape (3 ^ length targetShape)
                0%nat ltac:(lia) ltac:(lia)) as [frames Hrun].
    exists frames, (exhaustiveAt targetShape (3 ^ length targetShape)).
    split; [exact Hrun|]. cbn [tested exhaustiveAt].
    split; [apply length_seq | apply NoDup_ListNoDup, seq_NoDup]. }
  destruct shape as [| c shape]; cbn [length Nat.eqb Nat.ltb Nat.leb andb].
  - destruct cm as [| e cm]; cbn [length Nat.eqb]; [reflexivity|].
    rewrite length_map. cbn [length]. intros _.
    split; [reflexivity|]. split; [apply pow3_pos|].
    destruct (Hrun (map fst (e :: cm))) as (frames & st & H1 & H2 & H3).
    exists frames, st. rewrite length_map in H2. auto.
  - intros _. split; [reflexivity|]. split; [apply pow3_pos|].
    apply (Hrun (c :: shape)).
Qed.

(** ** The frames of the randomized search *)

Lemma searchStepWith_spec batchSize rng targetShape currentColors st :
  exists st' new,
    searchStepWith batchSize rng targetShape currentColors false st
    = (st', Running)
    /\ attempts st' = (attempts st + batchSize)%nat
    /\ evaluated st' = (evaluated st + batchSize)%nat
    /\ found st' = found st ++ new
    /\ forall r,
         In r new ->
         passes (colors r) = true
         /\ (attempts st < attempt r <= attempts st + batchSize)%nat
         /\ dets r = computeMinorDets (colors r)
         /\ connected r = computeConnectedComponents (colors r)
         /\ exists p,
             colors r = (randomizeColors rng targetShape currentColors p).1.
Proof.
  unfold searchStepWith.
  destruct (generateCandidates_spec rng targetShape currentColors batchSize
              (attempts st) (rngPos st) [])
    as (gen & pos' & Hgen & Hlen & Hall).
  rewrite Hgen. cbn [app].
  rewrite evaluateCandidates_fold.
  eexists. eexists. split; [reflexivity|].
  cbn [attempts evaluated found].
  split; [reflexivity|].
  split; [now rewrite <- (Permutation_length (sortCandidates_perm gen)), Hlen|].
  split; [reflexivity|].
  intros r Hr. apply in_map_iff in Hr as (c & <- & Hc).
  apply filter_In in Hc as [Hc Hpass].
  apply (Permutation_in _ (Permutation_sym (sortCandidates_perm gen))) in Hc.
  apply list_elem_of_In, list_elem_of_lookup in Hc as [i Hi].
  pose proof (lookup_lt_Some _ _ _ Hi) as Hlt.
  destruct (Hall i c Hi) as (Ha & Hconn & _ & Hp).
  unfold resultOf. cbn [colors attempt dets connected].
  split; [exact Hpass|]. split; [lia|]. split; [reflexivity|].
  split; [exact Hconn | exact Hp].
Qed.

Lemma searchRunWith_spec batchSize rng targetShape currentColors frames :
  forall st,
  exists st' new,
    searchRunWith batchSize frames rng targetShape currentColors st
    = (st', Running)
    /\ attempts st' = (attempts st + batchSize * frames)%nat
    /\ evaluated st' = (evaluated st + batchSize * frames)%nat
    /\ found st' = found st ++ new
    /\ forall r,
         In r new ->
         passes (colors r) = true
         /\ (attempts st < attempt r <= attempts st')%nat
         /\ dets r = computeMinorDets (colors r)
         /\ connected r = computeConnectedComponents (colors r)
         /\ exists p,
             colors r = (randomizeColors rng targetShape currentColors p).1.
Proof.
  induction frames as [| frames IH]; intros st.
  - exists st, []. cbn [searchRunWith]. rewrite app_nil_r.
    split; [reflexivity|]. split; [lia|]. split; [lia|].
    split; [reflexivity|]. intros r [].
  - cbn [searchRunWith].
    destruct (searchStepWith_spec batchSize rng targetShape currentColors st)
      as (st1 & new1 & Hstep & Ha1 & He1 & Hf1 & Hnew1).
    rewrite Hstep.
    destruct (IH st1) as (st2 & new2 & Hrun & Ha2 & He2 & Hf2 & Hnew2).
    exists st2, (new1 ++ new2). split; [exact Hrun|].
    split; [lia|]. split; [lia|].
    split; [now rewrite Hf2, Hf1, app_assoc|].
    intros r Hr. apply in_app_or in Hr as [Hr | Hr].
    + destruct (Hnew1 r Hr) as (H1 & H2 & H3). split; [exact H1|].
      split; [lia | exact H3].
    + destruct (Hnew2 r Hr) as (H1 & H2 & H3). split; [exact H1|].
      split; [lia | exact H3].
Qed.


(** ** The search of [src/App.tsx] *)

Lemma SrcSearch_searchBatch_spec maxAttempts rng targetShape batchSize :
  forall attempts pos,
    (attempts <= maxAttempts)%nat ->
    match SrcSearch.searchBatch maxAttempts rng targetShape batchSize attempts pos
    with
    | (Some testColors, attempts', _) =>
        passes testColors = true
        /\ (attempts < attempts' <= maxAttempts)%nat
        /\ exists p, testColors = (SrcApp.randomizeColors rng targetShape p).1
    | (None, attempts', _) =>
        attempts' = Nat.min (attempts + batchSize) maxAttempts
    end.
Proof.
  induction batchSize as [| batchSize IH]; intros attempts pos Hle;
    cbn [SrcSearch.searchBatch].
  - lia.
  - destruct (Nat.ltb_spec attempts maxAttempts) as [Hlt|Hge]; [| lia].
    destruct (SrcApp.randomizeColors rng targetShape pos)
      as [testColors pos'] eqn:Er.
    destruct (allNonZero (computeMinorDets testColors)) eqn:Epass.
    + split; [exact Epass|]. split; [lia|].
      exists pos. now rewrite Er.
    + specialize (IH (S attempts) pos' ltac:(lia)).
      destruct (SrcSearch.searchBatch maxAttempts rng targetShape batchSize
                  (S attempts) pos') as [[[c|] a'] p'].
      * destruct IH as (H1 & H2 & H3). split; [exact H1|].
        split; [lia | exact H3].
      * lia.
Qed.

Lemma SrcSearch_searchRunWith_ends batchSize maxAttempts rng targetShape :
  (0 < batchSize)%nat ->
  forall frames attempts pos,
    (attempts <= maxAttempts)%nat ->
    (0 < frames)%nat ->
    (maxAttempts - attempts <= batchSize * frames)%nat ->
    exists attempts' pos' outcome,
      SrcSearch.searchRunWith batchSize maxAttempts frames rng targetShape
        (attempts, pos)
      = ((attempts', pos'), outcome)
      /\ ((exists testColors,
              outcome = SrcSearch.Found testColors
              /\ passes testColors = true
              /\ (attempts < attempts' <= maxAttempts)%nat
              /\ exists p,
                  testColors = (SrcApp.randomizeColors rng targetShape p).1)
          \/ (outcome = SrcSearch.GaveUp /\ attempts' = maxAttempts)).
Proof.
  intros Hb. induction frames as [| frames IH]; intros attempts pos Hle Hf Hfr;
    [lia|].
  cbn [SrcSearch.searchRunWith]. unfold SrcSearch.searchStepWith.
  cbn [fst snd].
  pose proof (SrcSearch_searchBatch_spec maxAttempts rng targetShape batchSize
                attempts pos Hle) as Hbatch.
  destruct (SrcSearch.searchBatch maxAttempts rng targetShape batchSize
              attempts pos) as [[[c|] a'] p'].
  - exists a', p', (SrcSearch.Found c). split; [reflexivity|].
    left. exists c. destruct Hbatch as (H1 & H2 & H3). auto.
  - destruct (Nat.leb_spec maxAttempts a') as [Hge|Hlt].
    + exists a', p', SrcSearch.GaveUp. split; [reflexivity|]. right.
      split; [reflexivity | lia].
    + destruct (IH a' p') as (a2 & p2 & out & Hrun & Hout); [lia | nia | nia |].
      exists a2, p2, out. split; [exact Hrun|].
      destruct Hout as [(c & H1 & H2 & H3 & H4) | H]; [left | now right].
      exists c. split; [exact H1|]. split; [exact H2|].
      split; [lia | exact H4].
Qed.

(** X18: the search of [src/App.tsx] always ends within 100 frames: either
    with a colouring that passes, which colours every cell of the shape
    with 1, 2 or 3 and was found in at most 100000 attempts, or after
    exactly 100000 attempts with nothing found. *)
Theorem SrcSearch_ends (rng : Rng) (targetShape : list TriangleCoord)
    (pos : nat) :
  exists attempts' pos' outcome,
    SrcSearch.searchRun 100 rng targetShape (0%nat, pos)
    = ((attempts', pos'), outcome)
    /\ ((exists testColors,
            outcome = SrcSearch.Found testColors
            /\ passes testColors = true
            /\ (1 <= attempts' <= 100 * 1000)%nat
            /\ (forall cell,
                   is_Some (map_get testColors cell) <-> cell ∈ targetShape))
        \/ (outcome = SrcSearch.GaveUp /\ attempts' = (100 * 1000)%nat)).
Proof.
  unfold SrcSearch.searchRun.
  destruct (SrcSearch_searchRunWith_ends 1000 (100 * 1000) rng targetShape
              ltac:(lia) 100%nat 0%nat pos ltac:(lia) ltac:(lia) ltac:(lia))
    as (a' & p' & out & Hrun & Hout).
  exists a', p', out. split; [exact Hrun|].
  destruct Hout as [(c & H1 & H2 & H3 & p & H4) | H]; [left | now right].
  exists c. split; [exact H1|]. split; [exact H2|]. split; [lia|].
  intros cell. rewrite H4. unfold SrcApp.randomizeColors.
  rewrite SrcApp_randomizeColorsLoop_domain. split.
  - intros [[c' Hc'] | H]; [discriminate | exact H].
  - intros H. now right.
Qed.

(** ** Randomize without a saved outline *)

Lemma filter_all {A} (p : A -> bool) l :
  (forall a, In a l -> p a = true) -> List.filter p l = l.
Proof.
  induction l as [| a l IH]; intros H; [reflexivity|].
  cbn [List.filter]. rewrite (H a (or_introl eq_refl)), IH; [reflexivity|].
  intros b Hb. apply H. now right.
Qed.

Lemma map_fst_combine {A B} (l : list A) (d : list B) :
  length l = length d -> map fst (combine l d) = l.
Proof.
  revert d. induction l as [| a l IH]; intros [| b d] H; try discriminate;
    [reflexivity|].
  simpl. f_equal. apply IH. now injection H.
Qed.

Lemma map_snd_combine {A B} (l : list A) (d : list B) :
  length l = length d -> map snd (combine l d) = d.
Proof.
  revert d. induction l as [| a l IH]; intros [| b d] H; try discriminate;
    [reflexivity|].
  simpl. f_equal. apply IH. now injection H.
Qed.

Lemma drawnColors_length rng pos k : length (drawnColors rng pos k) = k.
Proof. unfold drawnColors. now rewrite length_map, length_seq. Qed.

Lemma drawnColors_range rng pos k :
  Forall (fun c => 1 <= c <= 3) (drawnColors rng pos k).
Proof.
  unfold drawnColors. apply List.Forall_forall. intros c Hc.
  apply in_map_iff in Hc as (j & <- & _). apply drawValue_range.
Qed.

(** X19: with no outline saved and a well-formed colouring of safe cells,
    Randomize saves the cells of the current colouring as the outline and
    recolours exactly them: the new colouring has the same cells in the
    same order, each with a fresh draw from 1, 2, 3, and one random number
    is used per cell. *)
Theorem handleRandomize_keeps_cells (rng : Rng) (pos : nat) (colors0 : ColorMap) :
  safeColors colors0 -> wfColors colors0 -> colors0 <> [] ->
  let '(s, pos') := handleRandomize rng pos (mkSession [] colors0) in
  sessShape s = handleSaveShape colors0
  /\ map fst (sessColors s) = map fst colors0
  /\ map snd (sessColors s) = drawnColors rng pos (length colors0)
  /\ wfColors (sessColors s)
  /\ pos' = (pos + length colors0)%nat.
Proof.
  intros _ [Hnd Hall] Hne. unfold handleRandomize, targetShapeOf.
  cbn [sessShape sessColors length Nat.eqb andb].
  replace (length colors0 =? 0)%nat with false
    by (destruct colors0; [congruence | reflexivity]).
  unfold randomizeColors.
  rewrite randomizeColorsLoop_zip; [| exact Hnd | reflexivity].
  rewrite filter_all.
  2:{ intros k Hk. apply in_map_iff in Hk as ([k' c] & <- & Hin).
      unfold currentlyColored. cbn [fst].
      rewrite (map_get_In colors0 k' c Hnd Hin).
      pose proof (proj1 (List.Forall_forall _ _) Hall (k', c) Hin) as Hc.
      simpl in Hc. now destruct (Z.eqb_spec c 0); [lia|]. }
  cbn [app]. rewrite !length_map.
  assert (Hlen : length (map fst colors0)
                 = length (drawnColors rng pos (length colors0)))
    by now rewrite drawnColors_length, length_map.
  split; [reflexivity|].
  split; [now apply map_fst_combine|].
  split; [now apply map_snd_combine|].
  split; [| reflexivity].
  cbn [sessColors].
  split; [now rewrite map_fst_combine|].
  apply List.Forall_forall. intros [k c] Hin.
  apply in_combine_r in Hin. cbn [snd].
  exact (proj1 (List.Forall_forall _ _)
           (drawnColors_range rng pos (length colors0)) c Hin).
Qed.

Lemma handleRandomize_keeps_cells_witness :
  let '(s, pos') := handleRandomize sampleRng 0 (mkSession [] allWhite) in
  map fst (sessColors s) = map fst allWhite /\ pos' = 3%nat.
Proof.
  pose proof (handleRandomize_keeps_cells sampleRng 0 allWhite) as H.
  destruct (handleRandomize sampleRng 0 (mkSession [] allWhite)) as [s pos'].
  destruct H as (_ & H2 & _ & _ & H5).
  - now apply (bool_decide_unpack _).
  - split; [now apply (bool_decide_unpack _) | repeat constructor; simpl; lia].
  - discriminate.
  - split; [exact H2 | exact H5].
Defined.

(** ** Shapes too small to pass *)

Lemma map_set_length (m : ColorMap) k c :
  (length (map_set m k c) <= S (length m))%nat.
Proof.
  induction m as [| [k' c'] m IH]; simpl; [lia|].
  destruct (decide (k' = k)); simpl; lia.
Qed.

Lemma indexToColorsLoop_length targetShape :
  forall index acc,
    (length (indexToColorsLoop targetShape index acc)
     <= length acc + length targetShape)%nat.
Proof.
  induction targetShape as [| coord rest IH]; intros index acc;
    cbn [indexToColorsLoop length]; [lia|].
  etransitivity; [apply IH|].
  pose proof (map_set_length acc coord (Z.of_nat (index mod 3) + 1)). lia.
Qed.

Lemma randomizeColorsLoop_length rng currentColors targetShape :
  forall pos acc,
    (length (randomizeColorsLoop rng targetShape currentColors pos acc).1
     <= length acc + length targetShape)%nat.
Proof.
  induction targetShape as [| coord rest IH]; intros pos acc;
    cbn [randomizeColorsLoop length]; [simpl; lia|].
  destruct (map_get currentColors coord) as [c|].
  - destruct (c =? 0).
    + etransitivity; [apply IH | lia].
    + etransitivity; [apply IH|].
      pose proof (map_set_length acc coord (drawValue (rng pos) + 1)). lia.
  - etransitivity; [apply IH | lia].
Qed.

Lemma coloredTriangles_length (colorMap : ColorMap) :
  (length (coloredTriangles colorMap) <= length colorMap)%nat.
Proof.
  unfold coloredTriangles.
  induction colorMap as [| [k c] colorMap IH]; cbn [omap list_omap length];
    [lia|].
  destruct (c =? 0); cbn [length]; lia.
Qed.

Lemma passes_small (colorMap : ColorMap) :
  (length colorMap <= 1)%nat -> passes colorMap = false.
Proof.
  intros H. unfold passes. rewrite computeMinorDets_small; [reflexivity|].
  pose proof (coloredTriangles_length colorMap). lia.
Qed.

Lemma omap_none {A B} (f : A -> option B) l :
  (forall a, f a = None) -> omap f l = [].
Proof.
  intros Hf. induction l as [| a l IH]; cbn [omap list_omap]; [reflexivity|].
  now rewrite Hf.
Qed.

(** X20: a shape of fewer than two cells gives no result.  The exhaustive
    search tries its 3^N colourings in one frame and completes with an
    empty list; the randomized search runs on without ever adding a
    result. *)
Theorem small_shape_finds_nothing (targetShape : list TriangleCoord) :
  (length targetShape <= 1)%nat ->
  (exists st,
      exhaustiveRun 1 targetShape exhaustiveStart = (st, Completed)
      /\ results st = []
      /\ length (tested st) = (3 ^ length targetShape)%nat)
  /\ (forall batchSize frames rng currentColors st,
         found (searchRunWith batchSize frames rng targetShape currentColors st).1
         = found st).
Proof.
  intros Hsmall.
  assert (H3 : (3 ^ length targetShape <= 3)%nat).
  { destruct targetShape as [| c [| c' l]]; simpl in *; lia. }
  split.
  - eexists. rewrite (exhaustiveStart_at targetShape).
    rewrite exhaustiveRun_progress by apply pow3_pos.
    destruct (Nat.ltb_spec (0 + 1000 * 1) (3 ^ length targetShape)); [lia|].
    split; [reflexivity|]. cbn [results tested exhaustiveAt].
    split.
    + apply omap_none. intros index. unfold resultAt.
      rewrite passes_small; [reflexivity|].
      unfold indexToColors.
      pose proof (indexToColorsLoop_length targetShape index []).
      simpl in *. lia.
    + rewrite length_seq. lia.
  - intros batchSize frames rng currentColors st.
    destruct (searchRunWith_spec batchSize rng targetShape currentColors frames st)
      as (st' & new & Hrun & _ & _ & Hf & Hnew).
    rewrite Hrun. cbn [fst]. rewrite Hf.
    destruct new as [| r new]; [apply app_nil_r|].
    destruct (Hnew r (or_introl eq_refl)) as (Hpass & _ & _ & _ & p & Hp).
    rewrite passes_small in Hpass; [discriminate|].
    rewrite Hp. unfold randomizeColors.
    pose proof (randomizeColorsLoop_length rng currentColors targetShape p []).
    simpl in *. lia.
Qed.

Lemma small_shape_finds_nothing_witness :
  exists st,
    exhaustiveRun 1 [mkCoord 0 0 true] exhaustiveStart = (st, Completed)
    /\ results st = [].
Proof.
  destruct (small_shape_finds_nothing [mkCoord 0 0 true])
    as [(st & H1 & H2 & _) _].
  - simpl. lia.
  - exists st. split; [exact H1 | exact H2].
Defined.

(** ** The flood fill *)

(** X21: on a colouring of safe cells, started on a cell of the target
    colour, with a visited set made of whole components, the flood fill
    ends within its [1 + 3 * size] iterations and adds exactly the cells
    connected to the start through same-coloured neighbours: every added
    cell has the target colour, and the new set is again made of whole
    components.  Started on a cell of another colour, or on no cell of the
    map, it adds nothing.  The neighbours of a safe cell are the cells
    [areAdjacent] relates to it, so the components are those of the
    adjacency the matrix is built on. *)
Theorem dfs_marks_component (colorMap : ColorMap) (V : gset TriangleCoord)
    (s : TriangleCoord) (c : Color) :
  safeColors colorMap ->
  closed colorMap V ->
  (map_get colorMap s = Some c ->
   dfsLoop (1 + 3 * length colorMap) colorMap c [s] V
   = Some (dfs colorMap V s c)
   /\ (forall n, n ∈ dfs colorMap V s c <-> n ∈ V \/ conn colorMap s n)
   /\ (forall n, n ∈ dfs colorMap V s c -> n ∉ V ->
                 map_get colorMap n = Some c)
   /\ closed colorMap (dfs colorMap V s c))
  /\ (map_get colorMap s <> Some c -> dfs colorMap V s c = V)
  /\ (forall k n,
         safeCell k -> (In n (neighbors k) <-> areAdjacent k n = true)).
Proof.
  intros _ Hclosed. split; [| split].
  - intros Hs.
    split; [apply dfs_total|].
    split; [now apply dfs_spec|].
    split; [| now apply dfs_closed].
    intros n Hn HnV. apply (dfs_spec colorMap c V s Hclosed Hs) in Hn.
    destruct Hn as [Hn | Hn]; [contradiction|].
    apply conn_color in Hn. now rewrite <- Hn.
  - intros Hs. unfold dfs.
    change (1 + 3 * length colorMap)%nat with (S (3 * length colorMap)).
    cbn [dfsLoop].
    destruct (bool_decide (s ∈ V)); [now destruct (3 * length colorMap)%nat|].
    destruct (hasColor colorMap s c) eqn:E.
    + now apply hasColor_true in E.
    + cbn [negb]. now destruct (3 * length colorMap)%nat.
  - intros k n _. apply neighbors_adjacent.
Qed.

Lemma dfs_marks_component_witness :
  dfsLoop (1 + 3 * length allWhite) allWhite 1 [mkCoord 0 0 true] ∅
  = Some (dfs allWhite ∅ (mkCoord 0 0 true) 1)
  /\ (mkCoord 1 0 false ∈ dfs allWhite ∅ (mkCoord 0 0 true) 1
      <-> mkCoord 1 0 false ∈ (∅ : gset TriangleCoord)
          \/ conn allWhite (mkCoord 0 0 true) (mkCoord 1 0 false)).
Proof.
  destruct (dfs_marks_component allWhite ∅ (mkCoord 0 0 true) 1) as [H _].
  - now apply (bool_decide_unpack _).
  - intros k n Hk. now apply not_elem_of_empty in Hk.
  - destruct (H eq_refl) as (H1 & H2 & _).
    split; [exact H1 | exact (H2 (mkCoord 1 0 false))].
Defined.

(** ** Counts and proper colourings *)

Lemma repsOf_total cm reps :
  (forall rep, In rep reps ->
               exists c, map_get cm rep = Some c /\ 1 <= c <= 3) ->
  (repsOf cm 1 reps + repsOf cm 2 reps + repsOf cm 3 reps)%nat = length reps.
Proof.
  induction reps as [| rep reps IH]; intros H; [reflexivity|].
  destruct (H rep (or_introl eq_refl)) as (c & Hget & Hc).
  specialize (IH (fun r Hr => H r (or_intror Hr))).
  assert (Hcons : forall c',
             repsOf cm c' (rep :: reps)
             = if c =? c' then S (repsOf cm c' reps) else repsOf cm c' reps).
  { intros c'. unfold repsOf, hasColor. cbn [List.filter]. rewrite Hget.
    now destruct (c =? c'). }
  rewrite !Hcons. cbn [length].
  assert (Ec : c = 1 \/ c = 2 \/ c = 3) by lia.
  destruct Ec as [-> | [-> | ->]]; cbn [Z.eqb Pos.eqb]; lia.
Qed.

Lemma map_get_is_Some_key (cm : ColorMap) k :
  is_Some (map_get cm k) -> k ∈ map fst cm.
Proof.
  intros [c Hc]. apply map_get_Some_In in Hc.
  apply list_elem_of_In, in_map_iff. now exists (k, c).
Qed.

Lemma key_map_get_is_Some (cm : ColorMap) k :
  k ∈ map fst cm -> is_Some (map_get cm k).
Proof.
  intros Hk. destruct (map_get cm k) eqn:E; [eauto|].
  exfalso. revert Hk. now apply map_get_None_keys.
Qed.

(** X22: on a well-formed colouring of safe cells the three counts add up
    to at most the number of cells, and to exactly that number when, and
    only when, no two adjacent cells have the same colour. *)
Theorem computeConnectedComponents_total (colorMap : ColorMap) :
  safeColors colorMap ->
  wfColors colorMap ->
  let connected := computeConnectedComponents colorMap in
  (white connected + black connected + gray connected <= length colorMap)%nat
  /\ ((white connected + black connected + gray connected)%nat
      = length colorMap
      <-> forall k n c,
            map_get colorMap k = Some c -> map_get colorMap n = Some c ->
            areAdjacent k n = false).
Proof.
  intros _ Hwf connected. subst connected.
  destruct (components_reps colorMap Hwf)
    as (reps & (_ & Hnd & Hsep & Hin) & E & Hall).
  rewrite E. unfold countsOf. cbn [white black gray].
  rewrite repsOf_total.
  2:{ intros rep Hrep. destruct (Hin rep Hrep) as [c Hc]. exists c.
      split; [exact Hc | now apply (wfColors_range colorMap rep c)]. }
  assert (Hsub : reps ⊆+ map fst colorMap).
  { apply NoDup_submseteq; [exact Hnd|]. intros k Hk.
    apply map_get_is_Some_key, Hin, list_elem_of_In, Hk. }
  pose proof (submseteq_length _ _ Hsub) as Hle. rewrite length_map in Hle.
  split; [exact Hle|]. split.
  - intros Hlen k n c Hk Hn.
    destruct (areAdjacent k n) eqn:Hadj; [| reflexivity]. exfalso.
    assert (Hperm : reps ≡ₚ map fst colorMap).
    { apply submseteq_length_Permutation; [exact Hsub|].
      rewrite length_map. lia. }
    assert (Hkr : In k reps).
    { apply list_elem_of_In. rewrite Hperm.
      apply map_get_is_Some_key. now rewrite Hk. }
    assert (Hnr : In n reps).
    { apply list_elem_of_In. rewrite Hperm.
      apply map_get_is_Some_key. now rewrite Hn. }
    assert (Hkn : k = n).
    { apply Hsep; [exact Hkr | exact Hnr|]. apply rtc_once. split.
      - now apply neighbors_adjacent.
      - now exists c. }
    subst n. now rewrite areAdjacent_irrefl in Hadj.
  - intros Hproper.
    assert (Hconn : forall a b, conn colorMap a b -> a = b).
    { intros a b Hab. induction Hab as [| a b d [Hnb (col & Ha & Hb)] _ IH];
        [reflexivity|].
      apply neighbors_adjacent in Hnb.
      now rewrite (Hproper a b col Ha Hb) in Hnb. }
    assert (Hsub' : map fst colorMap ⊆+ reps).
    { apply NoDup_submseteq; [apply Hwf|]. intros k Hk.
      destruct (Hall k (key_map_get_is_Some colorMap k Hk)) as (rep & Hrep & Hc).
      apply Hconn in Hc. subst rep. now apply list_elem_of_In. }
    pose proof (submseteq_length _ _ Hsub') as Hge. rewrite length_map in Hge.
    lia.
Qed.

Lemma computeConnectedComponents_total_witness :
  (white (computeConnectedComponents allWhite)
   + black (computeConnectedComponents allWhite)
   + gray (computeConnectedComponents allWhite) <= 3)%nat.
Proof.
  refine (proj1 (computeConnectedComponents_total allWhite _ _)).
  - now apply (bool_decide_unpack _).
  - split; [now apply (bool_decide_unpack _) | repeat constructor; simpl; lia].
Defined.

(** ** Beyond 2^53 *)

Example Binary64_getKey_sample :
  Binary64.getKey (float_of_Z (-3)) (float_of_Z 12) true = Some "-3,12,u"%string
  /\ Binary64.parseKey "9007199254740994,0,u"
     = Some (9007199254740994%float, zero, true)
  /\ (9007199254740994 - 1)%float = Binary64.two53
  /\ (Binary64.two53 + 1)%float = Binary64.two53.
Proof. vm_compute. repeat split. Qed.


(** On small numbers the binary64 loops do what the integer embedding
    does. *)
Example Binary64_small_agrees :
  Binary64.computeConnectedComponents
    [("0,0,u"%string, 1); ("5,5,u"%string, 1); ("1,0,d"%string, 1);
     ("2,0,u"%string, 3)]
  = Some (computeConnectedComponents
            [(mkCoord 0 0 true, 1); (mkCoord 5 5 true, 1);
             (mkCoord 1 0 false, 1); (mkCoord 2 0 true, 3)])
  /\ Binary64.exhaustiveStep (Binary64.pow3 2) zero
     = (float_of_Z 9, map (fun i => float_of_Z (Z.of_nat i)) (seq 0 9),
        Completed).
Proof. vm_compute. split; reflexivity. Qed.

(** The claim C9 as stated fails at 2^53.  The colouring has the white
    cells (2^53 + 2, 0, up) and (2^53, 0, down), which are not adjacent.
    From the first the flood fill computes the neighbour x - 1, which is
    2^53 in binary64, finds the second cell under that key and counts one
    component; from the second it computes x + 1, which is 2^53 again, finds
    nothing and counts two. *)
Lemma Binary64_components_depend_on_order :
  KeyCodec.getKey (2 ^ 53 + 2) 0 true = "9007199254740994,0,u"%string
  /\ KeyCodec.getKey (2 ^ 53) 0 false = "9007199254740992,0,d"%string
  /\ areAdjacent (mkCoord (2 ^ 53 + 2) 0 true) (mkCoord (2 ^ 53) 0 false) = false
  /\ Binary64.computeConnectedComponents
       [("9007199254740994,0,u"%string, 1); ("9007199254740992,0,d"%string, 1)]
     = Some (mkCounts 1 0 0)
  /\ Binary64.computeConnectedComponents
       [("9007199254740992,0,d"%string, 1); ("9007199254740994,0,u"%string, 1)]
     = Some (mkCounts 2 0 0).
Proof. vm_compute. repeat split. Qed.

(** The claim C2 as stated fails for a shape of 34 cells.  [Math.pow(3, 34)]
    is 16677181699666568, one less than 3^34, and above 2^53.  The frame
    that starts at the index 2^53 - 1000 ends at 2^53.  A frame that starts
    at 2^53 hands that index to [indexToColors] a thousand times, since
    2^53 + 1 is 2^53 in binary64, and ends at the same index, still
    running: the colourings of the indices above 2^53 are never visited and
    the search does not complete. *)
Lemma Binary64_exhaustive_index_stuck :
  Binary64.pow3 34 = 16677181699666568%float
  /\ 16677181699666568 < 3 ^ 34
  /\ (Binary64.two53 <? Binary64.pow3 34)%float = true
  /\ (Binary64.two53 + 1)%float = Binary64.two53
  /\ (Binary64.exhaustiveStep (Binary64.pow3 34)
        (float_of_Z (2 ^ 53 - 1000))).1.1
     = Binary64.two53
  /\ Binary64.exhaustiveStep (Binary64.pow3 34) Binary64.two53
     = (Binary64.two53, replicate 1000 Binary64.two53, Running).
Proof. vm_compute. repeat split. Qed.
